(** * The block-ingest pipeline of the ilxd full node

    A shallow embedding of the server (package main): [BuildServer],
    [handleIncomingBlock], [processBlock], the consensus waiter goroutine,
    [decodeXthinner], [fetchBlockTxids], [fetchBlock], [requestBlock] and
    [Close]; of the chain-service client it calls (package sync):
    [GetBlockTxs], [GetBlockTxids] and [GetBlock]; and of the options of the
    blockchain package.

    Blocks live in a heap and are passed around by address, as the
    [*blocks.Block] of the code: the maps of the server, the waiters and the
    callers of [processBlock] hold addresses, and a write to
    [blk.Transactions[i]] is seen through every one of them.  The three maps
    of the server are finite maps, the three [RWMutex]es are explicit lock
    states, and every call the server makes to a collaborator (blockchain,
    message sender, network, consensus engine) is appended to a trace.  A
    goroutine is run to completion from the state it starts in; it can
    return, panic (nil dereference, index out of range) or park forever on a
    lock. *)

From stdpp Require Import gmap strings list fin_maps.

Local Open Scope N_scope.

(** ** Data *)

(** [types.ID]: a 32-byte hash, read as a number. *)
Definition ID := N.
(** [peer.ID]. *)
Definition peerID := N.

Definition uint32_mod : N := 2 ^ 32.
Definition uint32 (n : N) : N := n mod uint32_mod.

(** [transactions.Transaction]: the pipeline only moves transactions around
    and asks for their [ID()]; a transaction is its serialization. *)
Record Transaction := { tx_bytes : N }.

Record BlockHeader := {
  Version : N;
  Height : N;
  Parent : ID;
  Timestamp : Z;
  TxRoot : N;
  Producer_ID : N;
  Signature : N
}.

Record Block := {
  Header : BlockHeader;
  Transactions : list Transaction
}.

(** A [*blocks.Block] that is not nil: the address of a block in the
    heap. *)
Definition ptr := nat.
Bind Scope nat_scope with ptr.

Record XThinnerBlock := {
  xHeader : BlockHeader;
  xTxCount : N;
  xEncoding : N
}.

(** [blockchain.ErrorCode] of a [RuleError]; only two codes are inspected. *)
Inductive ErrorCode :=
| ErrInvalidTxRoot
| ErrDoesNotConnect
| ErrOtherRule (code : N).

(** The Go [error] values the pipeline distinguishes by type switch. *)
Inductive error :=
| OrphanBlockError
| RuleError (code : ErrorCode)
| OtherError (msg : string).

Inductive Status := StatusFinalized | StatusRejected.

Record orphanBlock := {
  blk : ptr;
  relayingPeer : peerID;
  firstSeen : N
}.

Record Policy := {
  MinFeePerByte : N;
  MinStake : N;
  BlocksizeSoftLimit : N;
  MaxMessageSize : N;
  TreasuryWhitelist : list ID
}.

(** [sync.RWMutex]: the number of read locks held and whether the write lock
    is held. *)
Record RWMutex := { readers : nat; writer : bool }.

Definition unlocked : RWMutex := {| readers := 0; writer := false |}.

(** *** The wire messages of the chain service *)

Inductive ErrorResponse :=
| ErrorResponse_None
| ErrorResponse_NotFound
| ErrorResponse_BadRequest.

Inductive MsgChainServiceRequest :=
| MsgChainServiceRequest_GetBlockTxs (BlockID : ID) (TxIndexes : list N)
| MsgChainServiceRequest_GetBlockTxids (BlockID : ID)
| MsgChainServiceRequest_GetBlock (BlockID : ID).

Record MsgBlockTxsResp := {
  txs_Error : ErrorResponse;
  txs_Transactions : list Transaction
}.

(** [Txids] are byte strings on the wire, read as numbers. *)
Record MsgBlockTxidsResp := {
  txids_Error : ErrorResponse;
  txids_Txids : list N
}.

Record MsgBlockResp := {
  block_Error : ErrorResponse;
  block_Block : Block
}.

(** The message a request is answered with: the [resp] its sender hands to
    [SendRequest]. *)
Definition response (req : MsgChainServiceRequest) : Type :=
  match req with
  | MsgChainServiceRequest_GetBlockTxs _ _ => MsgBlockTxsResp
  | MsgChainServiceRequest_GetBlockTxids _ => MsgBlockTxidsResp
  | MsgChainServiceRequest_GetBlock _ => MsgBlockResp
  end.

(** Calls made to the collaborators, oldest first.  [EvGetBlockTxs],
    [EvGetBlockTxids] and [EvGetBlock] are the requests the message sender
    sends to a peer. *)
Inductive event :=
| EvCheckConnectBlock (b : Block)
| EvConnectBlock (b : Block)
| EvIncreaseBanscore (p : peerID) (behavioral transient : N)
| EvNewBlock (id : ID) (initialPreference : bool)
| EvGetBlockTxs (p : peerID) (id : ID) (indexes : list N)
| EvGetBlockTxids (p : peerID) (id : ID)
| EvGetBlock (p : peerID) (id : ID).

Record Server := {
  (* the blocks allocated so far; a [*blocks.Block] is an index into it *)
  heap : list Block;
  orphanBlocks : gmap ID orphanBlock;
  orphanLock : RWMutex;
  activeInventory : gmap ID ptr;
  inventoryLock : RWMutex;
  inflightRequests : gmap ID bool;
  inflightLock : RWMutex;
  policy : option Policy;
  (* s.blockchain: the blocks connected so far *)
  chain : list Block;
  (* calls made to the collaborators *)
  trace : list event;
  (* goroutines parked on their consensus callback *)
  waiters : list ptr;
  (* pending time.AfterFunc deletions: deadline and block id *)
  timers : list (N * ID);
  (* the value time.Now() reads *)
  clock : N
}.

(** The collaborators whose code lives in other packages: hashes and
    printing, the blockchain, the mempool decoder, the message sender of the
    chain service and the peer list.  [rangeOrphans] is the order in which a
    [range] over the orphan map visits its entries. *)
Record Collaborators := {
  header_ID : BlockHeader → ID;
  tx_ID : Transaction → ID;
  NewID : N → ID;
  peer_String : peerID → string;
  ErrorResponse_String : ErrorResponse → string;
  CheckConnectBlock : list Block → Block → option error;
  ConnectBlock : list Block → Block → option error;
  DecodeXthinner : XThinnerBlock → Block * list N;
  SendRequest : peerID → ∀ req : MsgChainServiceRequest, response req + error;
  Peers : list peerID;
  rangeOrphans : gmap ID orphanBlock → list (ID * orphanBlock)
}.

(** ** Field updates *)

Definition set_heap (v : list Block) (s : Server) : Server :=
  {| heap := v;
     orphanBlocks := orphanBlocks s; orphanLock := orphanLock s;
     activeInventory := activeInventory s; inventoryLock := inventoryLock s;
     inflightRequests := inflightRequests s; inflightLock := inflightLock s;
     policy := policy s; chain := chain s; trace := trace s;
     waiters := waiters s; timers := timers s; clock := clock s |}.

Definition set_orphanBlocks (v : gmap ID orphanBlock) (s : Server) : Server :=
  {| heap := heap s;
     orphanBlocks := v; orphanLock := orphanLock s;
     activeInventory := activeInventory s; inventoryLock := inventoryLock s;
     inflightRequests := inflightRequests s; inflightLock := inflightLock s;
     policy := policy s; chain := chain s; trace := trace s;
     waiters := waiters s; timers := timers s; clock := clock s |}.

Definition set_orphanLock (v : RWMutex) (s : Server) : Server :=
  {| heap := heap s;
     orphanBlocks := orphanBlocks s; orphanLock := v;
     activeInventory := activeInventory s; inventoryLock := inventoryLock s;
     inflightRequests := inflightRequests s; inflightLock := inflightLock s;
     policy := policy s; chain := chain s; trace := trace s;
     waiters := waiters s; timers := timers s; clock := clock s |}.

Definition set_activeInventory (v : gmap ID ptr) (s : Server) : Server :=
  {| heap := heap s;
     orphanBlocks := orphanBlocks s; orphanLock := orphanLock s;
     activeInventory := v; inventoryLock := inventoryLock s;
     inflightRequests := inflightRequests s; inflightLock := inflightLock s;
     policy := policy s; chain := chain s; trace := trace s;
     waiters := waiters s; timers := timers s; clock := clock s |}.

Definition set_inventoryLock (v : RWMutex) (s : Server) : Server :=
  {| heap := heap s;
     orphanBlocks := orphanBlocks s; orphanLock := orphanLock s;
     activeInventory := activeInventory s; inventoryLock := v;
     inflightRequests := inflightRequests s; inflightLock := inflightLock s;
     policy := policy s; chain := chain s; trace := trace s;
     waiters := waiters s; timers := timers s; clock := clock s |}.

Definition set_inflightRequests (v : gmap ID bool) (s : Server) : Server :=
  {| heap := heap s;
     orphanBlocks := orphanBlocks s; orphanLock := orphanLock s;
     activeInventory := activeInventory s; inventoryLock := inventoryLock s;
     inflightRequests := v; inflightLock := inflightLock s;
     policy := policy s; chain := chain s; trace := trace s;
     waiters := waiters s; timers := timers s; clock := clock s |}.

Definition set_inflightLock (v : RWMutex) (s : Server) : Server :=
  {| heap := heap s;
     orphanBlocks := orphanBlocks s; orphanLock := orphanLock s;
     activeInventory := activeInventory s; inventoryLock := inventoryLock s;
     inflightRequests := inflightRequests s; inflightLock := v;
     policy := policy s; chain := chain s; trace := trace s;
     waiters := waiters s; timers := timers s; clock := clock s |}.

Definition set_chain (v : list Block) (s : Server) : Server :=
  {| heap := heap s;
     orphanBlocks := orphanBlocks s; orphanLock := orphanLock s;
     activeInventory := activeInventory s; inventoryLock := inventoryLock s;
     inflightRequests := inflightRequests s; inflightLock := inflightLock s;
     policy := policy s; chain := v; trace := trace s;
     waiters := waiters s; timers := timers s; clock := clock s |}.

Definition set_trace (v : list event) (s : Server) : Server :=
  {| heap := heap s;
     orphanBlocks := orphanBlocks s; orphanLock := orphanLock s;
     activeInventory := activeInventory s; inventoryLock := inventoryLock s;
     inflightRequests := inflightRequests s; inflightLock := inflightLock s;
     policy := policy s; chain := chain s; trace := v;
     waiters := waiters s; timers := timers s; clock := clock s |}.

Definition set_waiters (v : list ptr) (s : Server) : Server :=
  {| heap := heap s;
     orphanBlocks := orphanBlocks s; orphanLock := orphanLock s;
     activeInventory := activeInventory s; inventoryLock := inventoryLock s;
     inflightRequests := inflightRequests s; inflightLock := inflightLock s;
     policy := policy s; chain := chain s; trace := trace s;
     waiters := v; timers := timers s; clock := clock s |}.

Definition set_timers (v : list (N * ID)) (s : Server) : Server :=
  {| heap := heap s;
     orphanBlocks := orphanBlocks s; orphanLock := orphanLock s;
     activeInventory := activeInventory s; inventoryLock := inventoryLock s;
     inflightRequests := inflightRequests s; inflightLock := inflightLock s;
     policy := policy s; chain := chain s; trace := trace s;
     waiters := waiters s; timers := v; clock := clock s |}.

(** ** The goroutine monad *)

Inductive outcome (A : Type) : Type :=
| Ret (a : A) (s : Server)   (* the call returned *)
| Panic (s : Server)         (* runtime panic *)
| Blocked (s : Server)       (* parked on a lock it will never get *)
| Diverge.                   (* recursion budget exhausted *)
Arguments Ret {A} a s.
Arguments Panic {A} s.
Arguments Blocked {A} s.
Arguments Diverge {A}.

Definition M (A : Type) : Type := Server → outcome A.

Definition ret {A} (a : A) : M A := λ s, Ret a s.

Definition bind {A B} (m : M A) (k : A → M B) : M B :=
  λ s, match m s with
       | Ret a s' => k a s'
       | Panic s' => Panic s'
       | Blocked s' => Blocked s'
       | Diverge => Diverge
       end.

Declare Scope go_scope.
Delimit Scope go_scope with go.
Notation "x <- m ;; k" := (bind m (λ x, k))
  (at level 100, m at next level, right associativity) : go_scope.
Notation "m ;;; k" := (bind m (λ _, k))
  (at level 100, right associativity) : go_scope.
Local Open Scope go_scope.

Definition panic {A} : M A := λ s, Panic s.
Definition get {A} (f : Server → A) : M A := λ s, Ret (f s) s.
Definition modify (f : Server → Server) : M unit := λ s, Ret tt (f s).
Definition emit (e : event) : M unit :=
  modify (λ s, set_trace (trace s ++ [e]) s).

(** The state an outcome ends in. *)
Definition final {A} (o : outcome A) : option Server :=
  match o with
  | Ret _ s | Panic s | Blocked s => Some s
  | Diverge => None
  end.

(** *** sync.RWMutex *)

Definition mu_Lock (m : RWMutex) : option RWMutex :=
  if writer m then None
  else match readers m with
       | O => Some {| readers := 0; writer := true |}
       | S _ => None
       end.

Definition mu_RLock (m : RWMutex) : option RWMutex :=
  if writer m then None
  else Some {| readers := S (readers m); writer := false |}.

Definition mu_Unlock (m : RWMutex) : option RWMutex :=
  if writer m then Some {| readers := readers m; writer := false |} else None.

Definition mu_RUnlock (m : RWMutex) : option RWMutex :=
  match readers m with
  | O => None
  | S n => Some {| readers := n; writer := writer m |}
  end.

(** Acquiring parks the goroutine when the lock is not available; releasing
    a lock that is not held is a fatal runtime error. *)
Definition acquire (op : RWMutex → option RWMutex)
    (rd : Server → RWMutex) (wr : RWMutex → Server → Server) : M unit :=
  λ s, match op (rd s) with
       | Some m => Ret tt (wr m s)
       | None => Blocked s
       end.

Definition release (op : RWMutex → option RWMutex)
    (rd : Server → RWMutex) (wr : RWMutex → Server → Server) : M unit :=
  λ s, match op (rd s) with
       | Some m => Ret tt (wr m s)
       | None => Panic s
       end.

Definition orphanLock_Lock := acquire mu_Lock orphanLock set_orphanLock.
Definition orphanLock_Unlock := release mu_Unlock orphanLock set_orphanLock.
Definition inventoryLock_Lock := acquire mu_Lock inventoryLock set_inventoryLock.
Definition inventoryLock_Unlock := release mu_Unlock inventoryLock set_inventoryLock.
Definition inventoryLock_RLock :=
  acquire mu_RLock inventoryLock set_inventoryLock.
Definition inventoryLock_RUnlock :=
  release mu_RUnlock inventoryLock set_inventoryLock.
Definition inflightLock_Lock := acquire mu_Lock inflightLock set_inflightLock.
Definition inflightLock_Unlock := release mu_Unlock inflightLock set_inflightLock.
Definition inflightLock_RLock := acquire mu_RLock inflightLock set_inflightLock.
Definition inflightLock_RUnlock := release mu_RUnlock inflightLock set_inflightLock.

(** *** Pointers *)

(** Reading through a pointer that may be nil. *)
Definition deref {A} (p : option A) : M A :=
  match p with
  | Some a => ret a
  | None => panic
  end.

(** The block a pointer points to.  A pointer of the program always points
    to a block of the heap; at an address that holds none the run stops as
    it does for nil. *)
Definition load (a : ptr) : M Block :=
  λ s, deref (heap s !! a) s.

(** A block that comes out of a decoder or off the wire is a new object. *)
Definition new_Block (b : Block) : M ptr :=
  λ s, Ret (length (heap s)) (set_heap (heap s ++ [b]) s).

(** [blk.Transactions[i] = tx]: the slot is written in the block itself, for
    everyone who holds the pointer; an index out of range panics. *)
Definition set_Transaction (a : ptr) (i : nat) (tx : Transaction) : M unit :=
  b <- load a ;;
  if decide (i < length (Transactions b))%nat
  then modify (λ s, set_heap
                      (<[a := {| Header := Header b;
                                 Transactions := <[i := tx]> (Transactions b) |}]>
                         (heap s)) s)
  else panic.

(** ** The pipeline *)

Section Pipeline.

Context (E : Collaborators).

(** [blk.ID()] is the hash of the header. *)
Definition Block_ID (b : Block) : ID := header_ID E (Header b).
Definition XThinnerBlock_ID (x : XThinnerBlock) : ID := header_ID E (xHeader x).

Definition IncreaseBanscore (p : peerID) (behavioral transient : N) : M unit :=
  emit (EvIncreaseBanscore p behavioral transient).

Definition call_CheckConnectBlock (b : Block) : M (option error) :=
  emit (EvCheckConnectBlock b) ;;;
  get (λ s, CheckConnectBlock E (chain s) b).

Definition call_ConnectBlock (b : Block) : M (option error) :=
  emit (EvConnectBlock b) ;;;
  err <- get (λ s, ConnectBlock E (chain s) b) ;;
  match err with
  | Some e => ret (Some e)
  | None => modify (λ s, set_chain (chain s ++ [b]) s) ;;; ret None
  end.

(** *** The chain-service client (package sync) *)

(** [fmt.Errorf("error response from peer: %s", resp.GetError().String())] *)
Definition error_response (e : ErrorResponse) : error :=
  OtherError ("error response from peer: " +:+ ErrorResponse_String E e).

(** [cs.ms.SendRequest(cs.ctx, p, req, resp)] *)
Definition call_SendRequest (p : peerID) (req : MsgChainServiceRequest)
    : M (response req + error) :=
  emit match req with
       | MsgChainServiceRequest_GetBlockTxs id indexes =>
           EvGetBlockTxs p id indexes
       | MsgChainServiceRequest_GetBlockTxids id => EvGetBlockTxids p id
       | MsgChainServiceRequest_GetBlock id => EvGetBlock p id
       end ;;;
  ret (SendRequest E p req).

(** [ChainService.GetBlockTxs]: a transport error and an error response are
    handed back; a response that does not carry one transaction per
    requested index costs the peer 50 points before the error goes back. *)
Definition GetBlockTxs (p : peerID) (blockID : ID) (txIndexes : list N)
    : M (list Transaction + error) :=
  r <- call_SendRequest p
         (MsgChainServiceRequest_GetBlockTxs blockID txIndexes) ;;
  match r with
  | inr err => ret (inr err)
  | inl resp =>
      match txs_Error resp with
      | ErrorResponse_None =>
          if decide (length (txs_Transactions resp) ≠ length txIndexes)
          then IncreaseBanscore p 50 0 ;;;
               ret (inr (OtherError ("peer " +:+ peer_String E p +:+
                                     " did not return all requested txs")))
          else ret (inl (txs_Transactions resp))
      | e => ret (inr (error_response e))
      end
  end.

(** [ChainService.GetBlockTxids] *)
Definition GetBlockTxids (p : peerID) (blockID : ID) : M (list ID + error) :=
  r <- call_SendRequest p (MsgChainServiceRequest_GetBlockTxids blockID) ;;
  match r with
  | inr err => ret (inr err)
  | inl resp =>
      match txids_Error resp with
      | ErrorResponse_None => ret (inl (NewID E <$> txids_Txids resp))
      | e => ret (inr (error_response e))
      end
  end.

(** [ChainService.GetBlock]; the block of the response is a new object. *)
Definition GetBlock (p : peerID) (blockID : ID) : M (ptr + error) :=
  r <- call_SendRequest p (MsgChainServiceRequest_GetBlock blockID) ;;
  match r with
  | inr err => ret (inr err)
  | inl resp =>
      match block_Error resp with
      | ErrorResponse_None => a <- new_Block (block_Block resp) ;; ret (inl a)
      | e => ret (inr (error_response e))
      end
  end.

(** *** The server *)

(** [for i, tx := range txs { blk.Transactions[missing[i]] = tx }] *)
Fixpoint patch_loop (i : nat) (txs : list Transaction) (missing : list N)
    (blk : ptr) : M unit :=
  match txs with
  | [] => ret tt
  | tx :: rest =>
      match missing !! i with
      | None => panic
      | Some m =>
          set_Transaction blk (N.to_nat m) tx ;;;
          patch_loop (S i) rest missing blk
      end
  end.

(** [for i, tx := range blk.Transactions {
       if tx.ID() != txids[i] { missing = append(missing, uint32(i)) } }] *)
Fixpoint missing_loop (i : nat) (txs : list Transaction) (txids : list ID)
    (missing : list N) : option (list N) :=
  match txs with
  | [] => Some missing
  | tx :: rest =>
      match txids !! i with
      | None => None
      | Some id =>
          if decide (tx_ID E tx = id)
          then missing_loop (S i) rest txids missing
          else missing_loop (S i) rest txids (missing ++ [uint32 (N.of_nat i)])
      end
  end.

(** The block is patched in place and its own pointer is returned; on an
    error the returned pointer is nil. *)
Definition fetchBlockTxids (blk : option ptr) (p : peerID)
    : M (ptr + error) :=
  a <- deref blk ;;
  b <- load a ;;
  r <- GetBlockTxids p (Block_ID b) ;;
  match r with
  | inr err => ret (inr err)
  | inl txids =>
      if decide (length txids ≠ length (Transactions b))
      then ret (inr (OtherError
                  "getblocktxids: peer returned unexpected  number of IDs"))
      else
        match missing_loop 0 (Transactions b) txids [] with
        | None => panic
        | Some missing =>
            match missing with
            | [] => ret (inr (OtherError "block invalid"))
            | _ :: _ =>
                r' <- GetBlockTxs p (Block_ID b) missing ;;
                match r' with
                | inr err => ret (inr err)
                | inl txs => patch_loop 0 txs missing a ;;; ret (inl a)
                end
            end
        end
  end.

(** The loop of [decodeXthinner] over the other peers. *)
Fixpoint decode_peers_loop (peers : list peerID) (id : ID) (missing : list N)
    (blk : ptr) : M (ptr * option error) :=
  match peers with
  | [] => ret (blk, None)
  | pid :: rest =>
      r <- GetBlockTxs pid id missing ;;
      match r with
      | inl txs => patch_loop 0 txs missing blk ;;; ret (blk, None)
      | inr _ => decode_peers_loop rest id missing blk
      end
  end.

(** The block the mempool decoder builds is a new object. *)
Definition decodeXthinner (xThinnerBlk : XThinnerBlock) (p : peerID)
    : M (ptr * option error) :=
  let '(b, missing) := DecodeXthinner E xThinnerBlk in
  blk <- new_Block b ;;
  match missing with
  | [] => ret (blk, None)
  | _ :: _ =>
      r <- GetBlockTxs p (XThinnerBlock_ID xThinnerBlk) missing ;;
      match r with
      | inl txs => patch_loop 0 txs missing blk ;;; ret (blk, None)
      | inr _ =>
          IncreaseBanscore p 34 0 ;;;
          decode_peers_loop (Peers E) (XThinnerBlock_ID xThinnerBlk) missing
            blk
      end
  end.

(** The loop of [processBlock] over the other peers after the originator
    failed.  [cur] is the inner [blk] variable, which shadows the parameter
    and holds what the last [fetchBlockTxids] returned. *)
Fixpoint repair_peers_loop (peers : list peerID) (cur : option ptr)
    (recurse : ptr → M (option error)) (otherwise : M (option error))
    : M (option error) :=
  match peers with
  | [] => otherwise
  | pid :: rest =>
      r <- fetchBlockTxids cur pid ;;
      match r with
      | inl blk' => recurse blk'
      | inr _ => repair_peers_loop rest None recurse otherwise
      end
  end.

Definition store_orphan (a : ptr) (p : peerID) : M unit :=
  orphanLock_Lock ;;;
  b <- load a ;;
  modify (λ s, set_orphanBlocks
                 (<[Block_ID b := {| blk := a; relayingPeer := p;
                                     firstSeen := clock s |}]>
                    (orphanBlocks s)) s) ;;;
  orphanLock_Unlock.

(** Lines 303-350: register the block, hand it to consensus, spawn the
    waiter. *)
Definition submit (a : ptr) : M (option error) :=
  inventoryLock_Lock ;;;
  b <- load a ;;
  modify (λ s, set_activeInventory (<[Block_ID b := a]> (activeInventory s)) s) ;;;
  inventoryLock_Unlock ;;;
  orphanLock_Lock ;;;
  modify (λ s, set_orphanBlocks (delete (Block_ID b) (orphanBlocks s)) s) ;;;
  orphanLock_Unlock ;;;
  emit (EvNewBlock (Block_ID b) true) ;;;
  modify (λ s, set_waiters (waiters s ++ [a]) s) ;;;
  ret None.

Fixpoint processBlockN (fuel : nat) (a : ptr) (p : peerID) (recheck : bool)
    : M (option error) :=
  match fuel with
  | O => λ _, Diverge
  | S fuel' =>
      b <- load a ;;
      err <- call_CheckConnectBlock b ;;
      match err with
      | Some OrphanBlockError =>
          store_orphan a p ;;; ret err
      | Some (RuleError code) =>
          if recheck then IncreaseBanscore p 34 0 ;;; ret err
          else
            match code with
            | ErrInvalidTxRoot =>
                r <- fetchBlockTxids (Some a) p ;;
                match r with
                | inr _ =>
                    IncreaseBanscore p 34 0 ;;;
                    repair_peers_loop (Peers E) None
                      (λ a', processBlockN fuel' a' p true) (ret err)
                | inl a' => processBlockN fuel' a' p true
                end
            | ErrDoesNotConnect => IncreaseBanscore p 0 10 ;;; ret err
            | ErrOtherRule _ => IncreaseBanscore p 101 0 ;;; ret err
            end
      | Some (OtherError _) => ret err
      | None => submit a
      end
  end.

(** A recheck never recurses, so two levels are all the recursion there is. *)
Definition processBlock := processBlockN 2.

Definition handleIncomingBlock (xThinnerBlk : XThinnerBlock) (p : peerID)
    : M (option error) :=
  r <- decodeXthinner xThinnerBlk p ;;
  match r with
  | (_, Some err) => ret (Some err)
  | (a, None) => processBlock a p false
  end.

(** The [range] over the orphans inside the waiter: the first entry at the
    next height is processed, then [break]. *)
Fixpoint orphans_loop (entries : list (ID * orphanBlock)) (height : N)
    : M unit :=
  match entries with
  | [] => ret tt
  | (_, orphan) :: rest =>
      b <- load (blk orphan) ;;
      if decide (Height (Header b) = uint32 (height + 1))
      then processBlock (blk orphan) (relayingPeer orphan) false ;;; ret tt
      else orphans_loop rest height
  end.

(** Lines 333-345: the block leaves [activeInventory] and one orphan at the
    next height is re-entered, under the orphan lock. *)
Definition waiter_cleanup (b : Block) : M unit :=
  inventoryLock_Lock ;;;
  modify (λ s, set_activeInventory (delete (Block_ID b) (activeInventory s)) s) ;;;
  inventoryLock_Unlock ;;;
  orphanLock_Lock ;;;
  entries <- get (λ s, rangeOrphans E (orphanBlocks s)) ;;
  orphans_loop entries (Height (Header b)) ;;;
  orphanLock_Unlock.

(** The goroutine spawned by [processBlock], from the moment [callback]
    delivers [status]. *)
Definition waiter (a : ptr) (status : Status) : M unit :=
  b <- load a ;;
  match status with
  | StatusFinalized => call_ConnectBlock b ;;; ret tt
  | StatusRejected => ret tt
  end ;;;
  waiter_cleanup b.

(** Five minutes, in nanoseconds. *)
Definition inflightTTL : N := 5 * 60 * 1000000000.

(** The function handed to [time.AfterFunc]. *)
Definition expire_inflight (blockID : ID) : M unit :=
  inflightLock_Lock ;;;
  modify (λ s, set_inflightRequests (delete blockID (inflightRequests s)) s) ;;;
  inflightLock_Unlock.

Definition requestBlock (blockID : ID) (remotePeer : peerID) : M unit :=
  inflightLock_RLock ;;;
  known <- get (λ s, inflightRequests s !! blockID) ;;
  match known with
  | Some _ => inflightLock_RUnlock ;;; ret tt
  | None =>
      inflightLock_RLock ;;;
      inflightLock_Lock ;;;
      modify (λ s, set_inflightRequests (<[blockID := true]> (inflightRequests s)) s) ;;;
      inflightLock_Unlock ;;;
      r <- GetBlock remotePeer blockID ;;
      match r with
      | inr _ => expire_inflight blockID
      | inl a =>
          processBlock a remotePeer false ;;;
          modify (λ s, set_timers (timers s ++ [(clock s + inflightTTL, blockID)]) s)
      end
  end.

End Pipeline.

(** ** fetchBlock *)

Section FetchBlock.

(** [s.blockchain.GetBlockByID], which reads the connected chain. *)
Context (GetBlockByID : list Block → ID → Block + error).

(** The block fetcher handed to the chain service: the read lock is taken,
    the answer is worked out, and the deferred [RUnlock] runs before the
    answer goes back.  A block in [activeInventory] is answered with the
    pointer the map holds, a block of the chain is a new object. *)
Definition fetchBlock (blockID : ID) : M (ptr + error) :=
  inventoryLock_RLock ;;;
  r <- (known <- get (λ s, activeInventory s !! blockID) ;;
        match known with
        | Some a => ret (inl a)
        | None =>
            r <- get (λ s, GetBlockByID (chain s) blockID) ;;
            match r with
            | inl b => a <- new_Block b ;; ret (inl a)
            | inr err => ret (inr err)
            end
        end) ;;
  inventoryLock_RUnlock ;;;
  ret r.

End FetchBlock.

(** ** The constructor *)

(** [repo.Config], the fields [BuildServer] branches on or copies into the
    policy. *)
Record Config := {
  LogDir : string;
  LogLevel : string;
  Testnet : bool;
  Regest : bool;
  DataDir : string;
  cfg_MinFeePerByte : N;
  cfg_MinStake : N;
  cfg_BlocksizeSoftLimit : N;
  cfg_MaxMessageSize : N;
  cfg_TreasuryWhitelist : list string;
  DropTxIndex : bool;
  NoTxIndex : bool;
  DisableNATPortMap : bool
}.

(** What the packages called during start-up answer. *)
Record Startup := {
  setupLogging : string → string → bool → option error;
  NewIDFromString : string → ID + error;
  NewDatastore : string → option error;
  HasNetworkKey : bool + error;
  LoadNetworkKey : option error;
  GenerateNetworkKeypair : option error;
  PutNetworkKey : option error;
  indexers_DropTxIndex : option error;
  NewBlockchain : list Block + error;
  NewMempool : option error;
  NewNetwork : option error;
  NewConsensusEngine : option error;
  startTime : N
}.

Inductive built (A : Type) : Type :=
| Built (a : A)
| BuildError (e : error)
| BuildPanic.
Arguments Built {A} a.
Arguments BuildError {A} e.
Arguments BuildPanic {A}.

Definition andThen {A B} (r : built A) (k : A → built B) : built B :=
  match r with
  | Built a => k a
  | BuildError e => BuildError e
  | BuildPanic => BuildPanic
  end.

Definition attempt (r : option error) : built unit :=
  match r with
  | Some e => BuildError e
  | None => Built tt
  end.

Definition attempt_val {A} (r : A + error) : built A :=
  match r with
  | inl a => Built a
  | inr e => BuildError e
  end.

Section Constructor.

Context (St : Startup).

(** [for _, id := range config.TreasuryWhitelist { ...
       s.policy.TreasuryWhitelist = append(s.policy.TreasuryWhitelist, w) }]
    where [s_policy] is the field [s.policy] of the server under
    construction. *)
Fixpoint whitelist_loop (ids : list string) (s_policy : option Policy)
    : built (option Policy) :=
  match ids with
  | [] => Built s_policy
  | id :: rest =>
      andThen (attempt_val (NewIDFromString St id)) (λ w,
        match s_policy with
        | None => BuildPanic
        | Some pol =>
            whitelist_loop rest
              (Some {| MinFeePerByte := MinFeePerByte pol;
                       MinStake := MinStake pol;
                       BlocksizeSoftLimit := BlocksizeSoftLimit pol;
                       MaxMessageSize := MaxMessageSize pol;
                       TreasuryWhitelist := TreasuryWhitelist pol ++ [w] |})
        end)
  end.

Definition network_key : built unit :=
  andThen (attempt_val (HasNetworkKey St)) (λ has,
    if has : bool then attempt (LoadNetworkKey St)
    else andThen (attempt (GenerateNetworkKeypair St)) (λ _,
           attempt (PutNetworkKey St))).

Definition BuildServer (config : Config) : built Server :=
  (* s := Server{}: every field is its zero value, s.policy is nil *)
  let s_policy : option Policy := None in
  andThen (attempt (setupLogging St (LogDir config) (LogLevel config)
                  (Testnet config))) (λ _,
  let policy := {| MinFeePerByte := cfg_MinFeePerByte config;
                   MinStake := cfg_MinStake config;
                   BlocksizeSoftLimit := cfg_BlocksizeSoftLimit config;
                   MaxMessageSize := cfg_MaxMessageSize config;
                   TreasuryWhitelist := [] |} in
  andThen (whitelist_loop (cfg_TreasuryWhitelist config) s_policy) (λ _,
  andThen (attempt (NewDatastore St (DataDir config))) (λ _,
  andThen network_key (λ _,
  andThen (if DropTxIndex config then attempt (indexers_DropTxIndex St)
           else Built tt) (λ _,
  andThen (attempt_val (NewBlockchain St)) (λ connected,
  andThen (attempt (NewMempool St)) (λ _,
  andThen (attempt (NewNetwork St)) (λ _,
  andThen (attempt (NewConsensusEngine St)) (λ _,
  Built {| heap := [];
           orphanBlocks := ∅; orphanLock := unlocked;
           activeInventory := ∅; inventoryLock := unlocked;
           inflightRequests := ∅; inflightLock := unlocked;
           policy := Some policy; chain := connected; trace := [];
           waiters := []; timers := []; clock := startTime St |}))))))))).

End Constructor.

(** ** Observations on traces *)

Definition behavioral_delta (p : peerID) (e : event) : N :=
  match e with
  | EvIncreaseBanscore q behavioral _ =>
      if decide (q = p) then behavioral else 0
  | _ => 0
  end.

(** The behavioral ban score a trace adds up for a peer. *)
Definition banscore (p : peerID) (tr : list event) : N :=
  foldr (λ e acc, behavioral_delta p e + acc) 0 tr.



Definition add_events (evs : list event) (s : Server) : Server :=
  set_trace (trace s ++ evs) s.

Definition transient_delta (p : peerID) (e : event) : N :=
  match e with
  | EvIncreaseBanscore q _ transient => if decide (q = p) then transient else 0
  | _ => 0
  end.

(** The transient ban score a trace adds up for a peer. *)
Definition transient_score (p : peerID) (tr : list event) : N :=
  foldr (λ e acc, transient_delta p e + acc) 0 tr.

(** ** What the chain-service client hands back *)

(** The peer answered a [GetBlockTxs] request without an error, but not with
    one transaction per requested index: the case in which the client
    charges it 50 points. *)
Definition incomplete (E : Collaborators) (p : peerID) (id : ID)
    (indexes : list N) : bool :=
  match SendRequest E p (MsgChainServiceRequest_GetBlockTxs id indexes) with
  | inl resp =>
      match txs_Error resp with
      | ErrorResponse_None =>
          bool_decide (length (txs_Transactions resp) ≠ length indexes)
      | _ => false
      end
  | inr _ => false
  end.

(** The value [GetBlockTxs] returns. *)
Definition GetBlockTxs_answer (E : Collaborators) (p : peerID) (id : ID)
    (indexes : list N) : list Transaction + error :=
  match SendRequest E p (MsgChainServiceRequest_GetBlockTxs id indexes) with
  | inl resp =>
      match txs_Error resp with
      | ErrorResponse_None =>
          if decide (length (txs_Transactions resp) ≠ length indexes)
          then inr (OtherError ("peer " +:+ peer_String E p +:+
                                " did not return all requested txs"))
          else inl (txs_Transactions resp)
      | e => inr (error_response E e)
      end
  | inr err => inr err
  end.

(** The calls one [GetBlockTxs] makes: the request, and the charge when the
    answer is incomplete. *)
Definition GetBlockTxs_calls (E : Collaborators) (p : peerID) (id : ID)
    (indexes : list N) : list event :=
  EvGetBlockTxs p id indexes
  :: if incomplete E p id indexes then [EvIncreaseBanscore p 50 0] else [].

(** The value [GetBlockTxids] returns. *)
Definition GetBlockTxids_answer (E : Collaborators) (p : peerID) (id : ID)
    : list ID + error :=
  match SendRequest E p (MsgChainServiceRequest_GetBlockTxids id) with
  | inl resp =>
      match txids_Error resp with
      | ErrorResponse_None => inl (NewID E <$> txids_Txids resp)
      | e => inr (error_response E e)
      end
  | inr err => inr err
  end.

(** ** Contracts of the collaborators *)


(** The map iteration visits exactly the entries of the map, in some order. *)
Definition rangeOrphans_visits_entries (E : Collaborators) : Prop :=
  ∀ m id o, (id, o) ∈ rangeOrphans E m ↔ m !! id = Some o.

(** A response to [GetBlockTxs] that supplies, for each requested index, a
    transaction with the id the txid list has at that index. *)
Definition supplies_listed (E : Collaborators) (txids : list ID)
    (indexes : list N) (txs : list Transaction) : Prop :=
  Forall2 (λ m tx, txids !! N.to_nat m = Some (tx_ID E tx)) indexes txs.

(** Slot [j] of a transaction list carries the id the txid list has at
    [j]. *)
Definition listed (E : Collaborators) (txids : list ID)
    (cur : list Transaction) (j : nat) : Prop :=
  tx_ID E <$> cur !! j = txids !! j.

(** ** States *)

(** Every stored orphan points to a block, as every pointer of the program
    does. *)
Definition orphans_allocated (s : Server) : Prop :=
  ∀ id o, orphanBlocks s !! id = Some o → is_Some (heap s !! blk o).

(** The state the waiter of block [b] has reached when it enters the loop
    over the orphans: the block is connected if it was finalized and
    [ConnectBlock] accepted it, it is gone from [activeInventory], and the
    orphan lock is held. *)
Definition resolved (E : Collaborators) (b : Block) (status : Status)
    (s : Server) : Server :=
  let s1 :=
    match status with
    | StatusFinalized =>
        let s0 := add_events [EvConnectBlock b] s in
        match ConnectBlock E (chain s) b with
        | Some _ => s0
        | None => set_chain (chain s ++ [b]) s0
        end
    | StatusRejected => s
    end in
  set_orphanLock {| readers := 0; writer := true |}
    (set_activeInventory (delete (Block_ID E b) (activeInventory s1)) s1).

(** The state [processBlock] leaves behind when the block [b] at address [a]
    passed [CheckConnectBlock] and both locks were free. *)
Definition accepted (E : Collaborators) (a : ptr) (b : Block) (s : Server)
    : Server :=
  let id := Block_ID E b in
  set_waiters (waiters s ++ [a])
    (add_events [EvCheckConnectBlock b; EvNewBlock id true]
       (set_orphanBlocks (delete id (orphanBlocks s))
          (set_activeInventory (<[id := a]> (activeInventory s)) s))).

(** The state [processBlock] is parked in when the block passed
    [CheckConnectBlock] while the orphan lock was not to be had. *)
Definition registered (E : Collaborators) (a : ptr) (b : Block) (s : Server)
    : Server :=
  add_events [EvCheckConnectBlock b]
    (set_activeInventory (<[Block_ID E b := a]> (activeInventory s)) s).

(** ** Patched blocks *)

(** The slice the patch loop leaves behind when it starts at position [i]
    of [txs]; [None] when it runs out of range. *)
Fixpoint patched_slice (i : nat) (txs : list Transaction) (missing : list N)
    (cur : list Transaction) : option (list Transaction) :=
  match txs with
  | [] => Some cur
  | tx :: rest =>
      match missing !! i with
      | None => None
      | Some m =>
          if decide (N.to_nat m < length cur)%nat
          then patched_slice (S i) rest missing (<[N.to_nat m := tx]> cur)
          else None
      end
  end.

(** [b'] is [b] with the transactions [txs] written at the slots
    [missing] names, one after the other: the header and the number of
    transactions are those of [b], slot [missing[k]] holds [txs[k]], and a
    slot that no supplied transaction was requested for is as in [b]. *)
Definition patched (b : Block) (missing : list N) (txs : list Transaction)
    (b' : Block) : Prop :=
  Header b' = Header b
  ∧ length (Transactions b') = length (Transactions b)
  ∧ (∀ k m tx, missing !! k = Some m → txs !! k = Some tx →
               Transactions b' !! N.to_nat m = Some tx)
  ∧ (∀ j, (∀ k m, (k < length txs)%nat → missing !! k = Some m →
                  N.to_nat m ≠ j) →
          Transactions b' !! j = Transactions b !! j).

(** Two blocks with the same header and the same number of transactions. *)
Definition same_shape (b b' : Block) : Prop :=
  Header b' = Header b ∧ length (Transactions b') = length (Transactions b).

(** The heap [h'] is [h] but for the transactions of the block at [a]:
    nothing was allocated, every other block is as it was, and the block at
    [a] has kept its header and its number of transactions. *)
Definition rewrites_only (a : ptr) (h h' : list Block) : Prop :=
  length h' = length h
  ∧ (∀ a', a' ≠ a → h' !! a' = h !! a')
  ∧ (∀ b, h !! a = Some b → ∃ b', h' !! a = Some b' ∧ same_shape b b').

(** The indices, as [uint32], at which the ids of the transactions differ
    from the listed ids, in increasing order. *)
Definition mismatches (E : Collaborators) (txs : list Transaction)
    (txids : list ID) : list N :=
  (λ i, uint32 (N.of_nat i))
    <$> filter (λ i, tx_ID E <$> txs !! i ≠ txids !! i) (seq 0 (length txs)).

(** *** fetchBlockTxids as a function of the answers *)

(** The calls [fetchBlockTxids] makes when it asks peer [p] about the block
    [b]: the request for the txid list and, when the list has the length of
    the block and differs from it somewhere, the calls of [GetBlockTxs] for
    the indices that differ. *)
Definition fetchBlockTxids_calls (E : Collaborators) (p : peerID) (b : Block)
    : list event :=
  EvGetBlockTxids p (Block_ID E b)
  :: match GetBlockTxids_answer E p (Block_ID E b) with
     | inr _ => []
     | inl txids =>
         if decide (length txids ≠ length (Transactions b)) then []
         else match mismatches E (Transactions b) txids with
              | [] => []
              | (_ :: _) as missing =>
                  GetBlockTxs_calls E p (Block_ID E b) missing
              end
     end.

(** The block [fetchBlockTxids] leaves at the address it was given, or the
    error it returns. *)
Definition fetchBlockTxids_answer (E : Collaborators) (p : peerID) (b : Block)
    : Block + error :=
  match GetBlockTxids_answer E p (Block_ID E b) with
  | inr err => inr err
  | inl txids =>
      if decide (length txids ≠ length (Transactions b))
      then inr (OtherError
             "getblocktxids: peer returned unexpected  number of IDs")
      else match mismatches E (Transactions b) txids with
           | [] => inr (OtherError "block invalid")
           | (_ :: _) as missing =>
               match GetBlockTxs_answer E p (Block_ID E b) missing with
               | inr err => inr err
               | inl txs =>
                   inl {| Header := Header b;
                          Transactions :=
                            default (Transactions b)
                              (patched_slice 0 txs missing (Transactions b)) |}
               end
           end
  end.

(** The relaying peer listed as many txids as the block has transactions,
    some of them differ, and its answer to the request for the transactions
    that differ was incomplete: the case in which [fetchBlockTxids] fails
    after the client has charged the peer 50 points. *)
Definition short_repair (E : Collaborators) (p : peerID) (b : Block) : Prop :=
  ∃ txids, GetBlockTxids_answer E p (Block_ID E b) = inl txids
           ∧ length txids = length (Transactions b)
           ∧ mismatches E (Transactions b) txids ≠ []
           ∧ incomplete E p (Block_ID E b)
               (mismatches E (Transactions b) txids) = true.

(** ** What a call may change *)

(** [m] relates the state it starts in to every state it can end in,
    whether it returns, panics or parks. *)
Definition keeps {A} (R : Server → Server → Prop) (m : M A) : Prop :=
  ∀ s s', final (m s) = Some s' → R s s'.

Definition same_chain (s s' : Server) : Prop := chain s' = chain s.

(** A request to the chain service for transactions or their ids. *)
Definition is_rpc (e : event) : Prop :=
  match e with
  | EvGetBlockTxs _ _ _ | EvGetBlockTxids _ _ => True
  | _ => False
  end.

(** The calls [fetchBlockTxids] makes when it asks peer [p]: its requests,
    and the 50 points the client charges [p] for an incomplete answer. *)
Definition fetchBlockTxids_call (p : peerID) (e : event) : Prop :=
  is_rpc e ∨ e = EvIncreaseBanscore p 50 0.

(** The calls [processBlock] with relaying peer [p] makes: it checks blocks,
    asks for transactions, charges [p] and tells consensus; it neither
    connects nor fetches a block. *)
Definition processBlock_call (p : peerID) (e : event) : Prop :=
  match e with
  | EvIncreaseBanscore q _ _ => q = p
  | EvConnectBlock _ | EvGetBlock _ _ => False
  | _ => True
  end.

(** The calls [decodeXthinner] makes for an announcement of peer [p]: its
    requests, the 34 points it charges [p], and the 50 points the client
    charges whoever answers incompletely. *)
Definition decodeXthinner_call (p : peerID) (e : event) : Prop :=
  is_rpc e ∨ e = EvIncreaseBanscore p 34 0 ∨ ∃ q, e = EvIncreaseBanscore q 50 0.

(** What asking peer [p] to repair the block at [a] may do to the server:
    the trace grows by the calls of [fetchBlockTxids], the transactions of
    the block at [a] may be rewritten, and nothing else changes. *)
Definition repair_only (a : ptr) (p : peerID) (s s' : Server) : Prop :=
  ∃ evs h, s' = add_events evs (set_heap h s)
           ∧ Forall (fetchBlockTxids_call p) evs
           ∧ rewrites_only a (heap s) h.

(** What [processBlock] for the block at [a] with relaying peer [p] may have
    done before it touches a map: calls of its own, and rewritten
    transactions of the block at [a]. *)
Definition calls_only (a : ptr) (p : peerID) (s s' : Server) : Prop :=
  ∃ evs h, s' = add_events evs (set_heap h s)
           ∧ Forall (processBlock_call p) evs
           ∧ rewrites_only a (heap s) h.

(** What [processBlock] for the block at [a] with relaying peer [p] may do
    to the server: it leaves the chain, the inflight set and the timers
    alone, charges nobody but [p], rewrites no block but the one at [a],
    registers only blocks that passed [CheckConnectBlock], stores only
    orphans that [CheckConnectBlock] classified as such, and forgets no
    block id. *)
Record processBlock_effect (E : Collaborators) (a : ptr) (p : peerID)
    (s s' : Server) : Prop := {
  pe_chain : chain s' = chain s;
  pe_inflightRequests : inflightRequests s' = inflightRequests s;
  pe_inflightLock : inflightLock s' = inflightLock s;
  pe_timers : timers s' = timers s;
  pe_policy : policy s' = policy s;
  pe_clock : clock s' = clock s;
  pe_trace :
    ∃ evs, trace s' = trace s ++ evs ∧ Forall (processBlock_call p) evs;
  pe_heap : rewrites_only a (heap s) (heap s');
  pe_activeInventory :
    ∀ id a0, activeInventory s' !! id = Some a0 →
             activeInventory s !! id = Some a0
             ∨ (a0 = a
                ∧ ∃ b0, heap s' !! a0 = Some b0
                        ∧ CheckConnectBlock E (chain s) b0 = None
                        ∧ id = Block_ID E b0);
  pe_orphanBlocks :
    ∀ id o, orphanBlocks s' !! id = Some o →
            orphanBlocks s !! id = Some o
            ∨ (blk o = a ∧ relayingPeer o = p ∧ firstSeen o = clock s
               ∧ ∃ b0, heap s' !! a = Some b0
                       ∧ CheckConnectBlock E (chain s) b0
                         = Some OrphanBlockError
                       ∧ id = Block_ID E b0);
  pe_inventory_kept :
    ∀ id, is_Some (activeInventory s !! id) →
          is_Some (activeInventory s' !! id);
  pe_orphans_kept :
    ∀ id, is_Some (orphanBlocks s !! id) →
          is_Some (orphanBlocks s' !! id) ∨ is_Some (activeInventory s' !! id)
}.

(** Nothing changed but the heap, which grew by one block, and the trace,
    which grew by calls [decodeXthinner] makes for peer [p]. *)
Definition decode_only (p : peerID) (s s' : Server) : Prop :=
  ∃ evs b, s' = add_events evs (set_heap (heap s ++ [b]) s)
           ∧ Forall (decodeXthinner_call p) evs.

(** ** Lock discipline *)

Definition locks_free (s : Server) : Prop :=
  inventoryLock s = unlocked ∧ orphanLock s = unlocked.

(** The call came back (it returned or panicked, it did not park) and left
    both locks free. *)
Definition ends_free {A} (o : outcome A) : Prop :=
  match o with
  | Ret _ s' | Panic s' => locks_free s'
  | Blocked _ | Diverge => False
  end.

Definition lock_safe {A} (m : M A) : Prop :=
  ∀ s, locks_free s → ends_free (m s).

(** ** The peers [decodeXthinner] asks *)

(** The peers of the list that are asked: all up to and including the first
    that supplies the transactions. *)
Fixpoint asked (E : Collaborators) (id : ID) (missing : list N)
    (peers : list peerID) : list peerID :=
  match peers with
  | [] => []
  | q :: rest =>
      match GetBlockTxs_answer E q id missing with
      | inl _ => [q]
      | inr _ => q :: asked E id missing rest
      end
  end.

(** How many of the requests to the peers [qs] were sent to [q] and came
    back incomplete. *)
Definition incomplete_answers (E : Collaborators) (id : ID)
    (missing : list N) (q : peerID) (qs : list peerID) : nat :=
  length (filter (λ q', q' = q ∧ incomplete E q' id missing = true) qs).

(** The transactions of the first peer of the list that supplies them. *)
Fixpoint supplier (E : Collaborators) (id : ID) (missing : list N)
    (peers : list peerID) : option (list Transaction) :=
  match peers with
  | [] => None
  | q :: rest =>
      match GetBlockTxs_answer E q id missing with
      | inl txs => Some txs
      | inr _ => supplier E id missing rest
      end
  end.

(** The calls of asking the peers [qs] one after the other. *)
Definition requests (E : Collaborators) (id : ID) (missing : list N)
    (qs : list peerID) : list event :=
  qs ≫= λ q, GetBlockTxs_calls E q id missing.

(** The connected peers [decodeXthinner] turns to: none when nothing is
    missing or the announcing peer supplied the transactions. *)
Definition helpers_asked (E : Collaborators) (xThinnerBlk : XThinnerBlock)
    (p : peerID) : list peerID :=
  let id := XThinnerBlock_ID E xThinnerBlk in
  let missing := (DecodeXthinner E xThinnerBlk).2 in
  match missing with
  | [] => []
  | _ :: _ =>
      match GetBlockTxs_answer E p id missing with
      | inl _ => []
      | inr _ => asked E id missing (Peers E)
      end
  end.

(** ** Concrete scenarios *)

Module Scenario.

Definition header (height tag : N) : BlockHeader :=
  {| Version := 1; Height := height; Parent := 0; Timestamp := 0;
     TxRoot := tag; Producer_ID := 0; Signature := 0 |}.

(** A toy header hash, injective on the headers used below. *)
Definition hash_header (h : BlockHeader) : ID := 1000 * Height h + TxRoot h.

Definition tx (n : N) : Transaction := {| tx_bytes := n |}.

Definition block (height tag : N) (txs : list N) : Block :=
  {| Header := header height tag; Transactions := tx <$> txs |}.

Definition fresh : Server :=
  {| heap := [];
     orphanBlocks := ∅; orphanLock := unlocked;
     activeInventory := ∅; inventoryLock := unlocked;
     inflightRequests := ∅; inflightLock := unlocked;
     policy := None; chain := []; trace := []; waiters := [];
     timers := []; clock := 0 |}.

(** A server that has just received the given blocks: they are on the heap
    and in no map yet. *)
Definition holding (blocks : list Block) : Server := set_heap blocks fresh.

Definition unreachable_peer : error := OtherError "stream reset".

(** Answers of a peer's chain service. *)
Definition supply (txs : list Transaction) : MsgBlockTxsResp + error :=
  inl {| txs_Error := ErrorResponse_None; txs_Transactions := txs |}.
Definition list_ids (ids : list N) : MsgBlockTxidsResp + error :=
  inl {| txids_Error := ErrorResponse_None; txids_Txids := ids |}.
Definition not_found : MsgBlockTxsResp + error :=
  inl {| txs_Error := ErrorResponse_NotFound; txs_Transactions := [] |}.

(** A message sender put together from what the peers answer to the three
    kinds of request. *)
Definition sender (txs : peerID → ID → list N → MsgBlockTxsResp + error)
    (txids : peerID → ID → MsgBlockTxidsResp + error)
    (blocks : peerID → ID → MsgBlockResp + error)
    (p : peerID) (req : MsgChainServiceRequest) : response req + error :=
  match req as r return response r + error with
  | MsgChainServiceRequest_GetBlockTxs id indexes => txs p id indexes
  | MsgChainServiceRequest_GetBlockTxids id => txids p id
  | MsgChainServiceRequest_GetBlock id => blocks p id
  end.

Definition show_error (e : ErrorResponse) : string :=
  match e with
  | ErrorResponse_None => "None"
  | ErrorResponse_NotFound => "NotFound"
  | ErrorResponse_BadRequest => "BadRequest"
  end.

(** A node with the given chain view, chain service and peers. *)
Definition node (check : list Block → Block → option error)
    (decode : XThinnerBlock → Block * list N)
    (txs : peerID → ID → list N → MsgBlockTxsResp + error)
    (txids : peerID → ID → MsgBlockTxidsResp + error)
    (peers : list peerID) : Collaborators :=
  {| header_ID := hash_header; tx_ID := tx_bytes; NewID := λ n, n;
     peer_String := λ _, "12D3KooW"; ErrorResponse_String := show_error;
     CheckConnectBlock := check; ConnectBlock := λ _ _, None;
     DecodeXthinner := decode;
     SendRequest := sender txs txids (λ _ _, inr unreachable_peer);
     Peers := peers; rangeOrphans := map_to_list |}.

Definition no_decode (x : XThinnerBlock) : Block * list N :=
  ({| Header := xHeader x; Transactions := [] |}, []).
Definition no_txs (p : peerID) (id : ID) (idx : list N)
    : MsgBlockTxsResp + error := inr unreachable_peer.
Definition no_txids (p : peerID) (id : ID) : MsgBlockTxidsResp + error :=
  inr unreachable_peer.

(** C1: a node on which every block passes [CheckConnectBlock]. *)
Definition accepting : Collaborators :=
  node (λ _ _, None) no_decode no_txs no_txids [].
Definition blockA : Block := block 1 7 [10; 11].

(** C7: a node on which every block breaks a rule. *)
Definition rejecting : Collaborators :=
  node (λ _ _, Some (RuleError (ErrOtherRule 3))) no_decode no_txs no_txids [].

(** C3: the mempool misses slot 0 of an announced block and no peer
    answers [GetBlockTxs]. *)
Definition announced : XThinnerBlock :=
  {| xHeader := header 1 7; xTxCount := 2; xEncoding := 0 |}.
Definition decode_missing_first (x : XThinnerBlock) : Block * list N :=
  ({| Header := xHeader x; Transactions := [tx 0; tx 11] |}, [0]).

(** C3: the announcing peer 7 and peer 8 answer the request with an empty
    list, peer 9 does not answer; peer 7 is itself one of the connected
    peers. *)
Definition empty_from_7_8 (p : peerID) (id : ID) (idx : list N)
    : MsgBlockTxsResp + error :=
  if decide (p = 9) then inr unreachable_peer else supply [].
Definition stingy : Collaborators :=
  node (λ _ _, None) decode_missing_first empty_from_7_8 no_txids [7; 8; 9].


(** C4: every check reports a bad transaction root, the relaying peer 7 does
    not answer [GetBlockTxids], peer 8 would supply the txid list and the
    transaction that differs. *)
Definition txids_from_8 (p : peerID) (id : ID) : MsgBlockTxidsResp + error :=
  if decide (p = 8) then list_ids [10; 12] else inr unreachable_peer.
Definition tx12_from_8 (p : peerID) (id : ID) (idx : list N)
    : MsgBlockTxsResp + error :=
  if decide (p = 8) then supply ((λ _, tx 12) <$> idx)
  else inr unreachable_peer.
Definition bad_root : Collaborators :=
  node (λ _ _, Some (RuleError ErrInvalidTxRoot)) no_decode tx12_from_8
    txids_from_8 [8].

(** C2 and C6: a parent at height 1 waits for consensus while an orphan at
    height 2, relayed by peer 9, is stored.  The parent is at address 0, the
    orphan at address 1. *)
Definition parent : Block := block 1 7 [10].
Definition rival : Block := block 1 8 [20].
Definition orphan : Block := block 2 5 [30].
Definition orphan_entry : orphanBlock :=
  {| blk := 1%nat; relayingPeer := 9; firstSeen := 0 |}.

Definition waiting (connected : list Block) : Server :=
  {| heap := [parent; orphan];
     orphanBlocks := {[ 2005 := orphan_entry ]}; orphanLock := unlocked;
     activeInventory := {[ 1007 := 0%nat ]}; inventoryLock := unlocked;
     inflightRequests := ∅; inflightLock := unlocked;
     policy := None; chain := connected; trace := []; waiters := [];
     timers := []; clock := 0 |}.

(** A chain view that accepts the block right above the tip, stores blocks
    further up as orphans and refuses the rest. *)
Definition check_by_height (connected : list Block) (b : Block)
    : option error :=
  if decide (Height (Header b) = N.of_nat (length connected) + 1) then None
  else if decide (N.of_nat (length connected) + 1 < Height (Header b))
       then Some OrphanBlockError
       else Some (RuleError ErrDoesNotConnect).

(** The rival was connected, so the orphan on top of the rejected parent no
    longer connects. *)
Definition check_after_rival (connected : list Block) (b : Block)
    : option error :=
  if decide (Height (Header b) = 2) then Some (RuleError ErrDoesNotConnect)
  else check_by_height connected b.

Definition by_height : Collaborators :=
  node check_by_height no_decode no_txs no_txids [].
Definition after_rival : Collaborators :=
  node check_after_rival no_decode no_txs no_txids [].

(** C8: peer 7 lists the txids 10 and 12 for [blockA], whose second
    transaction has id 11, and then supplies a transaction with id 13 for
    index 1. *)
Definition txids_10_12 (p : peerID) (id : ID) : MsgBlockTxidsResp + error :=
  list_ids [10; 12].
Definition always_tx13 (p : peerID) (id : ID) (idx : list N)
    : MsgBlockTxsResp + error :=
  supply ((λ _, tx 13) <$> idx).
Definition forging : Collaborators :=
  node (λ _ _, Some (RuleError ErrInvalidTxRoot)) no_decode always_tx13
    txids_10_12 [].

(** The same list served by a peer that supplies the listed transactions and
    answers BadRequest for an index out of range. *)
Definition listed_tx (m : N) : option Transaction :=
  tx <$> ([10; 12] : list N) !! N.to_nat m.
Definition listed_txs (p : peerID) (id : ID) (idx : list N)
    : MsgBlockTxsResp + error :=
  match mapM listed_tx idx with
  | Some txs => supply txs
  | None => inl {| txs_Error := ErrorResponse_BadRequest;
                   txs_Transactions := [] |}
  end.
Definition honest : Collaborators :=
  node (λ _ _, Some (RuleError ErrInvalidTxRoot)) no_decode listed_txs
    txids_10_12 [].

(** C10: a start-up environment in which only well-formed hex parses. *)
Definition startup : Startup :=
  {| setupLogging := λ _ _ _, None;
     NewIDFromString := λ id, if decide (id = "00ff"%string) then inl 255
                              else inr (OtherError "invalid hex");
     NewDatastore := λ _, None;
     HasNetworkKey := inl true; LoadNetworkKey := None;
     GenerateNetworkKeypair := None; PutNetworkKey := None;
     indexers_DropTxIndex := None; NewBlockchain := inl [];
     NewMempool := None; NewNetwork := None; NewConsensusEngine := None;
     startTime := 0 |}.

Definition config (whitelist : list string) : Config :=
  {| LogDir := "log"; LogLevel := "info"; Testnet := false; Regest := true;
     DataDir := "data"; cfg_MinFeePerByte := 10; cfg_MinStake := 1000;
     cfg_BlocksizeSoftLimit := 1000000; cfg_MaxMessageSize := 4000000;
     cfg_TreasuryWhitelist := whitelist;
     DropTxIndex := false; NoTxIndex := false; DisableNATPortMap := false |}.

End Scenario.

(** ** More scenarios *)

Module Cases.

Import Scenario.

(** A chain view that accepts exactly the blocks whose transactions carry
    the ids 10 and 12 and reports a bad transaction root for the rest; the
    chain service lists those ids and supplies the listed transactions. *)
Definition check_root (connected : list Block) (b : Block) : option error :=
  if decide (tx_bytes <$> Transactions b = [10; 12]) then None
  else Some (RuleError ErrInvalidTxRoot).
Definition repairable : Collaborators :=
  node check_root no_decode listed_txs txids_10_12 [].

(** The same chain service in front of a chain view that never accepts. *)
Definition unrepairable : Collaborators :=
  node (λ _ _, Some (RuleError ErrInvalidTxRoot)) no_decode listed_txs
    txids_10_12 [].

(** The same chain service in front of a chain view for which the repaired
    block is an orphan. *)
Definition check_root_orphan (connected : list Block) (b : Block)
    : option error :=
  if decide (tx_bytes <$> Transactions b = [10; 12])
  then Some OrphanBlockError
  else Some (RuleError ErrInvalidTxRoot).
Definition repaired_orphan : Collaborators :=
  node check_root_orphan no_decode listed_txs txids_10_12 [].

(** Peer 7 lists the ids 10 and 12 and then answers the request for the
    transaction that differs with an empty list. *)
Definition short_answer : Collaborators :=
  node (λ _ _, Some (RuleError ErrInvalidTxRoot)) no_decode (λ _ _ _, supply [])
    txids_10_12 [].

Definition racing : Collaborators :=
  node (λ _ _, Some (RuleError ErrDoesNotConnect)) no_decode no_txs no_txids [].

Definition failing_store : Collaborators :=
  node (λ _ _, Some (OtherError "datastore closed")) no_decode no_txs
    no_txids [].

End Cases.

Module Decoding.

Import Scenario.

(** The mempool misses slots 0 and 2 of a block of three; peer 7 announced
    it and does not answer, peer 8 does not answer either, peer 9 supplies
    the two transactions, peer 10 would as well. *)
Definition announced3 : XThinnerBlock :=
  {| xHeader := header 1 7; xTxCount := 3; xEncoding := 0 |}.
Definition decode_missing_0_2 (x : XThinnerBlock) : Block * list N :=
  ({| Header := xHeader x; Transactions := [tx 0; tx 11; tx 0] |}, [0; 2]).

(** Peer 7 announced the block and supplies both transactions itself. *)
Definition txs_from_7 (p : peerID) (id : ID) (idx : list N)
    : MsgBlockTxsResp + error :=
  if decide (p = 7) then supply [tx 10; tx 12] else inr unreachable_peer.
Definition originator : Collaborators :=
  node (λ _ _, None) decode_missing_0_2 txs_from_7 no_txids [8; 9; 10].

(** Peer 7 announced the block and answers "not found", peer 8 answers the
    request for two transactions with one, peer 9 is not reachable, peer 10
    answers with three. *)
Definition grudging (p : peerID) (id : ID) (idx : list N)
    : MsgBlockTxsResp + error :=
  if decide (p = 7) then not_found
  else if decide (p = 8) then supply [tx 10]
  else if decide (p = 9) then inr unreachable_peer
  else supply [tx 10; tx 12; tx 13].
Definition deaf : Collaborators :=
  node (λ _ _, None) decode_missing_0_2 grudging no_txids [8; 9; 10].

(** Peer 7 lists the ids 10 and 12 and then fails to supply a
    transaction. *)
Definition lists_only : Collaborators :=
  node (λ _ _, Some (RuleError ErrInvalidTxRoot)) no_decode no_txs
    txids_10_12 [].

(** Everything is in the mempool and the block connects. *)
Definition decode_complete (x : XThinnerBlock) : Block * list N :=
  ({| Header := xHeader x; Transactions := [tx 10; tx 11] |}, []).
Definition happy : Collaborators :=
  node (λ _ _, None) decode_complete no_txs no_txids [8].

End Decoding.

Module Arrival.

Import Scenario.

(** Block ids 1007 and 1008 are in flight; a read lock is held by another
    reader. *)
Definition busy : Server :=
  {| heap := [];
     orphanBlocks := ∅; orphanLock := unlocked;
     activeInventory := ∅; inventoryLock := unlocked;
     inflightRequests := {[ 1007 := true; 1008 := true ]};
     inflightLock := {| readers := 1; writer := false |};
     policy := None; chain := []; trace := []; waiters := [];
     timers := []; clock := 0 |}.

(** A chain that holds one block answers with it, any other chain with
    "not found". *)
Definition only_block (connected : list Block) (id : ID) : Block + error :=
  match connected with
  | [b] => inl b
  | _ => inr (OtherError "not found")
  end.

End Arrival.
(** ** Close *)

(** What the three closers that can fail answer. *)
Record Closing := {
  network_Close : option error;
  ds_Close : option error;
  blockchain_Close : option error
}.

(** The steps of a shutdown, in the order they are taken. *)
Inductive shutdown_step :=
| CancelContext
| CloseNetwork
| CloseDatastore
| CloseBlockchain
| CloseMempool.

(** [Server.Close]: the steps taken and the error returned. *)
Definition Close (c : Closing) : list shutdown_step * option error :=
  match network_Close c with
  | Some err => ([CancelContext; CloseNetwork], Some err)
  | None =>
      match ds_Close c with
      | Some err => ([CancelContext; CloseNetwork; CloseDatastore], Some err)
      | None =>
          match blockchain_Close c with
          | Some err =>
              ([CancelContext; CloseNetwork; CloseDatastore; CloseBlockchain],
               Some err)
          | None =>
              ([CancelContext; CloseNetwork; CloseDatastore; CloseBlockchain;
                CloseMempool], None)
          end
      end
  end.

(** ** The blockchain options *)

Module Blockchain.

(** The network parameter sets a [*params.NetworkParams] can point to. *)
Inductive NetworkParams := MainnetParams | Testnet1Params | RegestParams.

(** A [repo.Datastore]: the in-memory map of the mock package or a store on
    disk. *)
Inductive Datastore := MapDatastore | DiskDatastore (dir : string).

Definition DefaultMaxTxoRoots : N := 500.
Definition DefaultMaxNullifiers : N := 100000.
Definition DefaultSigCacheSize : N := 100000.
Definition DefaultProofCacheSize : N := 100000.

(** The blockchain [config]; a nil pointer or interface is [None], a cache
    is known by the size it was made with. *)
Record config := {
  params : option NetworkParams;
  datastore : option Datastore;
  sigCache : option N;
  proofCache : option N;
  indexManager : option N;
  maxNullifiers : N;
  maxTxoRoots : N;
  prune : bool
}.

(** [var cfg config]. *)
Definition zero : config :=
  {| params := None; datastore := None; sigCache := None; proofCache := None;
     indexManager := None; maxNullifiers := 0; maxTxoRoots := 0;
     prune := false |}.

(** The options of the package, with their arguments. *)
Inductive Option :=
| DefaultOptions
| Params (p : option NetworkParams)
| OptDatastore (ds : option Datastore)
| SignatureCache (c : option N)
| SnarkProofCache (c : option N)
| Indexer (i : option N)
| MaxNullifiers (n : N)
| MaxTxoRoots (n : N)
| Prune.

(** What an option does to the configuration it is applied to; every option
    of the package returns a nil error. *)
Definition run (opt : Option) (cfg : config) : config :=
  match opt with
  | DefaultOptions =>
      {| params := Some RegestParams; datastore := Some MapDatastore;
         sigCache := Some DefaultSigCacheSize;
         proofCache := Some DefaultProofCacheSize;
         indexManager := indexManager cfg;
         maxNullifiers := DefaultMaxNullifiers;
         maxTxoRoots := DefaultMaxTxoRoots; prune := prune cfg |}
  | Params p =>
      {| params := p; datastore := datastore cfg; sigCache := sigCache cfg;
         proofCache := proofCache cfg; indexManager := indexManager cfg;
         maxNullifiers := maxNullifiers cfg; maxTxoRoots := maxTxoRoots cfg;
         prune := prune cfg |}
  | OptDatastore ds =>
      {| params := params cfg; datastore := ds; sigCache := sigCache cfg;
         proofCache := proofCache cfg; indexManager := indexManager cfg;
         maxNullifiers := maxNullifiers cfg; maxTxoRoots := maxTxoRoots cfg;
         prune := prune cfg |}
  | SignatureCache c =>
      {| params := params cfg; datastore := datastore cfg; sigCache := c;
         proofCache := proofCache cfg; indexManager := indexManager cfg;
         maxNullifiers := maxNullifiers cfg; maxTxoRoots := maxTxoRoots cfg;
         prune := prune cfg |}
  | SnarkProofCache c =>
      {| params := params cfg; datastore := datastore cfg;
         sigCache := sigCache cfg; proofCache := c;
         indexManager := indexManager cfg;
         maxNullifiers := maxNullifiers cfg; maxTxoRoots := maxTxoRoots cfg;
         prune := prune cfg |}
  | Indexer i =>
      {| params := params cfg; datastore := datastore cfg;
         sigCache := sigCache cfg; proofCache := proofCache cfg;
         indexManager := i;
         maxNullifiers := maxNullifiers cfg; maxTxoRoots := maxTxoRoots cfg;
         prune := prune cfg |}
  | MaxNullifiers n =>
      {| params := params cfg; datastore := datastore cfg;
         sigCache := sigCache cfg; proofCache := proofCache cfg;
         indexManager := indexManager cfg;
         maxNullifiers := n; maxTxoRoots := maxTxoRoots cfg;
         prune := prune cfg |}
  | MaxTxoRoots n =>
      {| params := params cfg; datastore := datastore cfg;
         sigCache := sigCache cfg; proofCache := proofCache cfg;
         indexManager := indexManager cfg;
         maxNullifiers := maxNullifiers cfg; maxTxoRoots := n;
         prune := prune cfg |}
  | Prune =>
      {| params := params cfg; datastore := datastore cfg;
         sigCache := sigCache cfg; proofCache := proofCache cfg;
         indexManager := indexManager cfg;
         maxNullifiers := maxNullifiers cfg; maxTxoRoots := maxTxoRoots cfg;
         prune := true |}
  end.

(** Options applied one after the other, first to last. *)
Definition apply_all (opts : list Option) (cfg : config) : config :=
  foldl (λ c opt, run opt c) cfg opts.

(** [validate]: the message of the [AssertError], [None] for nil. *)
Definition validate (cfg : option config) : option string :=
  match cfg with
  | None => Some "NewBlockchain: blockchain config cannot be nil"
  | Some c =>
      match params c with
      | None => Some "NewBlockchain: params cannot be nil"
      | Some _ =>
          match datastore c with
          | None => Some "NewBlockchain: datastore cannot be nil"
          | Some _ =>
              match sigCache c with
              | None => Some "NewBlockchain: sig cache cannot be nil"
              | Some _ =>
                  match proofCache c with
                  | None => Some "NewBlockchain: proof cache cannot be nil"
                  | Some _ => None
                  end
              end
          end
      end
  end.

(** The option passes no nil pointer. *)
Definition passes_no_nil (opt : Option) : Prop :=
  match opt with
  | Params p => is_Some p
  | OptDatastore ds => is_Some ds
  | SignatureCache c | SnarkProofCache c => is_Some c
  | _ => True
  end.

(** The four fields [validate] asks for. *)
Inductive required := RParams | RDatastore | RSigCache | RProofCache.

Definition has (r : required) (cfg : config) : Prop :=
  match r with
  | RParams => is_Some (params cfg)
  | RDatastore => is_Some (datastore cfg)
  | RSigCache => is_Some (sigCache cfg)
  | RProofCache => is_Some (proofCache cfg)
  end.

(** The option assigns the field. *)
Definition assigns (r : required) (opt : Option) : Prop :=
  match r, opt with
  | _, DefaultOptions => True
  | RParams, Params _ => True
  | RDatastore, OptDatastore _ => True
  | RSigCache, SignatureCache _ => True
  | RProofCache, SnarkProofCache _ => True
  | _, _ => False
  end.

(** The options [BuildServer] starts its list with (lines 146-153). *)
Definition server_options (netParams : NetworkParams) (ds : Datastore)
    : list Option :=
  [Params (Some netParams); OptDatastore (Some ds);
   MaxNullifiers DefaultMaxNullifiers; MaxTxoRoots DefaultMaxTxoRoots;
   SignatureCache (Some DefaultSigCacheSize);
   SnarkProofCache (Some DefaultProofCacheSize)].

End Blockchain.
(** * Properties *)

Lemma banscore_app p tr1 tr2 :
  banscore p (tr1 ++ tr2) = banscore p tr1 + banscore p tr2.
Proof.
  unfold banscore. induction tr1 as [|e tr1 IH]; simpl; [done|].
  rewrite IH. lia.
Qed.

Lemma transient_score_app p tr1 tr2 :
  transient_score p (tr1 ++ tr2)
  = transient_score p tr1 + transient_score p tr2.
Proof.
  unfold transient_score. induction tr1 as [|e tr1 IH]; simpl; [done|].
  rewrite IH. lia.
Qed.


(** ** Running the primitives *)

Lemma add_events_nil (s : Server) : add_events [] s = s.
Proof. destruct s. unfold add_events, set_trace. simpl. by rewrite app_nil_r. Qed.

Lemma add_events_app (evs1 evs2 : list event) (s : Server) :
  add_events evs2 (add_events evs1 s) = add_events (evs1 ++ evs2) s.
Proof.
  destruct s. unfold add_events, set_trace. simpl. by rewrite app_assoc.
Qed.

Lemma add_events_set_heap (evs : list event) (h : list Block) (s : Server) :
  set_heap h (add_events evs s) = add_events evs (set_heap h s).
Proof. reflexivity. Qed.

Lemma emit_run (e : event) (s : Server) :
  emit e s = Ret tt (add_events [e] s).
Proof. reflexivity. Qed.

Lemma IncreaseBanscore_run (E : Collaborators) (p : peerID) (b t : N)
    (s : Server) :
  IncreaseBanscore p b t s = Ret tt (add_events [EvIncreaseBanscore p b t] s).
Proof. reflexivity. Qed.

Lemma call_CheckConnectBlock_run (E : Collaborators) (b : Block) (s : Server) :
  call_CheckConnectBlock E b s
  = Ret (CheckConnectBlock E (chain s) b) (add_events [EvCheckConnectBlock b] s).
Proof. reflexivity. Qed.

Lemma load_run (a : ptr) (b : Block) (s : Server) :
  heap s !! a = Some b → load a s = Ret b s.
Proof. unfold load. by intros ->. Qed.

Lemma load_dangling (a : ptr) (s : Server) :
  heap s !! a = None → load a s = Panic s.
Proof. unfold load. by intros ->. Qed.

Lemma load_final (a : ptr) (s : Server) : final (load a s) = Some s.
Proof. unfold load. by destruct (heap s !! a). Qed.

(** ** The chain-service client *)

(** [GetBlockTxs] sends one request, charges the peer 50 points when the
    answer is incomplete, and touches nothing else. *)
Lemma GetBlockTxs_run (E : Collaborators) (p : peerID) (id : ID)
    (indexes : list N) (s : Server) :
  GetBlockTxs E p id indexes s
  = Ret (GetBlockTxs_answer E p id indexes)
      (add_events (GetBlockTxs_calls E p id indexes) s).
Proof.
  unfold GetBlockTxs, GetBlockTxs_answer, GetBlockTxs_calls, incomplete,
    call_SendRequest, IncreaseBanscore, bind, emit, modify, ret.
  cbn beta iota.
  destruct (SendRequest E p (MsgChainServiceRequest_GetBlockTxs id indexes))
    as [resp|err]; [|reflexivity].
  destruct (txs_Error resp); try reflexivity.
  destruct (decide (length (txs_Transactions resp) ≠ length indexes)) as [Hn|Hn].
  - rewrite bool_decide_eq_true_2 by done. destruct s.
    unfold add_events, set_trace. simpl. by rewrite <- app_assoc.
  - rewrite bool_decide_eq_false_2 by done. reflexivity.
Qed.

Lemma GetBlockTxids_run (E : Collaborators) (p : peerID) (id : ID)
    (s : Server) :
  GetBlockTxids E p id s
  = Ret (GetBlockTxids_answer E p id) (add_events [EvGetBlockTxids p id] s).
Proof.
  unfold GetBlockTxids, GetBlockTxids_answer, call_SendRequest, bind, emit,
    modify, ret.
  cbn beta iota.
  destruct (SendRequest E p (MsgChainServiceRequest_GetBlockTxids id))
    as [resp|err]; [|reflexivity].
  destruct (txids_Error resp); reflexivity.
Qed.

(** The client hands transactions back only when it got one per requested
    index. *)
Lemma GetBlockTxs_answer_length (E : Collaborators) (p : peerID) (id : ID)
    (indexes : list N) (txs : list Transaction) :
  GetBlockTxs_answer E p id indexes = inl txs →
  length txs = length indexes ∧ incomplete E p id indexes = false.
Proof.
  unfold GetBlockTxs_answer, incomplete.
  destruct (SendRequest E p (MsgChainServiceRequest_GetBlockTxs id indexes))
    as [resp|err]; [|done].
  destruct (txs_Error resp); try done.
  destruct (decide (length (txs_Transactions resp) ≠ length indexes)) as [Hn|Hn];
    [done|].
  intros [= <-]. rewrite bool_decide_eq_false_2 by done.
  split; [|done]. destruct (decide (length (txs_Transactions resp)
                                    = length indexes)); [done|by destruct Hn].
Qed.

Lemma incomplete_error (E : Collaborators) (p : peerID) (id : ID)
    (indexes : list N) :
  incomplete E p id indexes = true →
  ∃ e, GetBlockTxs_answer E p id indexes = inr e.
Proof.
  intros Hi. destruct (GetBlockTxs_answer E p id indexes) as [txs|e] eqn:Ha;
    [|by eexists].
  apply GetBlockTxs_answer_length in Ha as [_ Ha]. congruence.
Qed.

Lemma GetBlockTxs_calls_complete (E : Collaborators) (p : peerID) (id : ID)
    (indexes : list N) (txs : list Transaction) :
  GetBlockTxs_answer E p id indexes = inl txs →
  GetBlockTxs_calls E p id indexes = [EvGetBlockTxs p id indexes].
Proof.
  intros Ha. apply GetBlockTxs_answer_length in Ha as [_ Ha].
  unfold GetBlockTxs_calls. by rewrite Ha.
Qed.

Lemma GetBlockTxs_calls_fetch (E : Collaborators) (p : peerID) (id : ID)
    (indexes : list N) :
  Forall (fetchBlockTxids_call p) (GetBlockTxs_calls E p id indexes).
Proof.
  unfold GetBlockTxs_calls. constructor; [by left|].
  destruct (incomplete E p id indexes); [|constructor].
  constructor; [by right|constructor].
Qed.

(** ** The patch loop *)

Lemma set_Transaction_run (a : ptr) (i : nat) (tx : Transaction) (b : Block)
    (s : Server) :
  heap s !! a = Some b →
  (i < length (Transactions b))%nat →
  set_Transaction a i tx s
  = Ret tt (set_heap (<[a := {| Header := Header b;
                                Transactions := <[i := tx]> (Transactions b) |}]>
                        (heap s)) s).
Proof.
  intros Ha Hi. unfold set_Transaction, bind. rewrite (load_run a b) by done.
  by rewrite decide_True.
Qed.

Lemma set_Transaction_overrun (a : ptr) (i : nat) (tx : Transaction)
    (b : Block) (s : Server) :
  heap s !! a = Some b →
  ¬ (i < length (Transactions b))%nat →
  set_Transaction a i tx s = Panic s.
Proof.
  intros Ha Hi. unfold set_Transaction, bind. rewrite (load_run a b) by done.
  by rewrite decide_False.
Qed.

(** The loop writes into the block at [blk] what [patched_slice] computes,
    slot by slot, and panics where [patched_slice] runs out of range. *)
Lemma patch_loop_run (txs : list Transaction) :
  ∀ (i : nat) (missing : list N) (a : ptr) (b : Block) (s : Server),
    heap s !! a = Some b →
    match patched_slice i txs missing (Transactions b) with
    | Some cur =>
        patch_loop i txs missing a s
        = Ret tt (set_heap (<[a := {| Header := Header b;
                                      Transactions := cur |}]> (heap s)) s)
    | None => ∃ s', patch_loop i txs missing a s = Panic s'
    end.
Proof.
  induction txs as [|tx rest IH]; intros i missing a b s Ha; simpl.
  - unfold ret. f_equal. destruct s, b. unfold set_heap. simpl in *.
    f_equal. by rewrite list_insert_id.
  - destruct (missing !! i) as [m|]; [|by eexists].
    destruct (decide (N.to_nat m < length (Transactions b))%nat) as [Hm|Hm].
    + unfold bind. rewrite (set_Transaction_run a _ tx b) by done.
      set (b1 := {| Header := Header b;
                    Transactions := <[N.to_nat m := tx]> (Transactions b) |}).
      set (s1 := set_heap (<[a := b1]> (heap s)) s).
      assert (heap s1 !! a = Some b1) as Ha1.
      { subst s1. simpl. apply list_lookup_insert_eq.
        by eapply lookup_lt_Some. }
      specialize (IH (S i) missing a b1 s1 Ha1). simpl in IH.
      destruct (patched_slice (S i) rest missing
                  (<[N.to_nat m := tx]> (Transactions b))) as [cur|].
      * rewrite IH. subst s1. destruct s. unfold set_heap. simpl.
        by rewrite list_insert_insert_eq.
      * exact IH.
    + unfold bind. rewrite (set_Transaction_overrun a _ tx b) by done.
      by eexists.
Qed.

Lemma patched_slice_length (txs : list Transaction) :
  ∀ (i : nat) (missing : list N) (cur cur' : list Transaction),
    patched_slice i txs missing cur = Some cur' → length cur' = length cur.
Proof.
  induction txs as [|tx rest IH]; intros i missing cur cur'; simpl.
  - by intros [= ->].
  - destruct (missing !! i) as [m|]; [|done].
    destruct (decide _); [|done]. intros H. apply IH in H.
    by rewrite length_insert in H.
Qed.

Lemma patched_slice_total (txs : list Transaction) :
  ∀ (i : nat) (missing : list N) (cur : list Transaction),
    (i + length txs ≤ length missing)%nat →
    Forall (λ m, (N.to_nat m < length cur)%nat) missing →
    is_Some (patched_slice i txs missing cur).
Proof.
  induction txs as [|tx rest IH]; intros i missing cur Hlen Hin; simpl.
  - by eexists.
  - simpl in Hlen.
    destruct (lookup_lt_is_Some_2 missing i) as [m Hm]; [lia|].
    rewrite Hm.
    assert (N.to_nat m < length cur)%nat as Hlt.
    { eapply (Forall_lookup_1 _ _ _ _ Hin). exact Hm. }
    rewrite decide_True by done.
    apply IH; [lia|]. by rewrite length_insert.
Qed.

(** Whatever the loop does, it rewrites no block but the one it was given,
    and of that block only the transactions. *)
Lemma rewrites_only_refl (a : ptr) (h : list Block) : rewrites_only a h h.
Proof. split; [done|]. split; [done|]. intros b Hb. by exists b. Qed.

Lemma rewrites_only_trans (a : ptr) (h1 h2 h3 : list Block) :
  rewrites_only a h1 h2 → rewrites_only a h2 h3 → rewrites_only a h1 h3.
Proof.
  intros (L12 & O12 & A12) (L23 & O23 & A23). split; [congruence|]. split.
  - intros a' Hne. rewrite O23, O12; done.
  - intros b Hb. destruct (A12 b Hb) as (b2 & Hb2 & [? ?]).
    destruct (A23 b2 Hb2) as (b3 & Hb3 & [? ?]).
    exists b3. split; [done|]. split; congruence.
Qed.

Lemma rewrites_only_insert (a : ptr) (h : list Block) (b : Block)
    (cur : list Transaction) :
  h !! a = Some b →
  length cur = length (Transactions b) →
  rewrites_only a h (<[a := {| Header := Header b; Transactions := cur |}]> h).
Proof.
  intros Ha Hlen. split; [by rewrite length_insert|]. split.
  - intros a' Hne. by rewrite list_lookup_insert_ne.
  - intros b0 Hb0. assert (b0 = b) as -> by congruence.
    eexists. split; [apply list_lookup_insert_eq; by eapply lookup_lt_Some|].
    by split.
Qed.

Lemma patch_loop_rewrites (txs : list Transaction) :
  ∀ (i : nat) (missing : list N) (a : ptr) (s s' : Server),
    final (patch_loop i txs missing a s) = Some s' →
    ∃ h, s' = set_heap h s ∧ rewrites_only a (heap s) h.
Proof.
  induction txs as [|tx rest IH]; intros i missing a s s'; simpl.
  - intros [= <-]. exists (heap s). split; [by destruct s|].
    apply rewrites_only_refl.
  - destruct (missing !! i) as [m|]; simpl.
    2:{ intros [= <-]. exists (heap s). split; [by destruct s|].
        apply rewrites_only_refl. }
    unfold bind, set_Transaction, bind, load.
    destruct (heap s !! a) as [b|] eqn:Ha; simpl.
    2:{ intros [= <-]. exists (heap s). split; [by destruct s|].
        apply rewrites_only_refl. }
    destruct (decide (N.to_nat m < length (Transactions b))%nat) as [Hm|Hm];
      simpl.
    2:{ intros [= <-]. exists (heap s). split; [by destruct s|].
        apply rewrites_only_refl. }
    unfold modify. intros Hf. apply IH in Hf as (h & -> & Hh). simpl in Hh.
    exists h. split; [by destruct s|].
    eapply rewrites_only_trans; [|exact Hh].
    apply rewrites_only_insert; [done|]. by rewrite length_insert.
Qed.

Lemma patch_loop_terminates (txs : list Transaction) :
  ∀ (i : nat) (missing : list N) (a : ptr) (s : Server),
    patch_loop i txs missing a s ≠ Diverge.
Proof.
  induction txs as [|tx rest IH]; intros i missing a s; simpl; [done|].
  destruct (missing !! i) as [m|]; [|done].
  unfold bind, set_Transaction, bind, load, deref, modify, ret, panic.
  destruct (heap s !! a) as [b|]; simpl; [|done].
  destruct (decide _); simpl; [apply IH|done].
Qed.

Lemma trace_add_events (evs : list event) (s : Server) :
  trace (add_events evs s) = trace s ++ evs.
Proof. reflexivity. Qed.

Lemma trace_set_heap (h : list Block) (s : Server) :
  trace (set_heap h s) = trace s.
Proof. reflexivity. Qed.

Lemma bind_run {A B} (m : M A) (k : A → M B) (s s1 : Server) (a : A) :
  m s = Ret a s1 → (x <- m ;; k x) s = k a s1.
Proof. unfold bind. by intros ->. Qed.

(** ** The comparison loop of fetchBlockTxids *)

Lemma missing_loop_mismatches (E : Collaborators) (txids : list ID)
    (txs : list Transaction) :
  ∀ (pre : list Transaction) (acc : list N),
    (length (pre ++ txs) ≤ length txids)%nat →
    missing_loop E (length pre) txs txids acc
    = Some (acc ++ ((λ i, uint32 (N.of_nat i))
                      <$> filter (λ i, tx_ID E <$> (pre ++ txs) !! i
                                       ≠ txids !! i)
                            (seq (length pre) (length txs)))).
Proof.
  induction txs as [|t rest IH]; intros pre acc Hlen; simpl.
  { by rewrite app_nil_r. }
  rewrite length_app in Hlen. simpl in Hlen.
  destruct (lookup_lt_is_Some_2 txids (length pre)) as [id Hid]; [lia|].
  rewrite Hid.
  assert ((pre ++ t :: rest) !! length pre = Some t) as Ht.
  { by rewrite lookup_app_r, Nat.sub_diag by lia. }
  assert (length (pre ++ [t]) = S (length pre)) as Hl
    by (rewrite length_app; simpl; lia).
  assert ((pre ++ [t]) ++ rest = pre ++ t :: rest) as Ha
    by by rewrite <- app_assoc.
  specialize (IH (pre ++ [t])). rewrite Hl, Ha in IH.
  destruct (decide (tx_ID E t = id)) as [Heq|Hne].
  - rewrite filter_cons_False; [apply IH; rewrite length_app; simpl; lia|].
    rewrite Ht, Hid. simpl. intros Hn. apply Hn. by rewrite Heq.
  - rewrite filter_cons_True; [|rewrite Ht, Hid; simpl; congruence].
    rewrite IH by (rewrite length_app; simpl; lia).
    by rewrite fmap_cons, <- app_assoc.
Qed.

Lemma filter_none {A} (P : A → Prop) `{∀ x, Decision (P x)} (l : list A) :
  Forall (λ x, ¬ P x) l → filter P l = [].
Proof.
  induction 1 as [|x l Hx _ IH]; [done|]. by rewrite filter_cons_False.
Qed.

Lemma missing_loop_is_mismatches (E : Collaborators) (txids : list ID)
    (txs : list Transaction) :
  length txids = length txs →
  missing_loop E 0 txs txids [] = Some (mismatches E txs txids).
Proof.
  intros Hlen.
  apply (missing_loop_mismatches E txids txs [] []). simpl. lia.
Qed.

Lemma uint32_le (n : N) : uint32 n ≤ n.
Proof. unfold uint32. apply N.Div0.mod_le. Qed.

(** Every index the comparison loop collects is a slot of the block. *)
Lemma mismatches_in_range (E : Collaborators) (txs : list Transaction)
    (txids : list ID) :
  Forall (λ m, (N.to_nat m < length txs)%nat) (mismatches E txs txids).
Proof.
  unfold mismatches. apply Forall_fmap, Forall_forall. intros i Hi.
  apply list_elem_of_filter in Hi as [_ Hi]. apply elem_of_seq in Hi.
  simpl. pose proof (uint32_le (N.of_nat i)). lia.
Qed.


(** ** The slice a patch leaves behind *)

Lemma patched_slice_untouched (txs : list Transaction) :
  ∀ (i : nat) (missing : list N) (cur cur' : list Transaction),
    patched_slice i txs missing cur = Some cur' →
    length cur' = length cur
    ∧ ∀ j, (∀ k m, (k < length txs)%nat → missing !! (i + k)%nat = Some m →
                   N.to_nat m ≠ j) →
           cur' !! j = cur !! j.
Proof.
  induction txs as [|t rest IH]; intros i missing cur cur' Hp; simpl in Hp.
  { by simplify_eq. }
  destruct (missing !! i) as [m|] eqn:Hm; [|done].
  destruct (decide _) as [Hlt|]; [|done].
  destruct (IH _ _ _ _ Hp) as (Hlen & Hsame).
  rewrite length_insert in Hlen. split; [done|].
  intros j Hj. rewrite Hsame.
  - apply list_lookup_insert_ne. apply (Hj 0%nat m); [simpl; lia|].
    by rewrite Nat.add_0_r.
  - intros k m' Hk Hm'. apply (Hj (S k) m'); [simpl; lia|].
    by replace (i + S k)%nat with (S i + k)%nat by lia.
Qed.

Lemma patched_slice_written (txs : list Transaction) :
  ∀ (i : nat) (missing : list N) (cur cur' : list Transaction),
    NoDup missing →
    patched_slice i txs missing cur = Some cur' →
    ∀ k m tx, missing !! (i + k)%nat = Some m → txs !! k = Some tx →
              cur' !! N.to_nat m = Some tx.
Proof.
  induction txs as [|t rest IH]; intros i missing cur cur' Hnd Hp k m tx Hm Htx;
    simpl in Hp.
  { by rewrite lookup_nil in Htx. }
  destruct (missing !! i) as [m0|] eqn:Hm0; [|done].
  destruct (decide _) as [Hlt|]; [|done].
  destruct k as [|k]; simpl in Htx.
  - rewrite Nat.add_0_r in Hm. simplify_eq.
    destruct (patched_slice_untouched _ _ _ _ _ Hp) as (_ & Hsame).
    rewrite Hsame; [by apply list_lookup_insert_eq|].
    intros k m' _ Hm' Heq. apply N2Nat.inj in Heq. subst m'.
    pose proof (NoDup_lookup _ _ _ _ Hnd Hm0 Hm'). lia.
  - apply (IH _ _ _ _ Hnd Hp k); [|done].
    by replace (S i + k)%nat with (i + S k)%nat by lia.
Qed.

(** A complete answer for distinct slots of the block patches it. *)
Lemma patched_slice_patched (txs : list Transaction) (missing : list N)
    (b : Block) :
  (length txs ≤ length missing)%nat →
  Forall (λ m, (N.to_nat m < length (Transactions b))%nat) missing →
  NoDup missing →
  ∃ cur, patched_slice 0 txs missing (Transactions b) = Some cur
         ∧ patched b missing txs {| Header := Header b; Transactions := cur |}.
Proof.
  intros Hlen Hrange Hnd.
  destruct (patched_slice_total txs 0 missing (Transactions b))
    as (cur & Hp); [simpl; lia|done|].
  exists cur. split; [done|].
  destruct (patched_slice_untouched _ _ _ _ _ Hp) as (Hl & Hsame).
  repeat split; simpl; [done| |exact Hsame].
  intros k m tx. by apply (patched_slice_written _ 0 _ _ _ Hnd Hp).
Qed.

Section FetchBlockTxids.

Context (E : Collaborators) (txids : list ID).

(** The indices collected by the comparison loop cover every transaction
    whose id differs from the listed one. *)
Lemma missing_loop_covers (txs : list Transaction) :
  ∀ (i : nat) (acc missing : list N),
    missing_loop E i txs txids acc = Some missing →
    N.of_nat (i + length txs) ≤ uint32_mod →
    ∃ extra, missing = acc ++ extra
             ∧ ∀ k tx, txs !! k = Some tx →
                       txids !! (i + k)%nat = Some (tx_ID E tx)
                       ∨ (i + k)%nat ∈ N.to_nat <$> extra.
Proof.
  induction txs as [|t rest IH]; intros i acc missing Hloop Hbound; simpl in *.
  { exists []. split; [by simplify_eq; rewrite app_nil_r|]. intros k tx Hk.
    by rewrite lookup_nil in Hk. }
  destruct (txids !! i) as [id|] eqn:Hid; [|done].
  destruct (decide (tx_ID E t = id)) as [Heq|Hne].
  - destruct (IH (S i) acc missing Hloop) as (extra & -> & Hcov); [lia|].
    exists extra. split; [done|]. intros [|k] tx Hk; simpl in Hk.
    + left. simplify_eq. by rewrite Nat.add_0_r.
    + replace (i + S k)%nat with (S i + k)%nat by lia. by apply Hcov.
  - destruct (IH (S i) _ missing Hloop) as (extra & -> & Hcov); [lia|].
    exists (uint32 (N.of_nat i) :: extra). split; [by rewrite <- app_assoc|].
    assert (N.to_nat (uint32 (N.of_nat i)) = i) as Hi.
    { unfold uint32. rewrite N.mod_small by lia. lia. }
    intros [|k] tx Hk; simpl in Hk.
    + right. rewrite Nat.add_0_r, fmap_cons, Hi. apply list_elem_of_here.
    + replace (i + S k)%nat with (S i + k)%nat by lia.
      destruct (Hcov k tx Hk) as [?|?]; [by left|right].
      rewrite fmap_cons. by apply list_elem_of_further.
Qed.

(** Writing listed transactions at the requested indices makes every
    requested slot listed and keeps the listed ones. *)
Lemma patched_slice_listed (txs : list Transaction) :
  ∀ (i : nat) (missing : list N) (cur cur' : list Transaction),
    patched_slice i txs missing cur = Some cur' →
    supplies_listed E txids (drop i missing) txs →
    length cur' = length cur
    ∧ ∀ j, (j < length cur)%nat →
           listed E txids cur j ∨ j ∈ N.to_nat <$> drop i missing →
           listed E txids cur' j.
Proof.
  unfold supplies_listed.
  induction txs as [|t rest IH]; intros i missing cur cur' Hp Hsup; simpl in Hp.
  { simplify_eq. split; [done|]. intros j _ [?|Hin]; [done|].
    apply Forall2_nil_inv_r in Hsup. rewrite Hsup in Hin.
    by apply elem_of_nil in Hin. }
  apply Forall2_cons_inv_r in Hsup as (m & rest' & Hm & Hrest & Hdrop).
  assert (missing !! i = Some m) as Hlook.
  { rewrite <- (Nat.add_0_r i), <- lookup_drop, Hdrop. done. }
  assert (drop (S i) missing = rest') as Hdrop'.
  { rewrite (drop_S _ _ _ Hlook) in Hdrop. by simplify_eq. }
  rewrite Hlook in Hp.
  destruct (decide (N.to_nat m < length cur)%nat) as [Hlt|]; [|done].
  destruct (IH (S i) missing _ cur' Hp) as (Hlen & Hgood).
  { by rewrite Hdrop'. }
  rewrite length_insert in Hlen. split; [done|].
  intros j Hj Hcase. apply Hgood; [by rewrite length_insert|].
  destruct (decide (j = N.to_nat m)) as [->|Hne].
  - left. unfold listed. by rewrite list_lookup_insert_eq, Hm.
  - rewrite Hdrop' . rewrite Hdrop, fmap_cons in Hcase.
    destruct Hcase as [Hl|Hin].
    + left. unfold listed in *. by rewrite list_lookup_insert_ne.
    + apply elem_of_cons in Hin as [?|?]; [done|by right].
Qed.

End FetchBlockTxids.

(** ** fetchBlockTxids *)

Lemma fetchBlockTxids_nil (E : Collaborators) (p : peerID) (s : Server) :
  fetchBlockTxids E None p s = Panic s.
Proof. reflexivity. Qed.

Lemma fetchBlockTxids_dangling (E : Collaborators) (a : ptr) (p : peerID)
    (s : Server) :
  heap s !! a = None → fetchBlockTxids E (Some a) p s = Panic s.
Proof.
  intros Ha. unfold fetchBlockTxids, deref, bind, ret.
  by rewrite load_dangling.
Qed.

(** What the client answers decides what [fetchBlockTxids] does: it makes
    the calls of [fetchBlockTxids_calls], and either returns the error of
    [fetchBlockTxids_answer] with the heap as it was, or writes the block of
    [fetchBlockTxids_answer] over the one it was given and returns the
    pointer it was given. *)
Lemma fetchBlockTxids_run (E : Collaborators) (a : ptr) (b : Block)
    (p : peerID) (s : Server) :
  heap s !! a = Some b →
  fetchBlockTxids E (Some a) p s
  = match fetchBlockTxids_answer E p b with
    | inl b' =>
        Ret (inl a) (add_events (fetchBlockTxids_calls E p b)
                       (set_heap (<[a := b']> (heap s)) s))
    | inr err => Ret (inr err) (add_events (fetchBlockTxids_calls E p b) s)
    end.
Proof.
  intros Ha.
  unfold fetchBlockTxids, fetchBlockTxids_answer, fetchBlockTxids_calls,
    deref, bind, ret.
  rewrite (load_run a b) by done. rewrite GetBlockTxids_run.
  destruct (GetBlockTxids_answer E p (Block_ID E b)) as [txids|err];
    [|reflexivity].
  destruct (decide (length txids ≠ length (Transactions b))) as [|Hlen];
    [reflexivity|]. apply dec_stable in Hlen.
  rewrite missing_loop_is_mismatches by done.
  pose proof (mismatches_in_range E (Transactions b) txids) as Hrange.
  destruct (mismatches E (Transactions b) txids) as [|m0 rest] eqn:Hmis;
    [reflexivity|].
  rewrite GetBlockTxs_run, add_events_app. simpl app.
  destruct (GetBlockTxs_answer E p (Block_ID E b) (m0 :: rest))
    as [txs|err] eqn:Hans; [|reflexivity].
  pose proof (GetBlockTxs_answer_length _ _ _ _ _ Hans) as [Hl _].
  destruct (patched_slice_total txs 0 (m0 :: rest) (Transactions b))
    as [cur Hcur]; [simpl in *; lia|done|].
  set (s1 := add_events _ s).
  pose proof (patch_loop_run txs 0 (m0 :: rest) a b s1 Ha) as Hrun.
  rewrite Hcur in Hrun. rewrite Hrun, Hcur. reflexivity.
Qed.

(** ** processBlock: the first check *)

(** [processBlock] reads the block, has it checked, and goes on by what the
    check says. *)
Lemma processBlockN_check (E : Collaborators) (n : nat) (a : ptr) (b : Block)
    (p : peerID) (recheck : bool) (s : Server) :
  heap s !! a = Some b →
  processBlockN E (S n) a p recheck s
  = match CheckConnectBlock E (chain s) b with
    | Some OrphanBlockError =>
        store_orphan E a p ;;; ret (Some OrphanBlockError)
    | Some (RuleError code) =>
        if recheck
        then IncreaseBanscore p 34 0 ;;; ret (Some (RuleError code))
        else
          match code with
          | ErrInvalidTxRoot =>
              r <- fetchBlockTxids E (Some a) p ;;
              match r with
              | inr _ =>
                  IncreaseBanscore p 34 0 ;;;
                  repair_peers_loop E (Peers E) None
                    (λ a', processBlockN E n a' p true)
                    (ret (Some (RuleError code)))
              | inl a' => processBlockN E n a' p true
              end
          | ErrDoesNotConnect =>
              IncreaseBanscore p 0 10 ;;; ret (Some (RuleError code))
          | ErrOtherRule _ =>
              IncreaseBanscore p 101 0 ;;; ret (Some (RuleError code))
          end
    | Some (OtherError msg) => ret (Some (OtherError msg))
    | None => submit E a
    end (add_events [EvCheckConnectBlock b] s).
Proof.
  intros Ha. cbn [processBlockN]. unfold bind at 1.
  rewrite (load_run a b) by done.
  unfold bind at 1. rewrite call_CheckConnectBlock_run.
  destruct (CheckConnectBlock E (chain s) b) as [[|[| |]|]|]; reflexivity.
Qed.

Lemma processBlockN_dangling (E : Collaborators) (n : nat) (a : ptr)
    (p : peerID) (recheck : bool) (s : Server) :
  heap s !! a = None → processBlockN E (S n) a p recheck s = Panic s.
Proof.
  intros Ha. cbn [processBlockN]. unfold bind at 1.
  by rewrite load_dangling.
Qed.

(** ** processBlock: rule errors *)

(** C7: a [RuleError] on a recheck costs the relaying peer exactly 34
    behavioral points and is returned; on a first check a [RuleError] that is
    neither [ErrInvalidTxRoot] nor [ErrDoesNotConnect] costs exactly 101 and is
    returned. *)
Theorem processBlock_rule_error (E : Collaborators) (s : Server) (a : ptr)
    (b : Block) (p : peerID) (recheck : bool) (code : ErrorCode) :
  heap s !! a = Some b →
  CheckConnectBlock E (chain s) b = Some (RuleError code) →
  recheck = true ∨ (code ≠ ErrInvalidTxRoot ∧ code ≠ ErrDoesNotConnect) →
  let penalty := if recheck then 34 else 101 in
  let s' := add_events [EvCheckConnectBlock b;
                        EvIncreaseBanscore p penalty 0] s in
  processBlock E a p recheck s = Ret (Some (RuleError code)) s' ∧
  banscore p (trace s') = banscore p (trace s) + penalty.
Proof.
  intros Ha Hc Hcase penalty s'. subst penalty s'.
  unfold processBlock. rewrite (processBlockN_check E 1 a b) by done.
  rewrite Hc.
  assert (∀ n, banscore p (trace (add_events [EvCheckConnectBlock b;
                                               EvIncreaseBanscore p n 0] s))
               = banscore p (trace s) + n) as Hscore.
  { intros n. unfold add_events. destruct s; simpl.
    rewrite banscore_app. simpl. rewrite decide_True by done. lia. }
  destruct recheck.
  - split; [|apply Hscore].
    unfold bind. rewrite IncreaseBanscore_run by exact E.
    by rewrite add_events_app.
  - destruct Hcase as [?|[Hroot Hconn]]; [done|].
    destruct code as [| |n]; [done|done|].
    split; [|apply Hscore].
    unfold bind. rewrite IncreaseBanscore_run by exact E.
    by rewrite add_events_app.
Qed.

Lemma processBlock_rule_error_witness :
  processBlock Scenario.rejecting 0 7 false
    (Scenario.holding [Scenario.blockA])
  = Ret (Some (RuleError (ErrOtherRule 3)))
      (add_events [EvCheckConnectBlock Scenario.blockA;
                   EvIncreaseBanscore 7 101 0]
         (Scenario.holding [Scenario.blockA]))
  ∧ banscore 7 [EvCheckConnectBlock Scenario.blockA; EvIncreaseBanscore 7 101 0]
    = 0 + 101.
Proof.
  apply (processBlock_rule_error Scenario.rejecting
           (Scenario.holding [Scenario.blockA]) 0 Scenario.blockA 7 false
           (ErrOtherRule 3)).
  - reflexivity.
  - reflexivity.
  - right. split; discriminate.
Defined.

(** ** processBlock: accepted blocks *)

Lemma submit_accepted (E : Collaborators) (s : Server) (a : ptr) (b : Block) :
  heap s !! a = Some b →
  inventoryLock s = unlocked →
  orphanLock s = unlocked →
  submit E a (add_events [EvCheckConnectBlock b] s)
  = Ret None (accepted E a b s).
Proof.
  intros Ha Hinv Horph. destruct s; simpl in *. subst.
  unfold submit, inventoryLock_Lock, inventoryLock_Unlock, orphanLock_Lock,
    orphanLock_Unlock, acquire, release, load, deref, emit, modify, bind, ret,
    accepted, add_events.
  simpl. rewrite Ha. simpl. rewrite <- app_assoc. reflexivity.
Qed.

(** With the inventory lock free and the orphan lock taken the block is
    registered, and there the call parks. *)
Lemma submit_registered (E : Collaborators) (s : Server) (a : ptr)
    (b : Block) :
  heap s !! a = Some b →
  inventoryLock s = unlocked →
  orphanLock s ≠ unlocked →
  submit E a (add_events [EvCheckConnectBlock b] s)
  = Blocked (registered E a b s).
Proof.
  intros Ha Hinv Horph. destruct s; simpl in *. subst.
  unfold submit, inventoryLock_Lock, inventoryLock_Unlock, orphanLock_Lock,
    orphanLock_Unlock, acquire, release, load, deref, emit, modify, bind, ret,
    registered, add_events.
  simpl. rewrite Ha. simpl.
  destruct orphanLock0 as [[|r] []]; simpl; try reflexivity.
  by destruct Horph.
Qed.

Lemma processBlock_accepted (E : Collaborators) (s : Server) (a : ptr)
    (b : Block) (p : peerID) (recheck : bool) :
  heap s !! a = Some b →
  CheckConnectBlock E (chain s) b = None →
  inventoryLock s = unlocked →
  orphanLock s = unlocked →
  processBlock E a p recheck s = Ret None (accepted E a b s).
Proof.
  intros Ha Hc Hinv Horph. unfold processBlock.
  rewrite (processBlockN_check E 1 a b) by done. rewrite Hc.
  by apply submit_accepted.
Qed.

Lemma processBlock_registered (E : Collaborators) (s : Server) (a : ptr)
    (b : Block) (p : peerID) (recheck : bool) :
  heap s !! a = Some b →
  CheckConnectBlock E (chain s) b = None →
  inventoryLock s = unlocked →
  orphanLock s ≠ unlocked →
  processBlock E a p recheck s = Blocked (registered E a b s).
Proof.
  intros Ha Hc Hinv Horph. unfold processBlock.
  rewrite (processBlockN_check E 1 a b) by done. rewrite Hc.
  by apply submit_registered.
Qed.





(** ** The recursion of processBlock *)

(** The nil block of a failed attempt stops the loop over the helpers at
    its first peer. *)
Lemma repair_peers_loop_nil (E : Collaborators) (peers : list peerID)
    (k : ptr → M (option error)) (otherwise : M (option error)) (s : Server) :
  repair_peers_loop E peers None k otherwise s
  = match peers with
    | [] => otherwise s
    | _ :: _ => Panic s
    end.
Proof. by destruct peers. Qed.

(** A recheck does not recurse. *)
Lemma processBlockN_recheck (E : Collaborators) (n : nat) (a : ptr)
    (p : peerID) (s : Server) :
  processBlockN E (S n) a p true s = processBlockN E 1 a p true s.
Proof.
  cbn [processBlockN]. unfold bind.
  destruct (load a s) as [b s0| | |]; reflexivity.
Qed.

Lemma processBlockN_step_ext (E : Collaborators) (n m : nat) (a : ptr)
    (p : peerID) (recheck : bool) (s : Server) :
  (∀ a' s', processBlockN E n a' p true s' = processBlockN E m a' p true s') →
  processBlockN E (S n) a p recheck s = processBlockN E (S m) a p recheck s.
Proof.
  intros Hrec. cbn [processBlockN]. unfold bind.
  destruct (load a s) as [b s0| | |]; try reflexivity.
  destruct (call_CheckConnectBlock E b s0) as [[[|[| |]|]|] s'| | |]; try done.
  destruct recheck; [done|].
  destruct (fetchBlockTxids E (Some a) p s') as [[a'|e] s''| | |]; try done.
  destruct (IncreaseBanscore p 34 0 s'') as [[] s3| | |]; try done.
  by rewrite !repair_peers_loop_nil.
Qed.

(** Two levels of recursion are enough: more fuel changes nothing. *)
Lemma processBlock_fuel (E : Collaborators) (n : nat) (a : ptr)
    (p : peerID) (recheck : bool) (s : Server) :
  processBlockN E (S (S n)) a p recheck s = processBlock E a p recheck s.
Proof.
  unfold processBlock. apply processBlockN_step_ext.
  intros a' s'. apply processBlockN_recheck.
Qed.

Lemma fetchBlockTxids_terminates (E : Collaborators) (cur : option ptr)
    (p : peerID) (s : Server) :
  fetchBlockTxids E cur p s ≠ Diverge.
Proof.
  destruct cur as [a|]; [|done].
  destruct (heap s !! a) as [b|] eqn:Ha.
  - rewrite (fetchBlockTxids_run E a b) by done.
    by destruct (fetchBlockTxids_answer E p b).
  - by rewrite fetchBlockTxids_dangling.
Qed.

Lemma submit_terminates (E : Collaborators) (a : ptr) (s : Server) :
  submit E a s ≠ Diverge.
Proof.
  unfold submit, inventoryLock_Lock, inventoryLock_Unlock, orphanLock_Lock,
    orphanLock_Unlock, acquire, release, load, deref, emit, modify, bind, ret,
    panic.
  destruct s; simpl.
  destruct inventoryLock0 as [[|?] []]; simpl; try done.
  destruct (heap0 !! a); simpl; [|done].
  destruct orphanLock0 as [[|?] []]; simpl; done.
Qed.

Lemma store_orphan_terminates (E : Collaborators) (a : ptr) (p : peerID)
    (s : Server) :
  store_orphan E a p s ≠ Diverge.
Proof.
  unfold store_orphan, orphanLock_Lock, orphanLock_Unlock, acquire, release,
    load, deref, modify, bind, ret, panic.
  destruct s; simpl. destruct orphanLock0 as [[|?] []]; simpl; try done.
  destruct (heap0 !! a); simpl; done.
Qed.

Lemma processBlockN_step_terminates (E : Collaborators) (n : nat) (a : ptr)
    (p : peerID) (recheck : bool) (s : Server) :
  (recheck = false →
   ∀ a' s', processBlockN E n a' p true s' ≠ Diverge) →
  processBlockN E (S n) a p recheck s ≠ Diverge.
Proof.
  intros Hrec.
  destruct (heap s !! a) as [b|] eqn:Ha;
    [|by rewrite processBlockN_dangling].
  rewrite (processBlockN_check E n a b) by done.
  set (s1 := add_events _ s).
  destruct (CheckConnectBlock E (chain s) b) as [[|code|]|]; try done.
  - unfold bind. pose proof (store_orphan_terminates E a p s1).
    by destruct (store_orphan E a p s1).
  - destruct recheck; [done|]. specialize (Hrec eq_refl).
    destruct code; try done.
    unfold bind at 1.
    pose proof (fetchBlockTxids_terminates E (Some a) p s1).
    destruct (fetchBlockTxids E (Some a) p s1) as [[a'|e] s'| | |]; try done.
    unfold bind. rewrite IncreaseBanscore_run by exact E.
    rewrite repair_peers_loop_nil. by destruct (Peers E).
  - apply submit_terminates.
Qed.

(** [processBlock] always comes to an end: it returns, panics or parks. *)
Lemma processBlock_terminates (E : Collaborators) (a : ptr) (p : peerID)
    (recheck : bool) (s : Server) :
  processBlock E a p recheck s ≠ Diverge.
Proof.
  apply processBlockN_step_terminates. intros _ a' s'.
  by apply processBlockN_step_terminates.
Qed.

(** ** requestBlock *)

(** C5: [requestBlock] for a block id that is not in flight takes the read
    lock, takes it a second time where it meant to release it, and then
    parks on the write lock it can never get.  Nothing is inserted into
    [inflightRequests], [GetBlock] is not called and no timer is armed. *)
Theorem requestBlock_parks_before_insert (E : Collaborators) (s : Server)
    (blockID : ID) (remotePeer : peerID) :
  inflightRequests s !! blockID = None →
  inflightLock s = unlocked →
  requestBlock E blockID remotePeer s
  = Blocked (set_inflightLock {| readers := 2; writer := false |} s).
Proof.
  intros Hnone Hfree. destruct s; simpl in *. subst.
  unfold requestBlock, inflightLock_RLock, inflightLock_Lock, acquire, bind,
    get. simpl. rewrite Hnone. reflexivity.
Qed.

Lemma requestBlock_parks_before_insert_witness :
  requestBlock Scenario.accepting 1007 7 Scenario.fresh
  = Blocked (set_inflightLock {| readers := 2; writer := false |}
               Scenario.fresh).
Proof.
  apply (requestBlock_parks_before_insert Scenario.accepting Scenario.fresh
           1007 7); reflexivity.
Defined.

(** A block id that is already in flight is not requested again. *)
Lemma requestBlock_in_flight (E : Collaborators) (s : Server) (blockID : ID)
    (remotePeer : peerID) (known : bool) :
  inflightRequests s !! blockID = Some known →
  inflightLock s = unlocked →
  requestBlock E blockID remotePeer s = Ret tt s.
Proof.
  intros Hsome Hfree. destruct s; simpl in *. subst.
  unfold requestBlock, inflightLock_RLock, inflightLock_RUnlock, acquire,
    release, bind, get, ret. simpl. rewrite Hsome. reflexivity.
Qed.

(** ** BuildServer *)

Lemma whitelist_loop_nil_policy (St : Startup) (ids : list string) :
  whitelist_loop St ids None
  = match ids with
    | [] => Built None
    | id :: _ =>
        match NewIDFromString St id with
        | inl _ => BuildPanic
        | inr e => BuildError e
        end
    end.
Proof. destruct ids as [|id rest]; [done|]. simpl. by destruct NewIDFromString. Qed.

Lemma andThen_not_panic {A B} (r : built A) (k : A → built B) :
  r ≠ BuildPanic → (∀ a, k a ≠ BuildPanic) → andThen r k ≠ BuildPanic.
Proof. destruct r; simpl; auto. Qed.

Lemma attempt_not_panic (r : option error) : attempt r ≠ BuildPanic.
Proof. by destruct r. Qed.

Lemma attempt_val_not_panic {A} (r : A + error) : attempt_val r ≠ BuildPanic.
Proof. by destruct r. Qed.

Lemma network_key_not_panic (St : Startup) : network_key St ≠ BuildPanic.
Proof.
  unfold network_key. apply andThen_not_panic; [apply attempt_val_not_panic|].
  intros [|]; [apply attempt_not_panic|].
  apply andThen_not_panic; [apply attempt_not_panic|]. intros _. apply attempt_not_panic.
Qed.

(** After the whitelist loop nothing in [BuildServer] can panic. *)
Lemma BuildServer_tail_not_panic (St : Startup) (config : Config)
    (k : built Server) :
  k = andThen (attempt (NewDatastore St (DataDir config))) (λ _,
      andThen (network_key St) (λ _,
      andThen (if DropTxIndex config then attempt (indexers_DropTxIndex St)
               else Built tt) (λ _,
      andThen (attempt_val (NewBlockchain St)) (λ connected,
      andThen (attempt (NewMempool St)) (λ _,
      andThen (attempt (NewNetwork St)) (λ _,
      andThen (attempt (NewConsensusEngine St)) (λ _,
      Built {| heap := [];
               orphanBlocks := ∅; orphanLock := unlocked;
               activeInventory := ∅; inventoryLock := unlocked;
               inflightRequests := ∅; inflightLock := unlocked;
               policy := Some {| MinFeePerByte := cfg_MinFeePerByte config;
                                 MinStake := cfg_MinStake config;
                                 BlocksizeSoftLimit := cfg_BlocksizeSoftLimit config;
                                 MaxMessageSize := cfg_MaxMessageSize config;
                                 TreasuryWhitelist := [] |};
               chain := connected; trace := [];
               waiters := []; timers := []; clock := startTime St |}))))))) →
  k ≠ BuildPanic.
Proof.
  intros ->.
  apply andThen_not_panic; [apply attempt_not_panic|]; intros _.
  apply andThen_not_panic; [apply network_key_not_panic|]; intros _.
  apply andThen_not_panic; [destruct DropTxIndex; [apply attempt_not_panic|done]|];
    intros _.
  apply andThen_not_panic; [apply attempt_val_not_panic|]; intros connected.
  apply andThen_not_panic; [apply attempt_not_panic|]; intros _.
  apply andThen_not_panic; [apply attempt_not_panic|]; intros _.
  apply andThen_not_panic; [apply attempt_not_panic|]; intros _.
  done.
Qed.

(** C10 (as the code has it): [BuildServer] dereferences the nil [s.policy]
    exactly when logging was set up and the first whitelist entry parses; it
    returns a server only for an empty whitelist. *)
Theorem BuildServer_nil_policy (St : Startup) (config : Config) :
  (BuildServer St config = BuildPanic ↔
     setupLogging St (LogDir config) (LogLevel config) (Testnet config) = None
     ∧ ∃ id rest w, cfg_TreasuryWhitelist config = id :: rest
                    ∧ NewIDFromString St id = inl w)
  ∧ (∀ srv, BuildServer St config = Built srv →
            cfg_TreasuryWhitelist config = []).
Proof.
  unfold BuildServer. rewrite whitelist_loop_nil_policy.
  destruct (setupLogging St _ _ _) as [e|]; simpl.
  { split; [|done]. split; [done|]. by intros [? _]. }
  destruct (cfg_TreasuryWhitelist config) as [|id rest]; simpl.
  - split; [|done]. split.
    + intros H. exfalso. revert H. by eapply BuildServer_tail_not_panic.
    + intros [_ (? & ? & ? & ? & _)]. done.
  - destruct (NewIDFromString St id) as [w|e] eqn:Hid; simpl.
    + split; [|done]. split; [|done]. intros _. split; [done|]. eauto.
    + split; [|done]. split; [done|].
      intros [_ (id' & rest' & w & Heq & Hw)]. congruence.
Qed.

Lemma BuildServer_nil_policy_witness :
  BuildServer Scenario.startup (Scenario.config ["00ff"; "bad"]) = BuildPanic.
Proof.
  apply (BuildServer_nil_policy Scenario.startup
           (Scenario.config ["00ff"; "bad"])).
  split; [reflexivity|].
  exists "00ff"%string, ["bad"%string], 255. split; reflexivity.
Defined.

(** C10 (as stated) fails: a whitelist that contains a valid id behind an
    invalid one makes [BuildServer] return the parse error, without touching
    [s.policy]. *)
Lemma BuildServer_valid_id_without_panic :
  (∃ w, "00ff"%string ∈ cfg_TreasuryWhitelist (Scenario.config ["bad"; "00ff"])
        ∧ NewIDFromString Scenario.startup "00ff" = inl w)
  ∧ BuildServer Scenario.startup (Scenario.config ["bad"; "00ff"])
    = BuildError (OtherError "invalid hex").
Proof.
  split; [|reflexivity].
  exists 255. split; [|reflexivity]. simpl. set_solver.
Qed.


(** ** decodeXthinner *)

Lemma requests_cons (E : Collaborators) (id : ID) (missing : list N)
    (q : peerID) (qs : list peerID) :
  requests E id missing (q :: qs)
  = GetBlockTxs_calls E q id missing ++ requests E id missing qs.
Proof. reflexivity. Qed.

(** The loop over the connected peers asks them in the order of the list up
    to the first that supplies the transactions, and patches the block with
    what that peer supplied. *)
Lemma decode_peers_loop_run (E : Collaborators) (id : ID) (missing : list N)
    (a : ptr) (peers : list peerID) :
  ∀ s, decode_peers_loop E peers id missing a s
       = match supplier E id missing peers with
         | Some txs => patch_loop 0 txs missing a ;;; ret (a, None)
         | None => ret (a, None)
         end (add_events (requests E id missing (asked E id missing peers)) s).
Proof.
  induction peers as [|q rest IH]; intros s; simpl.
  { unfold requests. simpl. by rewrite add_events_nil. }
  unfold bind at 1. rewrite GetBlockTxs_run.
  destruct (GetBlockTxs_answer E q id missing) as [txs|e].
  - unfold requests. simpl. by rewrite app_nil_r.
  - by rewrite IH, add_events_app, requests_cons.
Qed.

(** [decodeXthinner] allocates the decoded block, asks the announcing peer,
    and after an error charges it 34 points and turns to the connected
    peers. *)
Lemma decodeXthinner_run (E : Collaborators) (xThinnerBlk : XThinnerBlock)
    (p : peerID) (s : Server) :
  let b := (DecodeXthinner E xThinnerBlk).1 in
  let missing := (DecodeXthinner E xThinnerBlk).2 in
  let id := XThinnerBlock_ID E xThinnerBlk in
  let a := length (heap s) in
  let s0 := set_heap (heap s ++ [b]) s in
  decodeXthinner E xThinnerBlk p s
  = match missing with
    | [] => Ret (a, None) s0
    | _ :: _ =>
        match GetBlockTxs_answer E p id missing with
        | inl txs =>
            (patch_loop 0 txs missing a ;;; ret (a, None))
              (add_events [EvGetBlockTxs p id missing] s0)
        | inr _ =>
            match supplier E id missing (Peers E) with
            | Some txs => patch_loop 0 txs missing a ;;; ret (a, None)
            | None => ret (a, None)
            end (add_events
                   (GetBlockTxs_calls E p id missing
                    ++ [EvIncreaseBanscore p 34 0]
                    ++ requests E id missing (asked E id missing (Peers E)))
                   s0)
        end
    end.
Proof.
  intros b missing id a s0. subst b missing id a s0.
  unfold decodeXthinner.
  destruct (DecodeXthinner E xThinnerBlk) as [b missing]. simpl.
  unfold bind at 1. unfold new_Block.
  destruct missing as [|m rest]; [reflexivity|].
  unfold bind at 1. rewrite GetBlockTxs_run.
  destruct (GetBlockTxs_answer E p (XThinnerBlock_ID E xThinnerBlk) (m :: rest))
    as [txs|e] eqn:Hans.
  - by rewrite (GetBlockTxs_calls_complete _ _ _ _ _ Hans).
  - unfold bind at 1. rewrite IncreaseBanscore_run by exact E.
    rewrite decode_peers_loop_run, !add_events_app. reflexivity.
Qed.



Lemma new_block_lookup (s : Server) (b : Block) :
  heap (set_heap (heap s ++ [b]) s) !! length (heap s) = Some b.
Proof. simpl. by rewrite lookup_app_r, Nat.sub_diag by lia. Qed.



(** Without any assumption on the collaborators: when [decodeXthinner]
    returns, the error it returns is nil. *)
Lemma decodeXthinner_error_nil (E : Collaborators) (xThinnerBlk : XThinnerBlock)
    (p : peerID) (s s' : Server) (a : ptr) (err : option error) :
  decodeXthinner E xThinnerBlk p s = Ret (a, err) s' → err = None.
Proof.
  rewrite decodeXthinner_run.
  assert (∀ txs s0 a0,
            (patch_loop 0 txs (DecodeXthinner E xThinnerBlk).2 a0 ;;;
             ret (a0, @None error)) s0 = Ret (a, err) s' → err = None)
    as Hpatch.
  { intros txs s0 a0. unfold bind, ret.
    destruct (patch_loop 0 txs _ a0 s0); [|done..]. congruence. }
  destruct (DecodeXthinner E xThinnerBlk).2 as [|m rest] eqn:Hm;
    [congruence|]. rewrite <- Hm in *.
  destruct (GetBlockTxs_answer E p _ _); [apply Hpatch|].
  destruct (supplier E _ _ (Peers E)); [apply Hpatch|].
  unfold ret. congruence.
Qed.

(** *** Who is charged during decode *)

Lemma banscore_calls (E : Collaborators) (q p : peerID) (id : ID)
    (missing : list N) :
  banscore q (GetBlockTxs_calls E p id missing)
  = 50 * N.of_nat (incomplete_answers E id missing q [p]).
Proof.
  unfold GetBlockTxs_calls, incomplete_answers. simpl.
  destruct (incomplete E p id missing) eqn:Hi; simpl.
  - destruct (decide (p = q)) as [->|Hne].
    + rewrite filter_cons_True by (split; [reflexivity|exact Hi]).
      simpl. lia.
    + rewrite filter_cons_False by (intros [? _]; congruence). simpl. lia.
  - rewrite filter_cons_False by (intros [_ ?]; congruence). simpl. lia.
Qed.

Lemma incomplete_answers_cons (E : Collaborators) (id : ID) (missing : list N)
    (q p : peerID) (qs : list peerID) :
  incomplete_answers E id missing q (p :: qs)
  = (incomplete_answers E id missing q [p]
     + incomplete_answers E id missing q qs)%nat.
Proof.
  unfold incomplete_answers.
  change (p :: qs) with ([p] ++ qs). by rewrite filter_app, length_app.
Qed.

Lemma banscore_requests (E : Collaborators) (q : peerID) (id : ID)
    (missing : list N) (qs : list peerID) :
  banscore q (requests E id missing qs)
  = 50 * N.of_nat (incomplete_answers E id missing q qs).
Proof.
  induction qs as [|p qs IH]; [done|].
  rewrite requests_cons, banscore_app, banscore_calls, IH.
  rewrite (incomplete_answers_cons _ _ _ _ p qs). lia.
Qed.

Lemma patch_then_ret_trace {A} (txs : list Transaction) (missing : list N)
    (a : ptr) (r : A) (s s' : Server) :
  final ((patch_loop 0 txs missing a ;;; ret r) s) = Some s' →
  trace s' = trace s.
Proof.
  unfold bind, ret.
  destruct (patch_loop 0 txs missing a s) as [[] s1|s1|s1|] eqn:Hp;
    simpl; intros Hf; simplify_eq;
    (destruct (patch_loop_rewrites txs 0 missing a s s')
       as (h & -> & _); [by rewrite Hp|done]).
Qed.




(** An announcer that answers with an incomplete list is charged 50 points
    by the client and 34 by [decodeXthinner], and 50 more when it is asked
    again as one of the connected peers; a connected peer that answers with
    an incomplete list is charged 50. *)
Lemma incomplete_answer_costs_more_than_50 :
  ∃ a s', decodeXthinner Scenario.stingy Scenario.announced 7 Scenario.fresh
          = Ret (a, None) s'
          ∧ trace s' = [EvGetBlockTxs 7 1007 [0]; EvIncreaseBanscore 7 50 0;
                        EvIncreaseBanscore 7 34 0;
                        EvGetBlockTxs 7 1007 [0]; EvIncreaseBanscore 7 50 0;
                        EvGetBlockTxs 8 1007 [0]; EvIncreaseBanscore 8 50 0;
                        EvGetBlockTxs 9 1007 [0]]
          ∧ banscore 7 (trace s') = 134
          ∧ banscore 8 (trace s') = 50.
Proof.
  eexists _, _. split; [reflexivity|]. split; [reflexivity|].
  split; reflexivity.
Qed.

(** ** processBlock: repairing a bad transaction root *)

(** The originator repairs the block: recheck, nobody is charged before it. *)
Lemma processBlock_originator_repairs (E : Collaborators) (s s1 : Server)
    (a a' : ptr) (b : Block) (p : peerID) :
  heap s !! a = Some b →
  CheckConnectBlock E (chain s) b = Some (RuleError ErrInvalidTxRoot) →
  fetchBlockTxids E (Some a) p (add_events [EvCheckConnectBlock b] s)
  = Ret (inl a') s1 →
  processBlock E a p false s = processBlockN E 1 a' p true s1.
Proof.
  intros Ha Hc Hf. unfold processBlock.
  rewrite (processBlockN_check E 1 a b) by done. rewrite Hc.
  unfold bind at 1. by rewrite Hf.
Qed.

(** The originator fails and no other peer is connected: 34 points and the
    rule error. *)
Lemma processBlock_no_helpers (E : Collaborators) (s s1 : Server)
    (a : ptr) (b : Block) (p : peerID) (e : error) :
  heap s !! a = Some b →
  CheckConnectBlock E (chain s) b = Some (RuleError ErrInvalidTxRoot) →
  fetchBlockTxids E (Some a) p (add_events [EvCheckConnectBlock b] s)
  = Ret (inr e) s1 →
  Peers E = [] →
  processBlock E a p false s
  = Ret (Some (RuleError ErrInvalidTxRoot))
      (add_events [EvIncreaseBanscore p 34 0] s1).
Proof.
  intros Ha Hc Hf Hp. unfold processBlock.
  rewrite (processBlockN_check E 1 a b) by done. rewrite Hc.
  unfold bind at 1. rewrite Hf. unfold bind.
  rewrite IncreaseBanscore_run by exact E.
  by rewrite repair_peers_loop_nil, Hp.
Qed.

(** C4: when the originator fails to repair a bad transaction root and at
    least one peer is connected, the loop over the peers hands the nil block
    of the failed attempt to [fetchBlockTxids], which dereferences it: the
    goroutine panics after charging the originator 34 points, and no peer is
    ever asked. *)
Theorem processBlock_helper_loop_panics (E : Collaborators) (s s1 : Server)
    (a : ptr) (b : Block) (p : peerID) (e : error) (pid : peerID)
    (others : list peerID) :
  heap s !! a = Some b →
  CheckConnectBlock E (chain s) b = Some (RuleError ErrInvalidTxRoot) →
  fetchBlockTxids E (Some a) p (add_events [EvCheckConnectBlock b] s)
  = Ret (inr e) s1 →
  Peers E = pid :: others →
  processBlock E a p false s
  = Panic (add_events [EvIncreaseBanscore p 34 0] s1).
Proof.
  intros Ha Hc Hf Hp. unfold processBlock.
  rewrite (processBlockN_check E 1 a b) by done. rewrite Hc.
  unfold bind at 1. rewrite Hf. unfold bind.
  rewrite IncreaseBanscore_run by exact E.
  by rewrite repair_peers_loop_nil, Hp.
Qed.

Lemma processBlock_helper_loop_panics_witness :
  processBlock Scenario.bad_root 0 7 false
    (Scenario.holding [Scenario.blockA])
  = Panic (add_events [EvIncreaseBanscore 7 34 0]
             (add_events [EvGetBlockTxids 7 1007]
                (add_events [EvCheckConnectBlock Scenario.blockA]
                   (Scenario.holding [Scenario.blockA])))).
Proof.
  apply (processBlock_helper_loop_panics Scenario.bad_root
           (Scenario.holding [Scenario.blockA]) _ 0
           Scenario.blockA 7 Scenario.unreachable_peer 8 []); reflexivity.
Defined.

(** ** The consensus waiter *)

Lemma orphans_loop_cons (E : Collaborators) (height : N) (id : ID)
    (o : orphanBlock) (rest : list (ID * orphanBlock)) (s : Server) :
  orphans_loop E ((id, o) :: rest) height s
  = match heap s !! blk o with
    | Some bo =>
        if decide (Height (Header bo) = uint32 (height + 1))
        then (processBlock E (blk o) (relayingPeer o) false ;;; ret tt) s
        else orphans_loop E rest height s
    | None => Panic s
    end.
Proof.
  simpl. unfold bind at 1. unfold load, deref.
  destruct (heap s !! blk o) as [bo|]; [|done]. unfold ret.
  by destruct (decide _).
Qed.

Lemma orphans_loop_cases (E : Collaborators) (height : N)
    (entries : list (ID * orphanBlock)) (s : Server) :
  Forall (λ entry, is_Some (heap s !! blk entry.2)) entries →
  (Forall (λ entry, ∀ bo, heap s !! blk entry.2 = Some bo →
                          Height (Header bo) ≠ uint32 (height + 1)) entries
   ∧ orphans_loop E entries height s = Ret tt s)
  ∨ (∃ id o bo, (id, o) ∈ entries
                ∧ heap s !! blk o = Some bo
                ∧ Height (Header bo) = uint32 (height + 1)
                ∧ orphans_loop E entries height s
                  = (processBlock E (blk o) (relayingPeer o) false ;;;
                     ret tt) s).
Proof.
  induction 1 as [|[id o] rest [bo Hbo] _ IH].
  { left. by split. }
  simpl in Hbo. rewrite orphans_loop_cons, Hbo.
  destruct (decide (Height (Header bo) = uint32 (height + 1))) as [Hh|Hh].
  - right. exists id, o, bo. split; [apply list_elem_of_here|]. by split.
  - destruct IH as [[Hall Hr] | (id' & o' & bo' & Hin & Hbo' & Hh' & Hr)].
    + left. split; [|done]. constructor; [|done]. simpl.
      intros bo' Hbo'. congruence.
    + right. exists id', o', bo'.
      split; [by apply list_elem_of_further|]. by split.
Qed.

Lemma waiter_unfold (E : Collaborators) (a : ptr) (b : Block)
    (status : Status) (s : Server) :
  heap s !! a = Some b →
  inventoryLock s = unlocked →
  orphanLock s = unlocked →
  waiter E a status s
  = (orphans_loop E (rangeOrphans E (orphanBlocks s)) (Height (Header b)) ;;;
     orphanLock_Unlock) (resolved E b status s).
Proof.
  intros Ha Hinv Horph. unfold waiter. unfold bind at 1.
  rewrite (load_run a b) by done.
  destruct s; simpl in *; subst.
  unfold waiter_cleanup, resolved. destruct status.
  - unfold call_ConnectBlock, bind, emit, modify, get, ret, inventoryLock_Lock,
      inventoryLock_Unlock, orphanLock_Lock, acquire, release, add_events.
    simpl. by destruct (ConnectBlock E chain0 b).
  - reflexivity.
Qed.

Lemma resolved_activeInventory E b status s :
  activeInventory (resolved E b status s)
  = delete (Block_ID E b) (activeInventory s).
Proof.
  destruct s, status; simpl; [|done]. unfold resolved. simpl.
  by destruct (ConnectBlock E chain0 b).
Qed.

Lemma resolved_orphans E b status s :
  orphanBlocks (resolved E b status s) = orphanBlocks s
  ∧ orphanLock (resolved E b status s) = {| readers := 0; writer := true |}
  ∧ inventoryLock (resolved E b status s) = inventoryLock s
  ∧ heap (resolved E b status s) = heap s.
Proof.
  destruct s, status; simpl; [|done]. unfold resolved. simpl.
  by destruct (ConnectBlock E chain0 b).
Qed.

Lemma rangeOrphans_allocated (E : Collaborators) (s : Server)
    (h : list Block) :
  rangeOrphans_visits_entries E →
  orphans_allocated s →
  h = heap s →
  Forall (λ entry, is_Some (h !! blk entry.2))
    (rangeOrphans E (orphanBlocks s)).
Proof.
  intros Hvisit Halloc ->. apply Forall_forall. intros [id o] Hin.
  apply Hvisit in Hin. by apply (Halloc id).
Qed.

(** C2 (as the code has it): on either status the waiter removes the block
    from [activeInventory] and then walks the orphans; it re-enters
    [processBlock] for the first orphan it meets at the next height, and for
    no other. *)
Theorem waiter_reenters_one_orphan (E : Collaborators) (s : Server)
    (a : ptr) (b : Block) (status : Status) :
  rangeOrphans_visits_entries E →
  heap s !! a = Some b →
  orphans_allocated s →
  inventoryLock s = unlocked →
  orphanLock s = unlocked →
  let s2 := resolved E b status s in
  let next := uint32 (Height (Header b) + 1) in
  activeInventory s2 = delete (Block_ID E b) (activeInventory s)
  ∧ (((∀ id o bo, orphanBlocks s !! id = Some o →
                  heap s !! blk o = Some bo →
                  Height (Header bo) ≠ next)
      ∧ waiter E a status s = Ret tt (set_orphanLock unlocked s2))
     ∨ (∃ id o bo, orphanBlocks s !! id = Some o
                   ∧ heap s !! blk o = Some bo
                   ∧ Height (Header bo) = next
                   ∧ waiter E a status s
                     = (processBlock E (blk o) (relayingPeer o) false ;;;
                        orphanLock_Unlock) s2)).
Proof.
  intros Hvisit Ha Halloc Hinv Horph s2 next.
  split; [apply resolved_activeInventory|].
  rewrite (waiter_unfold E a b) by done. fold s2.
  destruct (resolved_orphans E b status s) as (Ho & Hl & _ & Hh).
  fold s2 in Ho, Hl, Hh.
  unfold bind.
  destruct (orphans_loop_cases E (Height (Header b))
              (rangeOrphans E (orphanBlocks s)) s2)
    as [[Hall Hr] | (id & o & bo & Hin & Hbo & Hhe & Hr)].
  { by apply rangeOrphans_allocated. }
  - rewrite Hr. left. split.
    + intros id o bo Hlook Hbo. apply Hvisit in Hlook.
      apply (proj1 (Forall_forall _ _) Hall (id, o) Hlook).
      change (heap s2 !! blk o = Some bo). by rewrite Hh.
    + unfold orphanLock_Unlock, release. rewrite Hl. reflexivity.
  - rewrite Hr. right. exists id, o, bo. split; [by apply Hvisit|].
    split; [by rewrite <- Hh|]. split; [done|].
    unfold bind. by destruct (processBlock E (blk o) (relayingPeer o) false s2).
Qed.

Lemma map_to_list_visits_entries (m : gmap ID orphanBlock) (id : ID)
    (o : orphanBlock) :
  (id, o) ∈ map_to_list m ↔ m !! id = Some o.
Proof. apply elem_of_map_to_list. Qed.

Lemma waiting_allocated (connected : list Block) :
  orphans_allocated (Scenario.waiting connected).
Proof.
  intros id o Hlook. simpl in Hlook.
  apply lookup_singleton_Some in Hlook as [_ <-]. by eexists.
Qed.

Lemma waiter_reenters_one_orphan_witness :
  let E := Scenario.after_rival in
  let s := Scenario.waiting [Scenario.rival] in
  let s2 := resolved E Scenario.parent StatusRejected s in
  activeInventory s2 = delete (Block_ID E Scenario.parent) (activeInventory s)
  ∧ (((∀ id o bo, orphanBlocks s !! id = Some o →
                  heap s !! blk o = Some bo → Height (Header bo) ≠ 2)
      ∧ waiter E 0 StatusRejected s = Ret tt (set_orphanLock unlocked s2))
     ∨ (∃ id o bo, orphanBlocks s !! id = Some o
                   ∧ heap s !! blk o = Some bo
                   ∧ Height (Header bo) = 2
                   ∧ waiter E 0 StatusRejected s
                     = (processBlock E (blk o) (relayingPeer o) false ;;;
                        orphanLock_Unlock) s2)).
Proof.
  intros E s s2.
  apply (waiter_reenters_one_orphan E s 0 Scenario.parent StatusRejected).
  - intros m id o. apply map_to_list_visits_entries.
  - reflexivity.
  - apply waiting_allocated.
  - reflexivity.
  - reflexivity.
Defined.

(** C2 (as stated) fails: after [StatusRejected] the waiter re-enters
    [processBlock] for the stored orphan at the next height, and here even
    charges the orphan's relaying peer. *)
Lemma rejected_block_reenters_orphan :
  trace <$> final (waiter Scenario.after_rival 0 StatusRejected
                     (Scenario.waiting [Scenario.rival]))
  = Some [EvCheckConnectBlock Scenario.orphan; EvIncreaseBanscore 9 0 10].
Proof. vm_compute. reflexivity. Qed.

(** ** Orphans and the lock held by the waiter *)

(** C6: the waiter holds the orphan lock while it re-enters [processBlock]
    for the orphan at the next height.  When that orphan now passes
    [CheckConnectBlock] it is inserted into [activeInventory], and the
    deletion from [orphanBlocks] is never reached: the goroutine is parked
    with the orphan in both maps. *)
Theorem resubmitted_orphan_stays_in_both_maps (E : Collaborators) (s : Server)
    (a : ptr) (b : Block) (status : Status) (o : orphanBlock) (bo : Block) :
  rangeOrphans_visits_entries E →
  heap s !! a = Some b →
  orphans_allocated s →
  inventoryLock s = unlocked →
  orphanLock s = unlocked →
  orphanBlocks s !! Block_ID E bo = Some o →
  heap s !! blk o = Some bo →
  Height (Header bo) = uint32 (Height (Header b) + 1) →
  (∀ id o' bo', orphanBlocks s !! id = Some o' →
                heap s !! blk o' = Some bo' →
                Height (Header bo') = uint32 (Height (Header b) + 1) →
                o' = o) →
  CheckConnectBlock E (chain (resolved E b status s)) bo = None →
  ∃ s', waiter E a status s = Blocked s'
        ∧ orphanBlocks s' !! Block_ID E bo = Some o
        ∧ activeInventory s' !! Block_ID E bo = Some (blk o)
        ∧ heap s' !! blk o = Some bo.
Proof.
  intros Hvisit Ha Halloc Hinv Horph Hstored Hbo Hnext Honly Hc.
  rewrite (waiter_unfold E a b) by done.
  destruct (resolved_orphans E b status s) as (Ho & Hl & Hi & Hh).
  set (s2 := resolved E b status s) in *.
  unfold bind.
  destruct (orphans_loop_cases E (Height (Header b))
              (rangeOrphans E (orphanBlocks s)) s2)
    as [[Hall Hr] | (id & o' & bo' & Hin & Hbo' & Hhe & Hr)].
  { by apply rangeOrphans_allocated. }
  - exfalso. apply Hvisit in Hstored.
    apply (proj1 (Forall_forall _ _) Hall _ Hstored bo); [|done].
    change (heap s2 !! blk o = Some bo). by rewrite Hh.
  - rewrite Hr. apply Hvisit in Hin. rewrite Hh in Hbo'.
    pose proof (Honly id o' bo' Hin Hbo' Hhe) as ->.
    assert (bo' = bo) as -> by congruence.
    unfold bind.
    rewrite (processBlock_registered E s2 (blk o) bo);
      [|by rewrite Hh|done|by rewrite Hi|by rewrite Hl].
    eexists. split; [reflexivity|]. split; [|split].
    + destruct s2; simpl in *. by rewrite Ho.
    + destruct s2; simpl. apply lookup_insert_eq.
    + destruct s2; simpl in *. by rewrite Hh.
Qed.

Lemma resubmitted_orphan_stays_in_both_maps_witness :
  ∃ s', waiter Scenario.by_height 0 StatusFinalized (Scenario.waiting [])
        = Blocked s'
        ∧ orphanBlocks s' !! Block_ID Scenario.by_height Scenario.orphan
          = Some Scenario.orphan_entry
        ∧ activeInventory s' !! Block_ID Scenario.by_height Scenario.orphan
          = Some (blk Scenario.orphan_entry)
        ∧ heap s' !! blk Scenario.orphan_entry = Some Scenario.orphan.
Proof.
  apply (resubmitted_orphan_stays_in_both_maps Scenario.by_height
           (Scenario.waiting []) 0 Scenario.parent StatusFinalized
           Scenario.orphan_entry Scenario.orphan).
  - intros m id o. apply map_to_list_visits_entries.
  - reflexivity.
  - apply waiting_allocated.
  - reflexivity.
  - reflexivity.
  - vm_compute. reflexivity.
  - reflexivity.
  - reflexivity.
  - intros id o' bo' Hlook _ _. simpl in Hlook.
    apply lookup_singleton_Some in Hlook. by destruct Hlook.
  - vm_compute. reflexivity.
Defined.

(** ** fetchBlockTxids: the order of the transactions *)

(** C8 (as the code has it): [fetchBlockTxids] writes whatever the peer
    supplies at the mismatching indices, without looking at its id.  When
    each supplied transaction has the id listed at the index it was requested
    for, the returned block carries the listed ids in the listed order. *)
Theorem fetchBlockTxids_order (E : Collaborators) (s s' : Server)
    (a a' : ptr) (b : Block) (p : peerID) (txids : list ID) :
  heap s !! a = Some b →
  N.of_nat (length (Transactions b)) ≤ uint32_mod →
  GetBlockTxids_answer E p (Block_ID E b) = inl txids →
  (∀ missing txs, GetBlockTxs_answer E p (Block_ID E b) missing = inl txs →
                  supplies_listed E txids missing txs) →
  fetchBlockTxids E (Some a) p s = Ret (inl a') s' →
  ∃ b', heap s' !! a' = Some b' ∧ tx_ID E <$> Transactions b' = txids.
Proof.
  intros Ha Hbound Hids Hsup Hfetch.
  rewrite (fetchBlockTxids_run E a b) in Hfetch by done.
  unfold fetchBlockTxids_answer in Hfetch. rewrite Hids in Hfetch.
  destruct (decide (length txids ≠ length (Transactions b))) as [|Hlen];
    [done|]. apply dec_stable in Hlen.
  pose proof (missing_loop_is_mismatches E txids _ Hlen) as Hm.
  pose proof (mismatches_in_range E (Transactions b) txids) as Hrange.
  destruct (mismatches E (Transactions b) txids) as [|m0 rest0] eqn:Hmiss;
    [done|]. rewrite <- Hmiss in *. clear Hmiss m0 rest0.
  destruct (GetBlockTxs_answer E p (Block_ID E b)
              (mismatches E (Transactions b) txids)) as [txs|e] eqn:Htxs;
    [|done].
  pose proof (GetBlockTxs_answer_length _ _ _ _ _ Htxs) as [Hl _].
  destruct (patched_slice_total txs 0 (mismatches E (Transactions b) txids)
              (Transactions b)) as [cur Hp]; [simpl; lia|done|].
  rewrite Hp in Hfetch. simpl in Hfetch. injection Hfetch as <- <-.
  eexists. split.
  { simpl. apply list_lookup_insert_eq. by eapply lookup_lt_Some. }
  simpl.
  destruct (missing_loop_covers E txids _ _ _ _ Hm) as (extra & Hex & Hcov);
    [simpl; lia|]. simpl in Hex. subst extra.
  destruct (patched_slice_listed E txids _ _ _ _ _ Hp) as (Hl' & Hgood).
  { rewrite drop_0. by apply Hsup. }
  rewrite drop_0 in Hgood.
  apply list_eq. intros j. rewrite list_lookup_fmap.
  destruct (decide (j < length (Transactions b))%nat) as [Hj|Hj].
  - apply Hgood; [done|].
    destruct (lookup_lt_is_Some_2 _ _ Hj) as [tx Htx].
    destruct (Hcov j tx Htx) as [Hlisted|Hin]; [|by right].
    left. unfold listed. simpl in Hlisted. by rewrite Htx, Hlisted.
  - rewrite (lookup_ge_None_2 cur) by lia.
    by rewrite (lookup_ge_None_2 txids) by lia.
Qed.

Lemma fetchBlockTxids_order_witness :
  ∃ b', heap (add_events [EvGetBlockTxids 7 1007; EvGetBlockTxs 7 1007 [1]]
                (Scenario.holding [Scenario.block 1 7 [10; 12]])) !! 0%nat
        = Some b'
        ∧ tx_ID Scenario.honest <$> Transactions b' = [10; 12].
Proof.
  apply (fetchBlockTxids_order Scenario.honest
           (Scenario.holding [Scenario.blockA])
           (add_events [EvGetBlockTxids 7 1007; EvGetBlockTxs 7 1007 [1]]
              (Scenario.holding [Scenario.block 1 7 [10; 12]]))
           0 0 Scenario.blockA 7 [10; 12]).
  - reflexivity.
  - vm_compute. discriminate.
  - reflexivity.
  - intros missing txs Hans.
    assert (Scenario.listed_txs 7 1007 missing = Scenario.supply txs) as Hl.
    { revert Hans. unfold GetBlockTxs_answer. simpl.
      unfold Scenario.listed_txs, Scenario.supply.
      destruct (mapM Scenario.listed_tx missing) as [txs'|]; simpl;
        [|discriminate].
      destruct (decide (length txs' ≠ length missing)); [discriminate|].
      by intros [= ->]. }
    revert Hl. unfold Scenario.listed_txs, Scenario.supply.
    destruct (mapM Scenario.listed_tx missing) as [txs'|] eqn:Hmap;
      [|discriminate].
    intros [= <-]. apply mapM_Some_1 in Hmap.
    eapply Forall2_impl; [exact Hmap|].
    intros m t. unfold Scenario.listed_tx.
    destruct (_ !! N.to_nat m); [|discriminate]. by intros [= <-].
  - reflexivity.
Defined.

(** C8 (as stated) fails: the peer lists id 12 for index 1 and supplies a
    transaction with id 13; [fetchBlockTxids] returns the block with id 13 at
    index 1. *)
Lemma fetchBlockTxids_keeps_unlisted_transaction :
  ∃ a' b' s',
    GetBlockTxids_answer Scenario.forging 7
      (Block_ID Scenario.forging Scenario.blockA) = inl [10; 12]
    ∧ fetchBlockTxids Scenario.forging (Some 0%nat) 7
        (Scenario.holding [Scenario.blockA])
      = Ret (inl a') s'
    ∧ heap s' !! a' = Some b'
    ∧ tx_ID Scenario.forging <$> Transactions b' = [10; 13].
Proof.
  eexists _, _, _. split; [reflexivity|]. split; [reflexivity|].
  split; reflexivity.
Qed.

(** * More of the server *)

(** ** What processBlock may change *)

Lemma set_heap_id (s : Server) : set_heap (heap s) s = s.
Proof. by destruct s. Qed.

Lemma set_heap_set_heap (h1 h2 : list Block) (s : Server) :
  set_heap h2 (set_heap h1 s) = set_heap h2 s.
Proof. reflexivity. Qed.

Lemma keeps_ret {A} (R : Server → Server → Prop) (a : A) :
  (∀ s, R s s) → keeps R (ret a).
Proof. intros Hrefl s s' [= <-]. apply Hrefl. Qed.

Lemma keeps_bind {A B} (R : Server → Server → Prop) (m : M A) (k : A → M B) :
  (∀ s1 s2 s3, R s1 s2 → R s2 s3 → R s1 s3) →
  keeps R m → (∀ a, keeps R (k a)) →
  keeps R (x <- m ;; k x).
Proof.
  intros Htrans Hm Hk s s'. unfold bind.
  destruct (m s) as [a s1|s1|s1|] eqn:Hms; simpl; intros Hf.
  - eapply Htrans; [apply (Hm s s1); by rewrite Hms|by apply (Hk a)].
  - apply (Hm s). rewrite Hms. done.
  - apply (Hm s). rewrite Hms. done.
  - done.
Qed.

Lemma fetch_call_processBlock_call (p : peerID) (e : event) :
  fetchBlockTxids_call p e → processBlock_call p e.
Proof. intros [He| ->]; [by destruct e|done]. Qed.

Lemma calls_only_refl (a : ptr) (p : peerID) (s : Server) :
  calls_only a p s s.
Proof.
  exists [], (heap s). rewrite set_heap_id, add_events_nil.
  split; [done|]. split; [constructor|apply rewrites_only_refl].
Qed.

Lemma calls_only_trans (a : ptr) (p : peerID) (s1 s2 s3 : Server) :
  calls_only a p s1 s2 → calls_only a p s2 s3 → calls_only a p s1 s3.
Proof.
  intros (evs1 & h1 & -> & F1 & R1) (evs2 & h2 & -> & F2 & R2).
  exists (evs1 ++ evs2), h2. split.
  - destruct s1. unfold add_events, set_trace, set_heap. simpl.
    by rewrite app_assoc.
  - split; [by apply Forall_app|]. simpl in R2.
    by eapply rewrites_only_trans.
Qed.

Lemma calls_only_events (a : ptr) (p : peerID) (evs : list event)
    (s : Server) :
  Forall (processBlock_call p) evs → calls_only a p s (add_events evs s).
Proof.
  intros Hevs. exists evs, (heap s). rewrite set_heap_id.
  split; [done|]. split; [done|apply rewrites_only_refl].
Qed.

Lemma repair_only_calls_only (a : ptr) (p : peerID) (s s' : Server) :
  repair_only a p s s' → calls_only a p s s'.
Proof.
  intros (evs & h & -> & F & R). exists evs, h. split; [done|].
  split; [|done]. eapply Forall_impl; [exact F|].
  apply fetch_call_processBlock_call.
Qed.

(** The block [fetchBlockTxids] leaves behind has the header and the number
    of transactions of the block it was given. *)
Lemma fetchBlockTxids_answer_shape (E : Collaborators) (p : peerID)
    (b b' : Block) :
  fetchBlockTxids_answer E p b = inl b' → same_shape b b'.
Proof.
  unfold fetchBlockTxids_answer.
  destruct (GetBlockTxids_answer E p (Block_ID E b)) as [txids|]; [|done].
  destruct (decide _); [done|].
  destruct (mismatches E (Transactions b) txids) as [|m rest]; [done|].
  destruct (GetBlockTxs_answer E p (Block_ID E b) (m :: rest)) as [txs|];
    [|done].
  intros [= <-]. split; [done|]. simpl.
  destruct (patched_slice 0 txs (m :: rest) (Transactions b)) as [cur|] eqn:Hp;
    [|done].
  simpl. by eapply patched_slice_length.
Qed.

Lemma fetchBlockTxids_calls_fetch (E : Collaborators) (p : peerID)
    (b : Block) :
  Forall (fetchBlockTxids_call p) (fetchBlockTxids_calls E p b).
Proof.
  unfold fetchBlockTxids_calls. constructor; [by left|].
  destruct (GetBlockTxids_answer E p (Block_ID E b)) as [txids|];
    [|constructor].
  destruct (decide _); [constructor|].
  destruct (mismatches E (Transactions b) txids); [constructor|].
  apply GetBlockTxs_calls_fetch.
Qed.

Lemma rewrites_only_shape (a : ptr) (h : list Block) (b b' : Block) :
  h !! a = Some b → same_shape b b' → rewrites_only a h (<[a := b']> h).
Proof.
  intros Ha [Hh Hl]. destruct b' as [hd cur]. simpl in *. subst hd.
  by apply rewrites_only_insert.
Qed.

(** [fetchBlockTxids] changes nothing but the trace and the transactions of
    the block it was given. *)
Lemma fetchBlockTxids_repair_only (E : Collaborators) (a : ptr) (p : peerID) :
  keeps (repair_only a p) (fetchBlockTxids E (Some a) p).
Proof.
  intros s s'. destruct (heap s !! a) as [b|] eqn:Ha.
  - rewrite (fetchBlockTxids_run E a b) by done.
    pose proof (fetchBlockTxids_calls_fetch E p b) as Hcalls.
    destruct (fetchBlockTxids_answer E p b) as [b'|e] eqn:Hans;
      simpl; intros [= <-].
    + exists (fetchBlockTxids_calls E p b), (<[a := b']> (heap s)).
      split; [done|]. split; [done|].
      apply rewrites_only_shape with b; [done|].
      by eapply fetchBlockTxids_answer_shape.
    + exists (fetchBlockTxids_calls E p b), (heap s).
      rewrite set_heap_id. split; [done|]. split; [done|].
      apply rewrites_only_refl.
  - rewrite fetchBlockTxids_dangling by done. intros [= <-].
    exists [], (heap s). rewrite set_heap_id, add_events_nil.
    split; [done|]. split; [constructor|apply rewrites_only_refl].
Qed.

Lemma processBlock_effect_refl (E : Collaborators) (a : ptr) (p : peerID)
    (s : Server) :
  processBlock_effect E a p s s.
Proof.
  split; try done.
  - exists []. by rewrite app_nil_r.
  - apply rewrites_only_refl.
  - intros id a0 ?. by left.
  - intros id o ?. by left.
  - intros id ?. by left.
Qed.

Lemma rewrites_only_lookup (a a' : ptr) (h h' : list Block) (b' : Block) :
  rewrites_only a h h' → h' !! a' = Some b' →
  ∃ b, h !! a' = Some b ∧ same_shape b b'.
Proof.
  intros (Hlen & Hother & Hat) Hb'.
  destruct (decide (a' = a)) as [->|Hne].
  - destruct (lookup_lt_is_Some_2 h a) as [b Hb].
    { rewrite <- Hlen. by eapply lookup_lt_Some. }
    exists b. split; [done|].
    destruct (Hat b Hb) as (b2 & Hb2 & Hs). congruence.
  - exists b'. split; [by rewrite <- Hother|]. by split.
Qed.

(** Calls and rewritten transactions before a change of the maps do not
    alter what that change did. *)
Lemma processBlock_effect_after_calls (E : Collaborators) (a : ptr)
    (p : peerID) (s s1 s' : Server) :
  calls_only a p s s1 → processBlock_effect E a p s1 s' →
  processBlock_effect E a p s s'.
Proof.
  intros (evs & h & -> & Hevs & Hh) [Hc Hi Hil Ht Hp Hcl Htr Hhp Hai Hob Hik Hok].
  simpl in *. split; try done.
  - destruct Htr as (evs' & Htr & Hevs'). exists (evs ++ evs').
    split; [by rewrite Htr, app_assoc|by apply Forall_app].
  - by eapply rewrites_only_trans.
Qed.

Lemma processBlock_effect_calls (E : Collaborators) (a : ptr) (p : peerID)
    (s s' : Server) :
  calls_only a p s s' → processBlock_effect E a p s s'.
Proof.
  intros H. eapply processBlock_effect_after_calls; [exact H|].
  apply processBlock_effect_refl.
Qed.

(** The orphan path: the entry is written, or the call parks on the lock or
    stops on the pointer before it. *)
Lemma store_orphan_effect (E : Collaborators) (a : ptr) (b : Block)
    (p : peerID) (s s' : Server) :
  heap s !! a = Some b →
  CheckConnectBlock E (chain s) b = Some OrphanBlockError →
  final (store_orphan E a p s) = Some s' →
  processBlock_effect E a p s s'.
Proof.
  intros Ha Hc. unfold store_orphan, orphanLock_Lock, orphanLock_Unlock,
    acquire, release, load, deref, modify, bind, ret.
  destruct (mu_Lock (orphanLock s)) as [m|] eqn:Hm; simpl.
  2:{ intros [= <-]. apply processBlock_effect_refl. }
  rewrite Ha. simpl.
  assert (mu_Unlock m = Some {| readers := readers m; writer := false |})
    as Hu.
  { unfold mu_Lock in Hm. destruct (writer (orphanLock s)); [done|].
    destruct (readers (orphanLock s)); [|done]. by injection Hm as <-. }
  rewrite Hu. simpl. intros [= <-].
  split; simpl; try done.
  - exists []. by rewrite app_nil_r.
  - apply rewrites_only_refl.
  - intros id a0 ?. by left.
  - intros id o Hl. destruct (decide (id = Block_ID E b)) as [->|Hne].
    + rewrite lookup_insert_eq in Hl. injection Hl as <-. right. simpl.
      repeat split; try done. by exists b.
    + rewrite lookup_insert_ne in Hl by done. by left.
  - intros id Hs. left. destruct (decide (id = Block_ID E b)) as [->|Hne].
    + rewrite lookup_insert_eq. by eexists.
    + by rewrite lookup_insert_ne.
Qed.

(** The accept path: the entry is written and the orphan deleted, or the
    call parks on one of the two locks or stops on the pointer. *)
Lemma submit_effect (E : Collaborators) (a : ptr) (b : Block) (p : peerID)
    (s s' : Server) :
  heap s !! a = Some b →
  CheckConnectBlock E (chain s) b = None →
  final (submit E a s) = Some s' →
  processBlock_effect E a p s s'.
Proof.
  intros Ha Hc. unfold submit, inventoryLock_Lock, inventoryLock_Unlock,
    orphanLock_Lock, orphanLock_Unlock, acquire, release, load, deref, emit,
    modify, bind, ret.
  destruct (mu_Lock (inventoryLock s)) as [m|] eqn:Hm; simpl.
  2:{ intros [= <-]. apply processBlock_effect_refl. }
  rewrite Ha. simpl.
  assert (∀ l m', mu_Lock l = Some m' →
            mu_Unlock m' = Some {| readers := readers m'; writer := false |})
    as Hunlock.
  { intros l m'. unfold mu_Lock. destruct (writer l); [done|].
    destruct (readers l); [|done]. by intros [= <-]. }
  rewrite (Hunlock _ _ Hm). simpl.
  assert (∀ id, is_Some (activeInventory s !! id) →
                is_Some (<[Block_ID E b := a]> (activeInventory s) !! id))
    as Hkept.
  { intros id Hs. destruct (decide (id = Block_ID E b)) as [->|Hne].
    - rewrite lookup_insert_eq. by eexists.
    - by rewrite lookup_insert_ne. }
  assert (∀ id a0, <[Block_ID E b := a]> (activeInventory s) !! id = Some a0 →
            activeInventory s !! id = Some a0
            ∨ (a0 = a ∧ ∃ b0, heap s !! a0 = Some b0
                              ∧ CheckConnectBlock E (chain s) b0 = None
                              ∧ id = Block_ID E b0)) as Hnew.
  { intros id a0 Hl. destruct (decide (id = Block_ID E b)) as [->|Hne].
    - rewrite lookup_insert_eq in Hl. injection Hl as <-. right.
      split; [done|]. by exists b.
    - rewrite lookup_insert_ne in Hl by done. by left. }
  destruct (mu_Lock (orphanLock s)) as [m2|] eqn:Hm2; simpl.
  2:{ intros [= <-]. split; simpl; try done.
      - exists []. by rewrite app_nil_r.
      - apply rewrites_only_refl.
      - intros id o ?. by left.
      - intros id ?. by left. }
  rewrite (Hunlock _ _ Hm2). simpl. intros [= <-].
  split; simpl; try done.
  - exists [EvNewBlock (Block_ID E b) true]. split; [done|].
    by repeat constructor.
  - apply rewrites_only_refl.
  - intros id o Hl. left.
    destruct (decide (id = Block_ID E b)) as [->|Hne].
    + by rewrite lookup_delete_eq in Hl.
    + by rewrite lookup_delete_ne in Hl.
  - intros id Hs. destruct (decide (id = Block_ID E b)) as [->|Hne].
    + right. rewrite lookup_insert_eq. by eexists.
    + left. by rewrite lookup_delete_ne.
Qed.

Lemma calls_only_check (a : ptr) (p : peerID) (b : Block) (s : Server) :
  calls_only a p s (add_events [EvCheckConnectBlock b] s).
Proof. apply calls_only_events. by repeat constructor. Qed.

Lemma calls_only_charge (a : ptr) (p : peerID) (n m : N) (s : Server) :
  calls_only a p s (add_events [EvIncreaseBanscore p n m] s).
Proof. apply calls_only_events. by repeat constructor. Qed.

(** A recheck: one check, then the orphan path, a charge or the accept
    path. *)
Lemma processBlockN_recheck_effect (E : Collaborators) (n : nat) (a : ptr)
    (p : peerID) :
  keeps (processBlock_effect E a p) (processBlockN E n a p true).
Proof.
  intros s s'. destruct n as [|n]; [done|].
  destruct (heap s !! a) as [b|] eqn:Ha.
  2:{ rewrite processBlockN_dangling by done. intros [= <-].
      apply processBlock_effect_refl. }
  rewrite (processBlockN_check E n a b) by done.
  pose proof (calls_only_check a p b s) as Hcheck.
  set (s0 := add_events [EvCheckConnectBlock b] s) in *.
  destruct (CheckConnectBlock E (chain s) b) as [[|code|msg]|] eqn:Hc.
  - unfold bind, ret. intros Hf.
    eapply processBlock_effect_after_calls; [exact Hcheck|].
    apply (store_orphan_effect E a b); [done|done|].
    by destruct (store_orphan E a p s0).
  - unfold bind. rewrite IncreaseBanscore_run by exact E.
    intros [= <-]. apply processBlock_effect_calls.
    eapply calls_only_trans; [exact Hcheck|apply calls_only_charge].
  - intros [= <-]. by apply processBlock_effect_calls.
  - intros Hf. eapply processBlock_effect_after_calls; [exact Hcheck|].
    by apply (submit_effect E a b).
Qed.

Lemma processBlockN_effect (E : Collaborators) (n : nat) (a : ptr)
    (p : peerID) (recheck : bool) :
  keeps (processBlock_effect E a p) (processBlockN E n a p recheck).
Proof.
  destruct recheck; [apply processBlockN_recheck_effect|].
  intros s s'. destruct n as [|n]; [done|].
  destruct (heap s !! a) as [b|] eqn:Ha.
  2:{ rewrite processBlockN_dangling by done. intros [= <-].
      apply processBlock_effect_refl. }
  rewrite (processBlockN_check E n a b) by done.
  pose proof (calls_only_check a p b s) as Hcheck.
  set (s0 := add_events [EvCheckConnectBlock b] s) in *.
  destruct (CheckConnectBlock E (chain s) b) as [[|code|msg]|] eqn:Hc.
  - unfold bind, ret. intros Hf.
    eapply processBlock_effect_after_calls; [exact Hcheck|].
    apply (store_orphan_effect E a b); [done|done|].
    by destruct (store_orphan E a p s0).
  - destruct code as [| |k].
    + unfold bind at 1.
      pose proof (fetchBlockTxids_repair_only E a p s0) as Hfetch.
      pose proof (fetchBlockTxids_terminates E (Some a) p s0) as Hterm.
      destruct (fetchBlockTxids E (Some a) p s0) as [[a'|e] s1|s1|s1|] eqn:Hr;
        try done.
      * assert (a' = a) as ->.
        { destruct (heap s0 !! a) as [b0|] eqn:Ha0.
          - rewrite (fetchBlockTxids_run E a b0) in Hr by done.
            destruct (fetchBlockTxids_answer E p b0); congruence.
          - rewrite fetchBlockTxids_dangling in Hr by done. done. }
        intros Hf. eapply processBlock_effect_after_calls.
        { eapply calls_only_trans; [exact Hcheck|].
          apply repair_only_calls_only. by apply Hfetch. }
        by eapply processBlockN_recheck_effect.
      * unfold bind. rewrite IncreaseBanscore_run by exact E.
        rewrite repair_peers_loop_nil. intros Hf.
        apply processBlock_effect_calls.
        eapply calls_only_trans; [exact Hcheck|].
        eapply calls_only_trans;
          [apply repair_only_calls_only; by apply Hfetch|].
        assert (s' = add_events [EvIncreaseBanscore p 34 0] s1) as ->
          by (destruct (Peers E); simpl in Hf; congruence).
        apply calls_only_charge.
      * intros [= <-]. apply processBlock_effect_calls.
        eapply calls_only_trans; [exact Hcheck|].
        apply repair_only_calls_only. by apply Hfetch.
      * intros [= <-]. apply processBlock_effect_calls.
        eapply calls_only_trans; [exact Hcheck|].
        apply repair_only_calls_only. by apply Hfetch.
    + unfold bind. rewrite IncreaseBanscore_run by exact E.
      intros [= <-]. apply processBlock_effect_calls.
      eapply calls_only_trans; [exact Hcheck|apply calls_only_charge].
    + unfold bind. rewrite IncreaseBanscore_run by exact E.
      intros [= <-]. apply processBlock_effect_calls.
      eapply calls_only_trans; [exact Hcheck|apply calls_only_charge].
  - intros [= <-]. by apply processBlock_effect_calls.
  - intros Hf. eapply processBlock_effect_after_calls; [exact Hcheck|].
    by apply (submit_effect E a b).
Qed.

Lemma final_exists {A} (o : outcome A) : o ≠ Diverge → ∃ s', final o = Some s'.
Proof. destruct o; try done; by eexists. Qed.

Lemma processBlock_final (E : Collaborators) (a : ptr) (p : peerID)
    (recheck : bool) (s : Server) :
  ∃ s', final (processBlock E a p recheck s) = Some s'
        ∧ processBlock_effect E a p s s'.
Proof.
  destruct (final_exists (processBlock E a p recheck s)) as [s' Hf].
  { apply processBlock_terminates. }
  exists s'. split; [done|]. by eapply (processBlockN_effect E 2).
Qed.

Lemma charges_banscore (p q : peerID) (evs : list event) :
  Forall (processBlock_call p) evs → q ≠ p →
  banscore q evs = 0 ∧ transient_score q evs = 0.
Proof.
  intros Hevs Hne. induction Hevs as [|e evs He _ [IH1 IH2]]; [done|].
  unfold banscore, transient_score in *. simpl. rewrite IH1, IH2.
  destruct e; simpl in *; try done. subst.
  by rewrite !decide_False by done.
Qed.

(** X1: whatever the block, the answers of the peers and the way the call
    ends, [processBlock] changes no score but the relaying peer's. *)
Theorem processBlock_charges_only_relayer (E : Collaborators) (s : Server)
    (a : ptr) (p : peerID) (recheck : bool) :
  ∃ s', final (processBlock E a p recheck s) = Some s'
        ∧ ∀ q, q ≠ p →
               banscore q (trace s') = banscore q (trace s)
               ∧ transient_score q (trace s') = transient_score q (trace s).
Proof.
  destruct (processBlock_final E a p recheck s) as (s' & Hf & Heff).
  exists s'. split; [done|]. intros q Hq.
  destruct (pe_trace _ _ _ _ _ Heff) as (evs & -> & Hevs).
  rewrite banscore_app, transient_score_app.
  destruct (charges_banscore p q evs Hevs Hq) as [-> ->]. lia.
Qed.

Lemma processBlock_charges_only_relayer_witness :
  ∃ s', final (processBlock Scenario.bad_root 0 7 false
                 (Scenario.holding [Scenario.blockA])) = Some s'
        ∧ banscore 8 (trace s')
          = banscore 8 (trace (Scenario.holding [Scenario.blockA]))
        ∧ transient_score 8 (trace s')
          = transient_score 8 (trace (Scenario.holding [Scenario.blockA])).
Proof.
  destruct (processBlock_charges_only_relayer Scenario.bad_root
              (Scenario.holding [Scenario.blockA]) 0 7 false)
    as (s' & Hf & Hq).
  exists s'. split; [exact Hf|]. apply Hq. discriminate.
Defined.

(** X2: [processBlock] never connects a block and never fetches one: on
    every path and in every outcome its calls are checks, transaction
    requests, charges against the relaying peer and [NewBlock], and the
    chain, [inflightRequests] and the timers are as before. *)
Theorem processBlock_never_connects (E : Collaborators) (s : Server)
    (a : ptr) (p : peerID) (recheck : bool) :
  ∃ s' evs, final (processBlock E a p recheck s) = Some s'
            ∧ trace s' = trace s ++ evs
            ∧ Forall (processBlock_call p) evs
            ∧ chain s' = chain s
            ∧ inflightRequests s' = inflightRequests s
            ∧ inflightLock s' = inflightLock s
            ∧ timers s' = timers s.
Proof.
  destruct (processBlock_final E a p recheck s) as (s' & Hf & Heff).
  destruct (pe_trace _ _ _ _ _ Heff) as (evs & Htr & Hevs).
  exists s', evs. split; [done|]. split; [done|]. split; [done|].
  split; [apply Heff|]. split; [apply Heff|]. split; apply Heff.
Qed.

(** X3: every block [processBlock] adds to [activeInventory] passed
    [CheckConnectBlock] on the current chain, in the form it has when the
    call ends, and is filed under its own id. *)
Theorem processBlock_registers_only_checked_blocks (E : Collaborators)
    (s : Server) (a : ptr) (p : peerID) (recheck : bool) :
  ∃ s', final (processBlock E a p recheck s) = Some s'
        ∧ ∀ id a0, activeInventory s' !! id = Some a0 →
                   activeInventory s !! id = Some a0
                   ∨ (∃ b0, heap s' !! a0 = Some b0
                            ∧ CheckConnectBlock E (chain s) b0 = None
                            ∧ id = Block_ID E b0).
Proof.
  destruct (processBlock_final E a p recheck s) as (s' & Hf & Heff).
  exists s'. split; [done|]. intros id a0 Hl.
  destruct (pe_activeInventory _ _ _ _ _ Heff id a0 Hl) as [?|[_ ?]];
    [by left|by right].
Qed.

Lemma processBlock_registers_only_checked_blocks_witness :
  ∃ s', final (processBlock Cases.repairable 0 7 false
                 (Scenario.holding [Scenario.blockA])) = Some s'
        ∧ (activeInventory (Scenario.holding [Scenario.blockA]) !! 1007
           = Some 0%nat
           ∨ (∃ b0, heap s' !! 0%nat = Some b0
                    ∧ CheckConnectBlock Cases.repairable
                        (chain (Scenario.holding [Scenario.blockA])) b0 = None
                    ∧ 1007 = Block_ID Cases.repairable b0)).
Proof.
  destruct (processBlock_registers_only_checked_blocks Cases.repairable
              (Scenario.holding [Scenario.blockA]) 0 7 false)
    as (s' & Hf & Hin).
  exists s'. split; [exact Hf|]. apply Hin.
  vm_compute in Hf. injection Hf as <-. vm_compute. reflexivity.
Defined.

(** X4: every entry [processBlock] adds to [orphanBlocks] points to the
    block of the call, which [CheckConnectBlock] classified as an orphan in
    the form it has when the call ends, is filed under that block's id and
    names the relaying peer of the call.  Every other entry was there
    before; the block it points to is as it was, unless it is the block of
    the call itself, whose transactions may have been rewritten in place
    while its header and its number of transactions stay. *)
Theorem processBlock_stores_only_orphans (E : Collaborators) (s : Server)
    (a : ptr) (p : peerID) (recheck : bool) :
  ∃ s', final (processBlock E a p recheck s) = Some s'
        ∧ (∀ id o, orphanBlocks s' !! id = Some o →
                   orphanBlocks s !! id = Some o
                   ∨ (blk o = a ∧ relayingPeer o = p
                      ∧ ∃ b0, heap s' !! a = Some b0
                              ∧ CheckConnectBlock E (chain s) b0
                                = Some OrphanBlockError
                              ∧ id = Block_ID E b0))
        ∧ (∀ a', a' ≠ a → heap s' !! a' = heap s !! a')
        ∧ (∀ b, heap s !! a = Some b →
                ∃ b', heap s' !! a = Some b'
                      ∧ Header b' = Header b
                      ∧ length (Transactions b') = length (Transactions b)).
Proof.
  destruct (processBlock_final E a p recheck s) as (s' & Hf & Heff).
  exists s'. split; [done|].
  destruct (pe_heap _ _ _ _ _ Heff) as (_ & Hother & Hat).
  split; [|split; [done|]].
  - intros id o Hl.
    destruct (pe_orphanBlocks _ _ _ _ _ Heff id o Hl)
      as [?|(? & ? & _ & ?)]; [by left|by right].
  - intros b Hb. destruct (Hat b Hb) as (b' & Hb' & [? ?]). by exists b'.
Qed.

Lemma processBlock_stores_only_orphans_witness :
  ∃ s', final (processBlock Cases.repaired_orphan 0 7 false
                 (Scenario.holding [Scenario.blockA])) = Some s'
        ∧ (orphanBlocks (Scenario.holding [Scenario.blockA]) !! 1007
           = Some {| blk := 0; relayingPeer := 7; firstSeen := 0 |}
           ∨ (0%nat = 0%nat ∧ 7 = 7
              ∧ ∃ b0, heap s' !! 0%nat = Some b0
                      ∧ CheckConnectBlock Cases.repaired_orphan
                          (chain (Scenario.holding [Scenario.blockA])) b0
                        = Some OrphanBlockError
                      ∧ 1007 = Block_ID Cases.repaired_orphan b0))
        ∧ (∃ b', heap s' !! 0%nat = Some b'
                 ∧ Header b' = Header Scenario.blockA
                 ∧ length (Transactions b')
                   = length (Transactions Scenario.blockA)).
Proof.
  destruct (processBlock_stores_only_orphans Cases.repaired_orphan
              (Scenario.holding [Scenario.blockA]) 0 7 false)
    as (s' & Hf & Hin & _ & Hat).
  exists s'. split; [exact Hf|]. split.
  - apply (Hin 1007 {| blk := 0; relayingPeer := 7; firstSeen := 0 |}).
    vm_compute in Hf. injection Hf as <-. vm_compute. reflexivity.
  - apply Hat. reflexivity.
Defined.

(** X5: [processBlock] forgets no block: an id in [activeInventory] stays
    there, and an id in [orphanBlocks] stays there or has moved into
    [activeInventory]; a block that fails its check later is never
    evicted. *)
Theorem processBlock_forgets_no_block (E : Collaborators) (s : Server)
    (a : ptr) (p : peerID) (recheck : bool) :
  ∃ s', final (processBlock E a p recheck s) = Some s'
        ∧ (∀ id, is_Some (activeInventory s !! id) →
                 is_Some (activeInventory s' !! id))
        ∧ (∀ id, is_Some (orphanBlocks s !! id) →
                 is_Some (orphanBlocks s' !! id)
                 ∨ is_Some (activeInventory s' !! id)).
Proof.
  destruct (processBlock_final E a p recheck s) as (s' & Hf & Heff).
  exists s'. split; [done|]. split; apply Heff.
Qed.

Lemma processBlock_forgets_no_block_witness :
  ∃ s', final (processBlock Scenario.after_rival 1 9 false
                 (Scenario.waiting [Scenario.rival])) = Some s'
        ∧ is_Some (activeInventory s' !! 1007)
        ∧ (is_Some (orphanBlocks s' !! 2005)
           ∨ is_Some (activeInventory s' !! 2005)).
Proof.
  destruct (processBlock_forgets_no_block Scenario.after_rival
              (Scenario.waiting [Scenario.rival]) 1 9 false)
    as (s' & Hf & Hinv & Horph).
  exists s'. split; [exact Hf|]. split.
  - apply Hinv. vm_compute. eauto.
  - apply Horph. vm_compute. eauto.
Defined.

(** ** processBlock: the remaining paths *)

Lemma rpc_score (q : peerID) (evs : list event) :
  Forall is_rpc evs → banscore q evs = 0 ∧ transient_score q evs = 0.
Proof.
  induction 1 as [|e evs He _ [IH1 IH2]]; [done|].
  unfold banscore, transient_score in *. simpl. rewrite IH1, IH2.
  by destruct e.
Qed.

(** A successful repair has made two requests and charged nobody. *)
Lemma fetchBlockTxids_calls_success (E : Collaborators) (p : peerID)
    (b b' : Block) :
  fetchBlockTxids_answer E p b = inl b' →
  Forall is_rpc (fetchBlockTxids_calls E p b).
Proof.
  unfold fetchBlockTxids_answer, fetchBlockTxids_calls.
  destruct (GetBlockTxids_answer E p (Block_ID E b)) as [txids|]; [|done].
  destruct (decide _); [done|].
  destruct (mismatches E (Transactions b) txids) as [|m rest]; [done|].
  destruct (GetBlockTxs_answer E p (Block_ID E b) (m :: rest)) as [txs|] eqn:Ha;
    [|done].
  intros _. rewrite (GetBlockTxs_calls_complete _ _ _ _ _ Ha).
  by repeat constructor.
Qed.

(** The calls of a repair cost the asked peer 50 points when its answer was
    incomplete, and nothing otherwise; nobody else is charged. *)
Lemma fetchBlockTxids_calls_score (E : Collaborators) (p : peerID)
    (b : Block) :
  (short_repair E p b
   ∧ banscore p (fetchBlockTxids_calls E p b) = 50
   ∧ ∃ e, fetchBlockTxids_answer E p b = inr e)
  ∨ (¬ short_repair E p b ∧ banscore p (fetchBlockTxids_calls E p b) = 0).
Proof.
  unfold short_repair, fetchBlockTxids_calls, fetchBlockTxids_answer.
  destruct (GetBlockTxids_answer E p (Block_ID E b)) as [txids|e] eqn:Hids.
  2:{ right. split; [by intros (? & ? & _)|done]. }
  destruct (decide (length txids ≠ length (Transactions b))) as [Hl|Hl].
  { right. split; [|done]. intros (t & [= <-] & ? & _). done. }
  apply dec_stable in Hl.
  destruct (mismatches E (Transactions b) txids) as [|m rest] eqn:Hm.
  { right. split; [|done]. intros (t & [= <-] & _ & Hne & _).
    by rewrite Hm in Hne. }
  destruct (incomplete E p (Block_ID E b) (m :: rest)) eqn:Hi.
  - left. split; [|split].
    + exists txids. rewrite Hm. by repeat split.
    + unfold GetBlockTxs_calls. rewrite Hi. unfold banscore. simpl.
      by rewrite decide_True.
    + destruct (incomplete_error _ _ _ _ Hi) as [e ->]. by eexists.
  - right. split.
    + intros (t & [= <-] & _ & _ & Hi'). rewrite Hm in Hi'. congruence.
    + unfold GetBlockTxs_calls. by rewrite Hi.
Qed.

(** What a successful repair leaves behind. *)
Lemma fetchBlockTxids_success (E : Collaborators) (a a' : ptr) (b : Block)
    (p : peerID) (s s' : Server) :
  heap s !! a = Some b →
  fetchBlockTxids E (Some a) p s = Ret (inl a') s' →
  a' = a
  ∧ ∃ b', fetchBlockTxids_answer E p b = inl b'
          ∧ s' = add_events (fetchBlockTxids_calls E p b)
                   (set_heap (<[a := b']> (heap s)) s).
Proof.
  intros Ha. rewrite (fetchBlockTxids_run E a b) by done.
  destruct (fetchBlockTxids_answer E p b) as [b'|e]; [|done].
  intros [= <- <-]. split; [done|]. by exists b'.
Qed.

(** What a failed repair leaves behind. *)
Lemma fetchBlockTxids_failure (E : Collaborators) (a : ptr) (b : Block)
    (p : peerID) (e : error) (s s' : Server) :
  heap s !! a = Some b →
  fetchBlockTxids E (Some a) p s = Ret (inr e) s' →
  fetchBlockTxids_answer E p b = inr e
  ∧ s' = add_events (fetchBlockTxids_calls E p b) s.
Proof.
  intros Ha. rewrite (fetchBlockTxids_run E a b) by done.
  destruct (fetchBlockTxids_answer E p b) as [b'|e']; [done|].
  by intros [= <- <-].
Qed.

(** X6: a block that [CheckConnectBlock] classifies as an orphan is stored
    under its id together with its pointer, the relaying peer and the time
    of arrival, and the orphan error is returned; nobody is charged,
    [activeInventory] is untouched and consensus is not told. *)
Theorem processBlock_stores_orphan (E : Collaborators) (s : Server)
    (a : ptr) (b : Block) (p : peerID) (recheck : bool) :
  heap s !! a = Some b →
  CheckConnectBlock E (chain s) b = Some OrphanBlockError →
  orphanLock s = unlocked →
  ∃ s', processBlock E a p recheck s = Ret (Some OrphanBlockError) s'
        ∧ orphanBlocks s'
          = <[Block_ID E b := {| blk := a; relayingPeer := p;
                                 firstSeen := clock s |}]> (orphanBlocks s)
        ∧ orphanLock s' = unlocked
        ∧ activeInventory s' = activeInventory s
        ∧ waiters s' = waiters s
        ∧ heap s' = heap s
        ∧ trace s' = trace s ++ [EvCheckConnectBlock b].
Proof.
  intros Ha Hc Hfree. unfold processBlock.
  rewrite (processBlockN_check E 1 a b) by done. rewrite Hc.
  destruct s; simpl in *; subst.
  unfold store_orphan, orphanLock_Lock, orphanLock_Unlock, acquire, release,
    load, deref, modify, bind, ret, add_events.
  simpl. rewrite Ha. simpl. eexists. split; [reflexivity|]. by simpl.
Qed.

Lemma processBlock_stores_orphan_witness :
  ∃ s', processBlock Scenario.by_height 0 9 false
          (Scenario.holding [Scenario.orphan])
        = Ret (Some OrphanBlockError) s'
        ∧ orphanBlocks s'
          = <[2005 := {| blk := 0; relayingPeer := 9; firstSeen := 0 |}]> ∅
        ∧ orphanLock s' = unlocked
        ∧ activeInventory s' = ∅
        ∧ waiters s' = []
        ∧ heap s' = [Scenario.orphan]
        ∧ trace s' = [EvCheckConnectBlock Scenario.orphan].
Proof.
  apply (processBlock_stores_orphan Scenario.by_height
           (Scenario.holding [Scenario.orphan]) 0 Scenario.orphan 9 false);
    reflexivity.
Defined.

(** X7: a first check that fails with [ErrDoesNotConnect] costs the relaying
    peer 10 transient points and no behavioral ones; the error is returned
    and nothing is stored. *)
Theorem processBlock_does_not_connect (E : Collaborators) (s : Server)
    (a : ptr) (b : Block) (p : peerID) :
  heap s !! a = Some b →
  CheckConnectBlock E (chain s) b = Some (RuleError ErrDoesNotConnect) →
  let s' := add_events [EvCheckConnectBlock b; EvIncreaseBanscore p 0 10] s in
  processBlock E a p false s = Ret (Some (RuleError ErrDoesNotConnect)) s'
  ∧ transient_score p (trace s') = transient_score p (trace s) + 10
  ∧ banscore p (trace s') = banscore p (trace s).
Proof.
  intros Ha Hc s'. subst s'. unfold processBlock.
  rewrite (processBlockN_check E 1 a b) by done. rewrite Hc.
  unfold bind. rewrite IncreaseBanscore_run by exact E.
  rewrite add_events_app. split; [done|].
  rewrite trace_add_events, transient_score_app, banscore_app.
  unfold transient_score, banscore. simpl. rewrite !decide_True by done.
  split; lia.
Qed.

Lemma processBlock_does_not_connect_witness :
  let s' := add_events [EvCheckConnectBlock Scenario.blockA;
                        EvIncreaseBanscore 7 0 10]
              (Scenario.holding [Scenario.blockA]) in
  processBlock Cases.racing 0 7 false (Scenario.holding [Scenario.blockA])
  = Ret (Some (RuleError ErrDoesNotConnect)) s'
  ∧ transient_score 7 (trace s')
    = transient_score 7 (trace (Scenario.holding [Scenario.blockA])) + 10
  ∧ banscore 7 (trace s')
    = banscore 7 (trace (Scenario.holding [Scenario.blockA])).
Proof.
  apply (processBlock_does_not_connect Cases.racing
           (Scenario.holding [Scenario.blockA]) 0 Scenario.blockA 7);
    reflexivity.
Defined.

(** An error of [CheckConnectBlock] that is neither an orphan error nor a
    rule error is handed back and nothing else happens. *)
Lemma processBlock_unclassified_error (E : Collaborators) (s : Server)
    (a : ptr) (b : Block) (p : peerID) (recheck : bool) (msg : string) :
  heap s !! a = Some b →
  CheckConnectBlock E (chain s) b = Some (OtherError msg) →
  processBlock E a p recheck s
  = Ret (Some (OtherError msg)) (add_events [EvCheckConnectBlock b] s).
Proof.
  intros Ha Hc. unfold processBlock.
  rewrite (processBlockN_check E 1 a b) by done. by rewrite Hc.
Qed.

(** X8: with both locks free, a bad transaction root that the relaying peer
    repairs and that then passes the recheck ends like a block accepted at
    once: the patched block is in [activeInventory], [NewBlock] is called
    for it, and no score has changed. *)
Theorem processBlock_repaired_block_accepted (E : Collaborators)
    (s s1 : Server) (a a' : ptr) (b b' : Block) (p : peerID) :
  heap s !! a = Some b →
  CheckConnectBlock E (chain s) b = Some (RuleError ErrInvalidTxRoot) →
  fetchBlockTxids E (Some a) p (add_events [EvCheckConnectBlock b] s)
  = Ret (inl a') s1 →
  heap s1 !! a' = Some b' →
  CheckConnectBlock E (chain s) b' = None →
  inventoryLock s = unlocked →
  orphanLock s = unlocked →
  processBlock E a p false s = Ret None (accepted E a' b' s1)
  ∧ activeInventory (accepted E a' b' s1) !! Block_ID E b' = Some a'
  ∧ heap (accepted E a' b' s1) !! a' = Some b'
  ∧ ∀ q, banscore q (trace (accepted E a' b' s1)) = banscore q (trace s)
         ∧ transient_score q (trace (accepted E a' b' s1))
           = transient_score q (trace s).
Proof.
  intros Ha Hc Hf Hb' Hc' Hinv Horph.
  rewrite (processBlock_originator_repairs E s s1 a a' b p Ha Hc Hf).
  destruct (fetchBlockTxids_success E a a' b p
              (add_events [EvCheckConnectBlock b] s) s1 Ha Hf)
    as (-> & b0 & Hans & Hs1).
  pose proof (fetchBlockTxids_calls_success E p b b0 Hans) as Hrpc.
  assert (chain s1 = chain s ∧ inventoryLock s1 = inventoryLock s
          ∧ orphanLock s1 = orphanLock s
          ∧ trace s1 = trace s ++ [EvCheckConnectBlock b]
                       ++ fetchBlockTxids_calls E p b)
    as (Hch & Hil & Hol & Htr).
  { subst s1. destruct s. simpl. by rewrite <- app_assoc. }
  rewrite <- (processBlockN_recheck E 1 a p s1).
  change (processBlockN E 2) with (processBlock E).
  rewrite (processBlock_accepted E s1 a b'); try congruence.
  split; [done|]. split; [|split].
  - unfold accepted. simpl. apply lookup_insert_eq.
  - by destruct s1.
  - intros q.
    assert (trace (accepted E a b' s1)
            = trace s ++ ([EvCheckConnectBlock b]
                          ++ fetchBlockTxids_calls E p b)
                      ++ [EvCheckConnectBlock b';
                          EvNewBlock (Block_ID E b') true]) as ->.
    { unfold accepted. simpl. rewrite Htr. by rewrite <- !app_assoc. }
    rewrite !banscore_app, !transient_score_app.
    destruct (rpc_score q _ Hrpc) as [-> ->].
    unfold banscore, transient_score. simpl. split; lia.
Qed.

Lemma processBlock_repaired_block_accepted_witness :
  let s := Scenario.holding [Scenario.blockA] in
  let s1 := add_events [EvCheckConnectBlock Scenario.blockA;
                        EvGetBlockTxids 7 1007; EvGetBlockTxs 7 1007 [1]]
              (Scenario.holding [Scenario.block 1 7 [10; 12]]) in
  let s' := accepted Cases.repairable 0 (Scenario.block 1 7 [10; 12]) s1 in
  processBlock Cases.repairable 0 7 false s = Ret None s'
  ∧ activeInventory s' !! 1007 = Some 0%nat
  ∧ heap s' !! 0%nat = Some (Scenario.block 1 7 [10; 12])
  ∧ ∀ q, banscore q (trace s') = banscore q (trace s)
         ∧ transient_score q (trace s') = transient_score q (trace s).
Proof.
  intros s s1 s'.
  apply (processBlock_repaired_block_accepted Cases.repairable s s1 0 0
           Scenario.blockA (Scenario.block 1 7 [10; 12]) 7); reflexivity.
Defined.

(** X9: a repaired block that fails the recheck with a rule error costs the
    relaying peer 34 behavioral points, once, and the error of the recheck
    is returned; the block is not registered. *)
Theorem processBlock_repaired_block_rejected (E : Collaborators)
    (s s1 : Server) (a a' : ptr) (b b' : Block) (p : peerID)
    (code : ErrorCode) :
  heap s !! a = Some b →
  CheckConnectBlock E (chain s) b = Some (RuleError ErrInvalidTxRoot) →
  fetchBlockTxids E (Some a) p (add_events [EvCheckConnectBlock b] s)
  = Ret (inl a') s1 →
  heap s1 !! a' = Some b' →
  CheckConnectBlock E (chain s) b' = Some (RuleError code) →
  let s' := add_events [EvCheckConnectBlock b'; EvIncreaseBanscore p 34 0]
              s1 in
  processBlock E a p false s = Ret (Some (RuleError code)) s'
  ∧ banscore p (trace s') = banscore p (trace s) + 34
  ∧ activeInventory s' = activeInventory s.
Proof.
  intros Ha Hc Hf Hb' Hc' s'. subst s'.
  rewrite (processBlock_originator_repairs E s s1 a a' b p Ha Hc Hf).
  destruct (fetchBlockTxids_success E a a' b p
              (add_events [EvCheckConnectBlock b] s) s1 Ha Hf)
    as (-> & b0 & Hans & Hs1).
  pose proof (fetchBlockTxids_calls_success E p b b0 Hans) as Hrpc.
  assert (chain s1 = chain s ∧ activeInventory s1 = activeInventory s
          ∧ trace s1 = trace s ++ [EvCheckConnectBlock b]
                       ++ fetchBlockTxids_calls E p b)
    as (Hch & Hai & Htr).
  { subst s1. destruct s. simpl. by rewrite <- app_assoc. }
  rewrite (processBlockN_check E 0 a b') by done. rewrite Hch, Hc'.
  unfold bind. rewrite IncreaseBanscore_run by exact E.
  rewrite add_events_app. split; [done|]. split; [|done].
  rewrite trace_add_events, Htr, !banscore_app.
  destruct (rpc_score p _ Hrpc) as [-> _].
  unfold banscore. simpl. rewrite decide_True by done. lia.
Qed.

Lemma processBlock_repaired_block_rejected_witness :
  let s := Scenario.holding [Scenario.blockA] in
  let s1 := add_events [EvCheckConnectBlock Scenario.blockA;
                        EvGetBlockTxids 7 1007; EvGetBlockTxs 7 1007 [1]]
              (Scenario.holding [Scenario.block 1 7 [10; 12]]) in
  let s' := add_events [EvCheckConnectBlock (Scenario.block 1 7 [10; 12]);
                        EvIncreaseBanscore 7 34 0] s1 in
  processBlock Cases.unrepairable 0 7 false s
  = Ret (Some (RuleError ErrInvalidTxRoot)) s'
  ∧ banscore 7 (trace s') = banscore 7 (trace s) + 34
  ∧ activeInventory s' = activeInventory s.
Proof.
  intros s s1 s'.
  apply (processBlock_repaired_block_rejected Cases.unrepairable s s1 0 0
           Scenario.blockA (Scenario.block 1 7 [10; 12]) 7 ErrInvalidTxRoot);
    reflexivity.
Defined.

(** ** processBlock and the locks *)

Lemma store_orphan_free (E : Collaborators) (a : ptr) (b : Block)
    (p : peerID) (s : Server) :
  heap s !! a = Some b →
  locks_free s →
  ∃ s', store_orphan E a p s = Ret tt s' ∧ locks_free s'
        ∧ trace s' = trace s.
Proof.
  intros Ha [Hi Ho]. destruct s; simpl in *; subst.
  unfold store_orphan, orphanLock_Lock, orphanLock_Unlock, acquire, release,
    load, deref, modify, bind, ret.
  simpl. rewrite Ha. simpl. eexists. split; [reflexivity|]. by split.
Qed.

Lemma ends_free_calls {A} (a : ptr) (p : peerID) (r : A) (s s' : Server) :
  locks_free s → calls_only a p s s' → locks_free s'.
Proof. intros Hfree (evs & h & -> & _). by destruct s. Qed.

Lemma lock_safe_recheck (E : Collaborators) (n : nat) (a : ptr) (p : peerID) :
  lock_safe (processBlockN E (S n) a p true).
Proof.
  intros s Hfree. destruct (heap s !! a) as [b|] eqn:Ha.
  2:{ by rewrite processBlockN_dangling. }
  rewrite (processBlockN_check E n a b) by done.
  assert (locks_free (add_events [EvCheckConnectBlock b] s)) as Hfree0
    by (by destruct s).
  set (s0 := add_events [EvCheckConnectBlock b] s) in *.
  destruct (CheckConnectBlock E (chain s) b) as [[|code|msg]|] eqn:Hc.
  - destruct (store_orphan_free E a b p s0 Ha Hfree0) as (s' & Hs & Hf' & _).
    unfold bind. by rewrite Hs.
  - unfold bind. rewrite IncreaseBanscore_run by exact E. by destruct s.
  - done.
  - destruct Hfree as [Hi Ho]. subst s0.
    rewrite (submit_accepted E s a b) by done. simpl. by destruct s.
Qed.

Lemma lock_safe_processBlock (E : Collaborators) (a : ptr) (p : peerID)
    (recheck : bool) :
  lock_safe (processBlock E a p recheck).
Proof.
  destruct recheck; [apply lock_safe_recheck|].
  intros s Hfree. unfold processBlock.
  destruct (heap s !! a) as [b|] eqn:Ha.
  2:{ by rewrite processBlockN_dangling. }
  rewrite (processBlockN_check E 1 a b) by done.
  assert (locks_free (add_events [EvCheckConnectBlock b] s)) as Hfree0
    by (by destruct s).
  set (s0 := add_events [EvCheckConnectBlock b] s) in *.
  destruct (CheckConnectBlock E (chain s) b) as [[|code|msg]|] eqn:Hc.
  - destruct (store_orphan_free E a b p s0 Ha Hfree0) as (s' & Hs & Hf' & _).
    unfold bind. by rewrite Hs.
  - destruct code as [| |k].
    + unfold bind at 1.
      rewrite (fetchBlockTxids_run E a b) by done.
      destruct (fetchBlockTxids_answer E p b) as [b'|e].
      * apply (lock_safe_recheck E 0 a p). by destruct s.
      * unfold bind. rewrite IncreaseBanscore_run by exact E.
        rewrite repair_peers_loop_nil.
        destruct (Peers E); simpl; by destruct s.
    + unfold bind. rewrite IncreaseBanscore_run by exact E. by destruct s.
    + unfold bind. rewrite IncreaseBanscore_run by exact E. by destruct s.
  - done.
  - destruct Hfree as [Hi Ho]. subst s0.
    rewrite (submit_accepted E s a b) by done. simpl. by destruct s.
Qed.

(** X10: started with the inventory lock and the orphan lock free,
    [processBlock] never parks on a lock, and when it comes back, returning
    or panicking, both locks are free again. *)
Theorem processBlock_gives_locks_back (E : Collaborators) (s : Server)
    (a : ptr) (p : peerID) (recheck : bool) :
  inventoryLock s = unlocked →
  orphanLock s = unlocked →
  ∃ s', ((∃ err, processBlock E a p recheck s = Ret err s')
         ∨ processBlock E a p recheck s = Panic s')
        ∧ inventoryLock s' = unlocked ∧ orphanLock s' = unlocked.
Proof.
  intros Hi Ho.
  pose proof (lock_safe_processBlock E a p recheck s (conj Hi Ho)) as Hsafe.
  destruct (processBlock E a p recheck s) as [err s'|s'| |]; try done.
  - exists s'. split; [left; by exists err|exact Hsafe].
  - exists s'. split; [by right|exact Hsafe].
Qed.

Lemma processBlock_gives_locks_back_witness :
  ∃ s', ((∃ err, processBlock Scenario.bad_root 0 7 false
                   (Scenario.holding [Scenario.blockA]) = Ret err s')
         ∨ processBlock Scenario.bad_root 0 7 false
             (Scenario.holding [Scenario.blockA]) = Panic s')
        ∧ inventoryLock s' = unlocked ∧ orphanLock s' = unlocked.
Proof.
  apply (processBlock_gives_locks_back Scenario.bad_root
           (Scenario.holding [Scenario.blockA]) 0 7 false); reflexivity.
Defined.

(** ** What one call costs the relaying peer *)

Lemma store_orphan_trace (E : Collaborators) (a : ptr) (p : peerID)
    (s s' : Server) :
  final (store_orphan E a p s) = Some s' → trace s' = trace s.
Proof.
  unfold store_orphan, orphanLock_Lock, orphanLock_Unlock, acquire, release,
    load, deref, modify, bind, ret, panic.
  destruct s; simpl. destruct orphanLock0 as [[|?] []]; simpl;
    try (by intros [= <-]).
  destruct (heap0 !! a); simpl; by intros [= <-].
Qed.

Lemma submit_score (E : Collaborators) (a : ptr) (q : peerID)
    (s s' : Server) :
  final (submit E a s) = Some s' →
  banscore q (trace s') = banscore q (trace s).
Proof.
  unfold submit, inventoryLock_Lock, inventoryLock_Unlock, orphanLock_Lock,
    orphanLock_Unlock, acquire, release, load, deref, emit, modify, bind, ret,
    panic.
  destruct s; simpl.
  destruct inventoryLock0 as [[|?] []]; simpl; try (by intros [= <-]).
  destruct (heap0 !! a); simpl; [|by intros [= <-]].
  destruct orphanLock0 as [[|?] []]; simpl; try (by intros [= <-]).
  intros [= <-]. simpl. rewrite banscore_app. unfold banscore at 2. simpl.
  lia.
Qed.

Lemma score_charge (p : peerID) (n t : N) (s : Server) :
  banscore p (trace (add_events [EvIncreaseBanscore p n t] s))
  = banscore p (trace s) + n.
Proof.
  rewrite trace_add_events, banscore_app. unfold banscore at 2. simpl.
  rewrite decide_True by done. lia.
Qed.

Lemma score_check (p : peerID) (b : Block) (s : Server) :
  banscore p (trace (add_events [EvCheckConnectBlock b] s))
  = banscore p (trace s).
Proof.
  rewrite trace_add_events, banscore_app. unfold banscore at 2. simpl. lia.
Qed.

(** A recheck costs 34 points when the check reports a rule error, and
    nothing otherwise. *)
Lemma recheck_penalty (E : Collaborators) (n : nat) (a : ptr) (b : Block)
    (p : peerID) (s : Server) :
  heap s !! a = Some b →
  ∃ s', final (processBlockN E (S n) a p true s) = Some s'
        ∧ banscore p (trace s')
          = banscore p (trace s)
            + match CheckConnectBlock E (chain s) b with
              | Some (RuleError _) => 34
              | _ => 0
              end.
Proof.
  intros Ha.
  destruct (final_exists (processBlockN E (S n) a p true s)) as [s' Hf].
  { apply processBlockN_step_terminates. by intros [=]. }
  exists s'. split; [done|]. revert Hf.
  rewrite (processBlockN_check E n a b) by done.
  pose proof (score_check p b s) as Hcheck.
  set (s0 := add_events [EvCheckConnectBlock b] s) in *.
  destruct (CheckConnectBlock E (chain s) b) as [[|code|msg]|] eqn:Hc.
  - unfold bind, ret. intros Hf.
    assert (trace s' = trace s0) as ->; [|lia].
    apply (store_orphan_trace E a p). by destruct (store_orphan E a p s0).
  - unfold bind. rewrite IncreaseBanscore_run by exact E.
    intros [= <-]. rewrite score_charge. lia.
  - intros [= <-]. lia.
  - intros Hf. rewrite (submit_score E a p s0 s' Hf). lia.
Qed.

Lemma processBlock_penalty_cases (E : Collaborators) (s s' : Server)
    (a : ptr) (b : Block) (p : peerID) (recheck : bool) :
  heap s !! a = Some b →
  final (processBlock E a p recheck s) = Some s' →
  ∃ d, banscore p (trace s') = banscore p (trace s) + d
       ∧ (d = 0 ∨ d = 34 ∨ d = 84 ∨ d = 101)
       ∧ (d = 101 ↔
          recheck = false
          ∧ ∃ n, CheckConnectBlock E (chain s) b
                 = Some (RuleError (ErrOtherRule n)))
       ∧ (d = 84 ↔
          recheck = false
          ∧ CheckConnectBlock E (chain s) b
            = Some (RuleError ErrInvalidTxRoot)
          ∧ short_repair E p b).
Proof.
  intros Ha. destruct recheck.
  { destruct (recheck_penalty E 1 a b p s Ha) as (s1 & Hf1 & Hs).
    unfold processBlock. rewrite Hf1. intros [= <-].
    eexists. split; [exact Hs|].
    destruct (CheckConnectBlock E (chain s) b) as [[| |]|];
      (split; [auto|]); split; split; (try by intros [? _]); lia. }
  unfold processBlock. rewrite (processBlockN_check E 1 a b) by done.
  pose proof (score_check p b s) as Hcheck.
  set (s0 := add_events [EvCheckConnectBlock b] s) in *.
  destruct (CheckConnectBlock E (chain s) b) as [[|code|msg]|] eqn:Hc.
  - unfold bind, ret. intros Hf. exists 0.
    assert (trace s' = trace s0) as ->.
    { apply (store_orphan_trace E a p).
      by destruct (store_orphan E a p s0). }
    split; [lia|]. split; [auto|].
    split; split; (try by intros (_ & n & [=])); (try by intros (_ & [=] & _));
      lia.
  - destruct code as [| |k].
    + unfold bind at 1. rewrite (fetchBlockTxids_run E a b) by done.
      destruct (fetchBlockTxids_calls_score E p b)
        as [(Hshort & Hfifty & e & Hans)|(Hshort & Hzero)].
      * rewrite Hans. unfold bind. rewrite IncreaseBanscore_run by exact E.
        rewrite repair_peers_loop_nil. intros Hf.
        assert (s' = add_events [EvIncreaseBanscore p 34 0]
                       (add_events (fetchBlockTxids_calls E p b) s0)) as ->
          by (destruct (Peers E); simpl in Hf; congruence).
        exists 84. split.
        { rewrite score_charge, trace_add_events, banscore_app, Hfifty. lia. }
        split; [auto|]. split; split; try done; try lia.
        by intros (_ & n & [=]).
      * assert (∀ s1, trace s1 = trace s0 ++ fetchBlockTxids_calls E p b →
                      banscore p (trace s1) = banscore p (trace s)) as Hs1.
        { intros s1 ->. rewrite banscore_app, Hzero. lia. }
        destruct (fetchBlockTxids_answer E p b) as [b'|e] eqn:Hans.
        -- set (s1 := add_events _ (set_heap _ s0)).
           destruct (recheck_penalty E 0 a b' p s1) as (s2 & Hf2 & Hs2).
           { subst s1. simpl. apply list_lookup_insert_eq.
             by eapply lookup_lt_Some. }
           rewrite Hf2. intros [= <-]. rewrite (Hs1 s1) in Hs2 by done.
           eexists. split; [exact Hs2|].
           destruct (CheckConnectBlock E (chain s1) b') as [[| |]|];
             (split; [auto|]); split; split;
             (try by intros (_ & n & [=])); (try by intros (_ & _ & ?));
             lia.
        -- unfold bind. rewrite IncreaseBanscore_run by exact E.
           rewrite repair_peers_loop_nil. intros Hf.
           assert (s' = add_events [EvIncreaseBanscore p 34 0]
                          (add_events (fetchBlockTxids_calls E p b) s0)) as ->
             by (destruct (Peers E); simpl in Hf; congruence).
           exists 34. split.
           { rewrite score_charge,
               (Hs1 (add_events (fetchBlockTxids_calls E p b) s0)) by done.
             lia. }
           split; [auto|]. split; split;
             (try by intros (_ & n & [=])); (try by intros (_ & _ & ?));
             lia.
    + unfold bind. rewrite IncreaseBanscore_run by exact E.
      intros [= <-]. exists 0. split.
      { rewrite score_charge. lia. }
      split; [auto|]. split; split;
        (try by intros (_ & n & [=])); (try by intros (_ & [=] & _)); lia.
    + unfold bind. rewrite IncreaseBanscore_run by exact E.
      intros [= <-]. exists 101. split.
      { rewrite score_charge. lia. }
      split; [auto|]. split; split; try done; try lia.
      * intros _. split; [done|]. by exists k.
      * by intros (_ & [=] & _).
  - intros [= <-]. exists 0. split; [lia|].
    split; [auto|]. split; split;
      (try by intros (_ & n & [=])); (try by intros (_ & [=] & _)); lia.
  - intros Hf. exists 0. split.
    { rewrite (submit_score E a p s0 s' Hf). lia. }
    split; [auto|]. split; split;
      (try by intros (_ & n & [=])); (try by intros (_ & [=] & _)); lia.
Qed.


(** X11: one call of [processBlock] raises the relaying peer's behavioral
    score by 0, 34, 84 or 101 points: by 101, the ban, exactly when a first
    check fails with a rule error other than a bad transaction root or a
    block that does not connect; and by 84 exactly when a first check
    reports a bad transaction root and the relaying peer, having listed the
    txids, answers the request for the transactions with an incomplete list,
    which the client charges with 50 points before [processBlock] adds its
    34. *)
Theorem processBlock_penalty (E : Collaborators) (s : Server) (a : ptr)
    (b : Block) (p : peerID) (recheck : bool) :
  heap s !! a = Some b →
  ∃ s' d, final (processBlock E a p recheck s) = Some s'
          ∧ banscore p (trace s') = banscore p (trace s) + d
          ∧ (d = 0 ∨ d = 34 ∨ d = 84 ∨ d = 101)
          ∧ (d = 101 ↔
             recheck = false
             ∧ ∃ n, CheckConnectBlock E (chain s) b
                    = Some (RuleError (ErrOtherRule n)))
          ∧ (d = 84 ↔
             recheck = false
             ∧ CheckConnectBlock E (chain s) b
               = Some (RuleError ErrInvalidTxRoot)
             ∧ short_repair E p b).
Proof.
  intros Ha.
  destruct (final_exists (processBlock E a p recheck s)) as [s' Hf].
  { apply processBlock_terminates. }
  destruct (processBlock_penalty_cases E s s' a b p recheck Ha Hf)
    as (d & Hd).
  by exists s', d.
Qed.

Lemma processBlock_penalty_witness :
  ∃ s' d, final (processBlock Cases.short_answer 0 7 false
                   (Scenario.holding [Scenario.blockA])) = Some s'
          ∧ banscore 7 (trace s')
            = banscore 7 (trace (Scenario.holding [Scenario.blockA])) + d
          ∧ (d = 0 ∨ d = 34 ∨ d = 84 ∨ d = 101)
          ∧ (d = 101 ↔
             false = false
             ∧ ∃ n, CheckConnectBlock Cases.short_answer
                      (chain (Scenario.holding [Scenario.blockA]))
                      Scenario.blockA
                    = Some (RuleError (ErrOtherRule n)))
          ∧ (d = 84 ↔
             false = false
             ∧ CheckConnectBlock Cases.short_answer
                 (chain (Scenario.holding [Scenario.blockA])) Scenario.blockA
               = Some (RuleError ErrInvalidTxRoot)
             ∧ short_repair Cases.short_answer 7 Scenario.blockA).
Proof.
  apply (processBlock_penalty Cases.short_answer
           (Scenario.holding [Scenario.blockA]) 0 Scenario.blockA 7 false).
  reflexivity.
Defined.

(** ** The waiter and the chain *)

Lemma same_chain_refl (s : Server) : same_chain s s.
Proof. done. Qed.

Lemma same_chain_trans (s1 s2 s3 : Server) :
  same_chain s1 s2 → same_chain s2 s3 → same_chain s1 s3.
Proof. unfold same_chain. congruence. Qed.

Lemma acquire_same_chain op rd wr :
  (∀ m s, chain (wr m s) = chain s) → keeps same_chain (acquire op rd wr).
Proof.
  intros Hwr s s'. unfold acquire. destruct (op (rd s)); intros [= <-];
    [apply Hwr|done].
Qed.

Lemma release_same_chain op rd wr :
  (∀ m s, chain (wr m s) = chain s) → keeps same_chain (release op rd wr).
Proof.
  intros Hwr s s'. unfold release. destruct (op (rd s)); intros [= <-];
    [apply Hwr|done].
Qed.

Lemma processBlock_same_chain (E : Collaborators) (a : ptr) (p : peerID)
    (recheck : bool) :
  keeps same_chain (processBlock E a p recheck).
Proof.
  intros s s' Hf. apply (processBlockN_effect E 2 a p recheck s s' Hf).
Qed.

Lemma orphans_loop_same_chain (E : Collaborators) (height : N)
    (entries : list (ID * orphanBlock)) :
  keeps same_chain (orphans_loop E entries height).
Proof.
  induction entries as [|[id o] rest IH]; intros s s'.
  { by intros [= <-]. }
  rewrite orphans_loop_cons. destruct (heap s !! blk o) as [bo|].
  2:{ by intros [= <-]. }
  destruct (decide _); [|apply IH].
  unfold bind, ret.
  pose proof (processBlock_same_chain E (blk o) (relayingPeer o) false s)
    as Hp.
  destruct (processBlock E (blk o) (relayingPeer o) false s);
    intros [= <-]; by apply Hp.
Qed.

Lemma orphans_loop_terminates (E : Collaborators) (height : N)
    (entries : list (ID * orphanBlock)) (s : Server) :
  orphans_loop E entries height s ≠ Diverge.
Proof.
  induction entries as [|[id o] rest IH]; [done|].
  rewrite orphans_loop_cons. destruct (heap s !! blk o) as [bo|]; [|done].
  destruct (decide _); [|apply IH].
  unfold bind, ret.
  pose proof (processBlock_terminates E (blk o) (relayingPeer o) false s).
  by destruct (processBlock E (blk o) (relayingPeer o) false s).
Qed.

Lemma waiter_cleanup_same_chain (E : Collaborators) (b : Block) :
  keeps same_chain (waiter_cleanup E b).
Proof.
  unfold waiter_cleanup.
  apply keeps_bind; [apply same_chain_trans| |intros _].
  { by apply acquire_same_chain. }
  apply keeps_bind; [apply same_chain_trans| |intros _].
  { by intros s s' [= <-]. }
  apply keeps_bind; [apply same_chain_trans| |intros _].
  { by apply release_same_chain. }
  apply keeps_bind; [apply same_chain_trans| |intros _].
  { by apply acquire_same_chain. }
  apply keeps_bind; [apply same_chain_trans| |intros entries].
  { by intros s s' [= <-]. }
  apply keeps_bind; [apply same_chain_trans| |intros _].
  { apply orphans_loop_same_chain. }
  by apply release_same_chain.
Qed.

Lemma waiter_cleanup_terminates (E : Collaborators) (b : Block) (s : Server) :
  waiter_cleanup E b s ≠ Diverge.
Proof.
  unfold waiter_cleanup, inventoryLock_Lock, inventoryLock_Unlock,
    orphanLock_Lock, orphanLock_Unlock, acquire, release, modify, get, bind.
  destruct (mu_Lock (inventoryLock s)); [|done]. simpl.
  destruct (mu_Unlock _); [|done]. simpl.
  destruct (mu_Lock _); [|done].
  match goal with
  | |- context [orphans_loop E ?l ?h ?s1] =>
      pose proof (orphans_loop_terminates E h l s1);
      destruct (orphans_loop E l h s1); try done
  end.
  by destruct (mu_Unlock _).
Qed.

(** X12: the waiter changes the chain only by connecting its own block, and
    only after [StatusFinalized]: after [StatusRejected] the chain is as it
    was, after [StatusFinalized] it has grown by the block when
    [ConnectBlock] accepted it and is as it was when [ConnectBlock] failed,
    whatever happens to the orphans afterwards. *)
Theorem waiter_connects_only_when_finalized (E : Collaborators) (s : Server)
    (a : ptr) (b : Block) (status : Status) :
  heap s !! a = Some b →
  ∃ s', final (waiter E a status s) = Some s'
        ∧ chain s'
          = match status with
            | StatusFinalized =>
                match ConnectBlock E (chain s) b with
                | None => chain s ++ [b]
                | Some _ => chain s
                end
            | StatusRejected => chain s
            end.
Proof.
  intros Ha. unfold waiter. unfold bind at 1. rewrite (load_run a b) by done.
  assert (∃ s1, (match status with
                 | StatusFinalized => call_ConnectBlock E b ;;; ret tt
                 | StatusRejected => ret tt
                 end) s = Ret tt s1
                ∧ chain s1 = match status with
                             | StatusFinalized =>
                                 match ConnectBlock E (chain s) b with
                                 | None => chain s ++ [b]
                                 | Some _ => chain s
                                 end
                             | StatusRejected => chain s
                             end) as (s1 & Hs1 & Hch).
  { destruct status; [|by eexists].
    unfold call_ConnectBlock, bind, emit, modify, get, ret. simpl.
    destruct s; simpl. destruct (ConnectBlock E chain0 b); by eexists. }
  rewrite (bind_run _ _ s s1 tt Hs1).
  destruct (final_exists (waiter_cleanup E b s1)) as [s' Hf].
  { apply waiter_cleanup_terminates. }
  exists s'. split; [done|]. rewrite <- Hch.
  by apply (waiter_cleanup_same_chain E b s1).
Qed.

Lemma waiter_connects_only_when_finalized_witness :
  ∃ s', final (waiter Scenario.by_height 0 StatusFinalized
                 (Scenario.waiting [])) = Some s'
        ∧ chain s'
          = match ConnectBlock Scenario.by_height
                    (chain (Scenario.waiting [])) Scenario.parent with
            | None => chain (Scenario.waiting []) ++ [Scenario.parent]
            | Some _ => chain (Scenario.waiting [])
            end.
Proof.
  apply (waiter_connects_only_when_finalized Scenario.by_height
           (Scenario.waiting []) 0 Scenario.parent StatusFinalized).
  reflexivity.
Defined.

(** Called with the orphan lock taken, a block that is classified as an
    orphan makes [processBlock] park on that lock right after the check. *)
Lemma processBlock_orphan_parks_on_orphanLock (E : Collaborators)
    (s : Server) (a : ptr) (b : Block) (p : peerID) (recheck : bool) :
  heap s !! a = Some b →
  CheckConnectBlock E (chain s) b = Some OrphanBlockError →
  orphanLock s ≠ unlocked →
  processBlock E a p recheck s
  = Blocked (add_events [EvCheckConnectBlock b] s).
Proof.
  intros Ha Hc Hheld. unfold processBlock.
  rewrite (processBlockN_check E 1 a b) by done. rewrite Hc.
  unfold bind, store_orphan, bind, orphanLock_Lock, acquire. simpl.
  destruct s; simpl in *.
  destruct orphanLock0 as [[|r] []]; simpl; try reflexivity.
  by destruct Hheld.
Qed.

(** X13: when the orphan at the next height is still an orphan after the
    block was resolved, as it is after a rejection that left the tip where it
    was, the waiter re-enters [processBlock] for it under the orphan lock and
    parks on that lock for good: the orphan map is as before and the lock
    stays held. *)
Theorem waiter_parks_on_unconnected_orphan (E : Collaborators) (s : Server)
    (a : ptr) (b : Block) (status : Status) (o : orphanBlock) (bo : Block) :
  rangeOrphans_visits_entries E →
  heap s !! a = Some b →
  orphans_allocated s →
  inventoryLock s = unlocked →
  orphanLock s = unlocked →
  orphanBlocks s !! Block_ID E bo = Some o →
  heap s !! blk o = Some bo →
  Height (Header bo) = uint32 (Height (Header b) + 1) →
  (∀ id o' bo', orphanBlocks s !! id = Some o' →
                heap s !! blk o' = Some bo' →
                Height (Header bo') = uint32 (Height (Header b) + 1) →
                o' = o) →
  CheckConnectBlock E (chain (resolved E b status s)) bo
  = Some OrphanBlockError →
  ∃ s', waiter E a status s = Blocked s'
        ∧ writer (orphanLock s') = true
        ∧ orphanBlocks s' = orphanBlocks s
        ∧ activeInventory s' = delete (Block_ID E b) (activeInventory s).
Proof.
  intros Hvisit Ha Halloc Hinv Horph Hstored Hbo Hnext Honly Hc.
  rewrite (waiter_unfold E a b) by done.
  destruct (resolved_orphans E b status s) as (Ho & Hl & Hi & Hh).
  pose proof (resolved_activeInventory E b status s) as Hai.
  set (s2 := resolved E b status s) in *.
  unfold bind.
  destruct (orphans_loop_cases E (Height (Header b))
              (rangeOrphans E (orphanBlocks s)) s2)
    as [[Hall Hr] | (id & o' & bo' & Hin & Hbo' & Hhe & Hr)].
  { by apply rangeOrphans_allocated. }
  - exfalso. apply Hvisit in Hstored.
    apply (proj1 (Forall_forall _ _) Hall _ Hstored bo); [|done].
    change (heap s2 !! blk o = Some bo). by rewrite Hh.
  - rewrite Hr. apply Hvisit in Hin. rewrite Hh in Hbo'.
    pose proof (Honly id o' bo' Hin Hbo' Hhe) as ->.
    assert (bo' = bo) as -> by congruence.
    unfold bind.
    rewrite (processBlock_orphan_parks_on_orphanLock E s2 (blk o) bo);
      [|by rewrite Hh|done|by rewrite Hl].
    eexists. split; [reflexivity|].
    destruct s2; simpl in *. by rewrite Hl.
Qed.

Lemma waiter_parks_on_unconnected_orphan_witness :
  ∃ s', waiter Scenario.by_height 0 StatusRejected (Scenario.waiting [])
        = Blocked s'
        ∧ writer (orphanLock s') = true
        ∧ orphanBlocks s' = orphanBlocks (Scenario.waiting [])
        ∧ activeInventory s'
          = delete (Block_ID Scenario.by_height Scenario.parent)
              (activeInventory (Scenario.waiting [])).
Proof.
  apply (waiter_parks_on_unconnected_orphan Scenario.by_height
           (Scenario.waiting []) 0 Scenario.parent StatusRejected
           Scenario.orphan_entry Scenario.orphan).
  - intros m id o. apply map_to_list_visits_entries.
  - reflexivity.
  - apply waiting_allocated.
  - reflexivity.
  - reflexivity.
  - vm_compute. reflexivity.
  - reflexivity.
  - reflexivity.
  - intros id o' bo' Hlook _ _. simpl in Hlook.
    apply lookup_singleton_Some in Hlook. by destruct Hlook.
  - vm_compute. reflexivity.
Defined.

(** ** decodeXthinner: who supplies the transactions *)





(** The decoded block, freshly allocated, patched by a complete answer for
    distinct slots of the block. *)
Lemma patch_new_block (txs : list Transaction) (missing : list N)
    (b : Block) (evs : list event) (s : Server) :
  length txs = length missing →
  Forall (λ m, (N.to_nat m < length (Transactions b))%nat) missing →
  NoDup missing →
  ∃ b', (patch_loop 0 txs missing (length (heap s)) ;;;
         ret (length (heap s), @None error))
          (add_events evs (set_heap (heap s ++ [b]) s))
        = Ret (length (heap s), None)
            (add_events evs (set_heap (heap s ++ [b']) s))
        ∧ patched b missing txs b'.
Proof.
  intros Hlen Hrange Hnd.
  destruct (patched_slice_patched txs missing b) as (cur & Hcur & Hp);
    [lia|done|done|].
  exists {| Header := Header b; Transactions := cur |}. split; [|done].
  pose proof (patch_loop_run txs 0 missing (length (heap s)) b
                (add_events evs (set_heap (heap s ++ [b]) s))
                (new_block_lookup s b)) as Hrun.
  rewrite Hcur in Hrun. unfold bind. rewrite Hrun. unfold ret. f_equal.
  destruct s. unfold add_events, set_trace, set_heap. simpl. f_equal.
  rewrite insert_app_r_alt by lia. by rewrite Nat.sub_diag.
Qed.

(** X14: when the announcing peer supplies the missing transactions, the
    block comes back with its header, with the supplied transactions at the
    missing slots in the order of the request and with every other slot as
    the mempool filled it; one request was made, nobody was charged and no
    other peer was asked. *)
Theorem decodeXthinner_originator_repairs (E : Collaborators) (s : Server)
    (xThinnerBlk : XThinnerBlock) (p : peerID) (b : Block)
    (missing : list N) (txs : list Transaction) :
  DecodeXthinner E xThinnerBlk = (b, missing) →
  missing ≠ [] →
  GetBlockTxs_answer E p (XThinnerBlock_ID E xThinnerBlk) missing = inl txs →
  Forall (λ m, (N.to_nat m < length (Transactions b))%nat) missing →
  NoDup missing →
  ∃ b', decodeXthinner E xThinnerBlk p s
        = Ret (length (heap s), None)
            (add_events [EvGetBlockTxs p (XThinnerBlock_ID E xThinnerBlk)
                           missing]
               (set_heap (heap s ++ [b']) s))
        ∧ patched b missing txs b'.
Proof.
  intros Hd Hne Hans Hrange Hnd. rewrite decodeXthinner_run, Hd.
  cbn [fst snd].
  destruct missing as [|m rest] eqn:Hm; [done|]. rewrite <- Hm in *.
  rewrite Hans.
  apply patch_new_block; [|done|done].
  by apply GetBlockTxs_answer_length in Hans as [? _].
Qed.

Lemma decodeXthinner_originator_repairs_witness :
  ∃ b', decodeXthinner Decoding.originator Decoding.announced3 7
          Scenario.fresh
        = Ret (0%nat, None)
            (add_events [EvGetBlockTxs 7 1007 [0; 2]]
               (set_heap [b'] Scenario.fresh))
        ∧ patched {| Header := Scenario.header 1 7;
                     Transactions := [Scenario.tx 0; Scenario.tx 11;
                                      Scenario.tx 0] |}
            [0; 2] [Scenario.tx 10; Scenario.tx 12] b'.
Proof.
  apply (decodeXthinner_originator_repairs Decoding.originator Scenario.fresh
           Decoding.announced3 7).
  - reflexivity.
  - discriminate.
  - reflexivity.
  - repeat constructor.
  - apply NoDup_cons. split; [|apply NoDup_singleton].
    rewrite list_elem_of_singleton. discriminate.
Defined.



(** The calls of that run, written out: the announcing peer answered "not
    found" and is charged 34; peer 8 and peer 10 answered with too few and
    too many transactions and are charged 50 each by the client. *)
Lemma decodeXthinner_all_peers_fail_calls :
  GetBlockTxs_calls Decoding.deaf 7 1007 [0; 2]
  ++ [EvIncreaseBanscore 7 34 0]
  ++ requests Decoding.deaf 1007 [0; 2] [8; 9; 10]
  = [EvGetBlockTxs 7 1007 [0; 2]; EvIncreaseBanscore 7 34 0;
     EvGetBlockTxs 8 1007 [0; 2]; EvIncreaseBanscore 8 50 0;
     EvGetBlockTxs 9 1007 [0; 2];
     EvGetBlockTxs 10 1007 [0; 2]; EvIncreaseBanscore 10 50 0].
Proof. reflexivity. Qed.



(** ** decodeXthinner: what it may change *)

Lemma rewrites_only_last (l h : list Block) (b : Block) :
  rewrites_only (length l) (l ++ [b]) h → ∃ b', h = l ++ [b'].
Proof.
  intros (Hlen & Hother & _). rewrite length_app in Hlen. simpl in Hlen.
  destruct (lookup_lt_is_Some_2 h (length l)) as [b' Hb']; [lia|].
  exists b'. apply list_eq. intros i.
  destruct (decide (i = length l)) as [->|Hne].
  - by rewrite Hb', lookup_app_r, Nat.sub_diag by lia.
  - rewrite Hother by done.
    destruct (decide (i < length l)%nat).
    + by rewrite !lookup_app_l by lia.
    + rewrite !lookup_ge_None_2; [done|rewrite length_app; simpl; lia|
                                  rewrite length_app; simpl; lia].
Qed.

Lemma calls_decode (E : Collaborators) (p q : peerID) (id : ID)
    (missing : list N) :
  Forall (decodeXthinner_call p) (GetBlockTxs_calls E q id missing).
Proof.
  unfold GetBlockTxs_calls. constructor; [by left|].
  destruct (incomplete E q id missing); [|constructor].
  constructor; [|constructor]. right. right. by exists q.
Qed.

Lemma requests_decode (E : Collaborators) (p : peerID) (id : ID)
    (missing : list N) (qs : list peerID) :
  Forall (decodeXthinner_call p) (requests E id missing qs).
Proof.
  induction qs as [|q qs IH]; [constructor|].
  rewrite requests_cons. apply Forall_app. split; [apply calls_decode|done].
Qed.

Lemma patch_new_block_final {A} (txs : list Transaction) (missing : list N)
    (b : Block) (evs : list event) (r : A) (s s' : Server) :
  final ((patch_loop 0 txs missing (length (heap s)) ;;; ret r)
           (add_events evs (set_heap (heap s ++ [b]) s))) = Some s' →
  ∃ b', s' = add_events evs (set_heap (heap s ++ [b']) s).
Proof.
  intros Hf.
  assert (∃ s1, final (patch_loop 0 txs missing (length (heap s))
                         (add_events evs (set_heap (heap s ++ [b]) s)))
                = Some s1 ∧ s' = s1) as (s1 & Hp & ->).
  { revert Hf. unfold bind, ret.
    destruct (patch_loop 0 txs missing (length (heap s)) _) as [[] s1|s1|s1|];
      simpl; intros [= <-]; by eexists. }
  apply patch_loop_rewrites in Hp as (h & -> & Hh). simpl in Hh.
  apply rewrites_only_last in Hh as [b' ->]. by exists b'.
Qed.

Lemma decodeXthinner_only (E : Collaborators) (xThinnerBlk : XThinnerBlock)
    (p : peerID) :
  keeps (decode_only p) (decodeXthinner E xThinnerBlk p).
Proof.
  intros s s'. rewrite decodeXthinner_run.
  set (b := (DecodeXthinner E xThinnerBlk).1).
  set (missing := (DecodeXthinner E xThinnerBlk).2).
  set (id := XThinnerBlock_ID E xThinnerBlk).
  destruct missing as [|m rest] eqn:Hm.
  { intros [= <-]. exists [], b. by rewrite add_events_nil. }
  rewrite <- Hm. clear Hm m rest.
  destruct (GetBlockTxs_answer E p id missing) as [txs|e].
  - intros Hf. apply patch_new_block_final in Hf as [b' ->].
    eexists _, b'. split; [done|]. constructor; [by left|constructor].
  - set (evs := GetBlockTxs_calls E p id missing ++ _).
    assert (Forall (decodeXthinner_call p) evs) as Hevs.
    { subst evs. apply Forall_app. split; [apply calls_decode|].
      constructor; [right; by left|apply requests_decode]. }
    destruct (supplier E id missing (Peers E)) as [txs|].
    + intros Hf. apply patch_new_block_final in Hf as [b' ->].
      by exists evs, b'.
    + intros [= <-]. by exists evs, b.
Qed.

Lemma decodeXthinner_terminates (E : Collaborators)
    (xThinnerBlk : XThinnerBlock) (p : peerID) (s : Server) :
  decodeXthinner E xThinnerBlk p s ≠ Diverge.
Proof.
  rewrite decodeXthinner_run.
  assert (∀ txs s0 a, (patch_loop 0 txs (DecodeXthinner E xThinnerBlk).2 a ;;;
                       ret (a, @None error)) s0 ≠ Diverge) as Hpatch.
  { intros txs s0 a. unfold bind, ret.
    pose proof (patch_loop_terminates txs 0 (DecodeXthinner E xThinnerBlk).2
                  a s0).
    by destruct (patch_loop 0 txs _ a s0). }
  destruct (DecodeXthinner E xThinnerBlk).2 as [|m rest] eqn:Hm; [done|].
  rewrite <- Hm in *.
  destruct (GetBlockTxs_answer E p _ _); [apply Hpatch|].
  destruct (supplier E _ _ (Peers E)); [apply Hpatch|done].
Qed.

(** X17: [decodeXthinner] touches no map, no lock and not the chain.  It
    allocates the decoded block, and all it does besides is ask peers for
    transactions and charge the announcing peer 34 points, next to the 50
    points the client charges a peer for an incomplete answer; however it
    ends, the state is the one it started in with the new block on the heap
    and those calls added to the trace. *)
Theorem decodeXthinner_only_asks_and_charges (E : Collaborators) (s : Server)
    (xThinnerBlk : XThinnerBlock) (p : peerID) :
  ∃ s' evs b', final (decodeXthinner E xThinnerBlk p s) = Some s'
               ∧ s' = add_events evs (set_heap (heap s ++ [b']) s)
               ∧ Forall (decodeXthinner_call p) evs.
Proof.
  destruct (final_exists (decodeXthinner E xThinnerBlk p s)) as [s' Hf].
  { apply decodeXthinner_terminates. }
  destruct (decodeXthinner_only E xThinnerBlk p s s' Hf) as (evs & b' & ? & ?).
  by exists s', evs, b'.
Qed.

(** ** fetchBlockTxids: what it asks for *)

(** X18: [fetchBlockTxids] turns the peer's txid list down without asking
    for a single transaction when the list has another length than the
    block, and when every listed id is the id of the block's transaction at
    that index, in which case the block is called invalid. *)
Theorem fetchBlockTxids_refuses (E : Collaborators) (s : Server) (a : ptr)
    (b : Block) (p : peerID) (txids : list ID) :
  heap s !! a = Some b →
  GetBlockTxids_answer E p (Block_ID E b) = inl txids →
  length txids ≠ length (Transactions b)
  ∨ txids = tx_ID E <$> Transactions b →
  fetchBlockTxids E (Some a) p s
  = Ret (inr (OtherError
           (if decide (length txids ≠ length (Transactions b))
            then "getblocktxids: peer returned unexpected  number of IDs"
            else "block invalid")))
      (add_events [EvGetBlockTxids p (Block_ID E b)] s).
Proof.
  intros Ha Hids Hcase. rewrite (fetchBlockTxids_run E a b) by done.
  unfold fetchBlockTxids_answer, fetchBlockTxids_calls. rewrite Hids.
  destruct (decide (length txids ≠ length (Transactions b))) as [|Hlen];
    [done|].
  destruct Hcase as [Hne| ->]; [done|].
  assert (mismatches E (Transactions b) (tx_ID E <$> Transactions b) = [])
    as ->; [|done].
  unfold mismatches. rewrite filter_none; [done|].
  apply Forall_forall. intros i _ Hne. apply Hne.
  by rewrite list_lookup_fmap.
Qed.

Lemma fetchBlockTxids_refuses_witness :
  fetchBlockTxids Scenario.forging (Some 0%nat) 7
    (Scenario.holding [Scenario.block 1 7 [10; 12]])
  = Ret (inr (OtherError "block invalid"))
      (add_events [EvGetBlockTxids 7 1007]
         (Scenario.holding [Scenario.block 1 7 [10; 12]])).
Proof.
  apply (fetchBlockTxids_refuses Scenario.forging
           (Scenario.holding [Scenario.block 1 7 [10; 12]]) 0
           (Scenario.block 1 7 [10; 12]) 7 [10; 12]).
  - reflexivity.
  - reflexivity.
  - right. reflexivity.
Defined.

(** X19: when the txid list has the length of the block and differs from it
    somewhere, [fetchBlockTxids] asks the same peer for exactly the indices
    at which the ids differ, in increasing order, and hands an error of that
    request back unchanged; when the error is that of an incomplete answer,
    the client has charged the peer 50 points before. *)
Theorem fetchBlockTxids_requests_mismatches (E : Collaborators) (s : Server)
    (a : ptr) (b : Block) (p : peerID) (txids : list ID) (e : error) :
  heap s !! a = Some b →
  GetBlockTxids_answer E p (Block_ID E b) = inl txids →
  length txids = length (Transactions b) →
  mismatches E (Transactions b) txids ≠ [] →
  GetBlockTxs_answer E p (Block_ID E b) (mismatches E (Transactions b) txids)
  = inr e →
  fetchBlockTxids E (Some a) p s
  = Ret (inr e)
      (add_events
         (EvGetBlockTxids p (Block_ID E b)
          :: EvGetBlockTxs p (Block_ID E b)
               (mismatches E (Transactions b) txids)
          :: if incomplete E p (Block_ID E b)
                  (mismatches E (Transactions b) txids)
             then [EvIncreaseBanscore p 50 0] else []) s).
Proof.
  intros Ha Hids Hlen Hne Hans. rewrite (fetchBlockTxids_run E a b) by done.
  unfold fetchBlockTxids_answer, fetchBlockTxids_calls. rewrite Hids.
  destruct (decide (length txids ≠ length (Transactions b))); [done|].
  destruct (mismatches E (Transactions b) txids) as [|m rest] eqn:Hm; [done|].
  by rewrite Hans.
Qed.

Lemma fetchBlockTxids_requests_mismatches_witness :
  fetchBlockTxids Cases.short_answer (Some 0%nat) 7
    (Scenario.holding [Scenario.blockA])
  = Ret (inr (OtherError "peer 12D3KooW did not return all requested txs"))
      (add_events
         (EvGetBlockTxids 7 1007
          :: EvGetBlockTxs 7 1007
               (mismatches Cases.short_answer
                  (Transactions Scenario.blockA) [10; 12])
          :: if incomplete Cases.short_answer 7 1007
                  (mismatches Cases.short_answer
                     (Transactions Scenario.blockA) [10; 12])
             then [EvIncreaseBanscore 7 50 0] else [])
         (Scenario.holding [Scenario.blockA])).
Proof.
  apply (fetchBlockTxids_requests_mismatches Cases.short_answer
           (Scenario.holding [Scenario.blockA]) 0 Scenario.blockA 7 [10; 12]
           (OtherError "peer 12D3KooW did not return all requested txs")).
  - reflexivity.
  - reflexivity.
  - reflexivity.
  - vm_compute. discriminate.
  - reflexivity.
Defined.

(** The calls of that run, written out. *)
Lemma fetchBlockTxids_short_answer_calls :
  trace <$> final (fetchBlockTxids Cases.short_answer (Some 0%nat) 7
                     (Scenario.holding [Scenario.blockA]))
  = Some [EvGetBlockTxids 7 1007; EvGetBlockTxs 7 1007 [1];
          EvIncreaseBanscore 7 50 0].
Proof. vm_compute. reflexivity. Qed.



(** X21: however it ends, [fetchBlockTxids] leaves the server as it found
    it but for the trace and the transactions of the block it was given.
    The trace grows by its requests and by the 50 points the client charges
    the asked peer for an incomplete answer, nobody else is charged; the
    block it was given keeps its header and its number of transactions, and
    no other block is touched. *)
Theorem fetchBlockTxids_only_asks (E : Collaborators) (s : Server)
    (a : ptr) (p : peerID) :
  ∃ s' evs h, final (fetchBlockTxids E (Some a) p s) = Some s'
              ∧ s' = add_events evs (set_heap h s)
              ∧ Forall (fetchBlockTxids_call p) evs
              ∧ rewrites_only a (heap s) h.
Proof.
  destruct (final_exists (fetchBlockTxids E (Some a) p s)) as [s' Hf].
  { apply fetchBlockTxids_terminates. }
  destruct (fetchBlockTxids_repair_only E a p s s' Hf) as (evs & h & ? & ? & ?).
  by exists s', evs, h.
Qed.

(** ** requestBlock: a block that is already in flight *)

(** X22: for a block id that is already in flight [requestBlock] returns at
    once: no request goes out, nothing is inserted and the read lock it took
    is given back, so the server is exactly as before. *)
Theorem requestBlock_skips_known_block (E : Collaborators) (s : Server)
    (blockID : ID) (remotePeer : peerID) (known : bool) :
  inflightRequests s !! blockID = Some known →
  writer (inflightLock s) = false →
  requestBlock E blockID remotePeer s = Ret tt s.
Proof.
  intros Hsome Hw. destruct s as [? ? ? ? ? ? [rd wr] ? ? ? ? ? ?].
  simpl in *. subst.
  unfold requestBlock, inflightLock_RLock, inflightLock_RUnlock, acquire,
    release, bind, get, ret. simpl. rewrite Hsome. reflexivity.
Qed.

Lemma requestBlock_skips_known_block_witness :
  requestBlock Scenario.accepting 1008 7 Arrival.busy = Ret tt Arrival.busy.
Proof.
  apply (requestBlock_skips_known_block Scenario.accepting Arrival.busy 1008 7
           true).
  - vm_compute. reflexivity.
  - reflexivity.
Defined.

(** ** handleIncomingBlock *)

(** X23: an announcement whose transactions are all in the mempool and whose
    block passes [CheckConnectBlock] goes through without a single request
    to a peer: the decoded block is registered, consensus is told, a waiter
    is spawned and nil is returned. *)
Theorem handleIncomingBlock_complete_block (E : Collaborators) (s : Server)
    (xThinnerBlk : XThinnerBlock) (p : peerID) (b : Block) :
  DecodeXthinner E xThinnerBlk = (b, []) →
  CheckConnectBlock E (chain s) b = None →
  inventoryLock s = unlocked →
  orphanLock s = unlocked →
  let s' := accepted E (length (heap s)) b (set_heap (heap s ++ [b]) s) in
  handleIncomingBlock E xThinnerBlk p s = Ret None s'
  ∧ trace s'
    = trace s ++ [EvCheckConnectBlock b; EvNewBlock (Block_ID E b) true].
Proof.
  intros Hd Hc Hi Ho s'. subst s'. split; [|by destruct s].
  unfold handleIncomingBlock.
  rewrite (bind_run _ _ s (set_heap (heap s ++ [b]) s)
             (length (heap s), None)).
  - apply processBlock_accepted; [apply new_block_lookup|done..].
  - rewrite decodeXthinner_run, Hd. reflexivity.
Qed.

Lemma handleIncomingBlock_complete_block_witness :
  let b := (Decoding.decode_complete Decoding.announced3).1 in
  let s' := accepted Decoding.happy 0 b (set_heap [b] Scenario.fresh) in
  handleIncomingBlock Decoding.happy Decoding.announced3 7 Scenario.fresh
  = Ret None s'
  ∧ trace s'
    = trace Scenario.fresh
      ++ [EvCheckConnectBlock b; EvNewBlock (Block_ID Decoding.happy b) true].
Proof.
  intros b.
  apply (handleIncomingBlock_complete_block Decoding.happy Scenario.fresh
           Decoding.announced3 7 b); reflexivity.
Defined.

Lemma transient_calls (E : Collaborators) (q p : peerID) (id : ID)
    (missing : list N) :
  transient_score q (GetBlockTxs_calls E p id missing) = 0.
Proof.
  unfold GetBlockTxs_calls, transient_score. simpl.
  destruct (incomplete E p id missing); simpl; [|done].
  by destruct (decide (p = q)).
Qed.

Lemma transient_requests (E : Collaborators) (q : peerID) (id : ID)
    (missing : list N) (qs : list peerID) :
  transient_score q (requests E id missing qs) = 0.
Proof.
  induction qs as [|p qs IH]; [done|].
  by rewrite requests_cons, transient_score_app, transient_calls, IH.
Qed.

(** What decoding costs a peer other than the announcing one: 50 points for
    each incomplete answer it gave as one of the connected peers asked. *)
Lemma decodeXthinner_charges_others (E : Collaborators)
    (xThinnerBlk : XThinnerBlock) (p q : peerID) (s s' : Server) :
  final (decodeXthinner E xThinnerBlk p s) = Some s' →
  q ≠ p →
  banscore q (trace s')
  = banscore q (trace s)
    + 50 * N.of_nat
             (incomplete_answers E (XThinnerBlock_ID E xThinnerBlk)
                (DecodeXthinner E xThinnerBlk).2 q
                (helpers_asked E xThinnerBlk p))
  ∧ transient_score q (trace s') = transient_score q (trace s).
Proof.
  intros Hf Hq. revert Hf. rewrite decodeXthinner_run.
  unfold helpers_asked.
  set (b := (DecodeXthinner E xThinnerBlk).1).
  set (missing := (DecodeXthinner E xThinnerBlk).2).
  set (id := XThinnerBlock_ID E xThinnerBlk).
  destruct missing as [|m rest] eqn:Hm.
  { intros [= <-]. rewrite trace_set_heap.
    change (incomplete_answers E id [] q []) with 0%nat. split; lia. }
  rewrite <- Hm. clear Hm m rest.
  destruct (GetBlockTxs_answer E p id missing) as [txs|e].
  - intros Hf. apply patch_then_ret_trace in Hf. rewrite Hf.
    rewrite trace_add_events, trace_set_heap, banscore_app,
      transient_score_app.
    change (banscore q [EvGetBlockTxs p id missing]) with 0.
    change (transient_score q [EvGetBlockTxs p id missing]) with 0.
    change (incomplete_answers E id missing q []) with 0%nat. split; lia.
  - intros Hf.
    assert (trace s'
            = trace s ++ GetBlockTxs_calls E p id missing
                      ++ [EvIncreaseBanscore p 34 0]
                      ++ requests E id missing (asked E id missing (Peers E)))
      as ->.
    { destruct (supplier E id missing (Peers E)).
      - apply patch_then_ret_trace in Hf. by rewrite Hf.
      - by injection Hf as <-. }
    rewrite !banscore_app, !transient_score_app, banscore_calls,
      banscore_requests, transient_calls, transient_requests.
    assert (incomplete_answers E id missing q [p] = 0%nat) as ->.
    { unfold incomplete_answers.
      rewrite filter_cons_False by (intros [? _]; congruence). done. }
    unfold banscore, transient_score. simpl.
    rewrite !decide_False by done. split; lia.
Qed.

(** X24: whatever is announced and whatever the peers answer,
    [handleIncomingBlock] itself charges nobody but the announcing peer.
    The score of another peer changes only by the 50 points the client
    charges for an incomplete answer: by 50 for each incomplete answer that
    peer gave as one of the connected peers [decodeXthinner] turned to, and
    not at all when it was not asked or answered otherwise; its transient
    score does not change. *)
Theorem handleIncomingBlock_charges_others (E : Collaborators)
    (s : Server) (xThinnerBlk : XThinnerBlock) (p : peerID) :
  ∃ s', final (handleIncomingBlock E xThinnerBlk p s) = Some s'
        ∧ ∀ q, q ≠ p →
               banscore q (trace s')
               = banscore q (trace s)
                 + 50 * N.of_nat
                          (incomplete_answers E
                             (XThinnerBlock_ID E xThinnerBlk)
                             (DecodeXthinner E xThinnerBlk).2 q
                             (helpers_asked E xThinnerBlk p))
               ∧ transient_score q (trace s') = transient_score q (trace s).
Proof.
  unfold handleIncomingBlock, bind.
  pose proof (λ q s', decodeXthinner_charges_others E xThinnerBlk p q s s')
    as Hdec.
  pose proof (decodeXthinner_terminates E xThinnerBlk p s) as Hterm.
  pose proof (decodeXthinner_error_nil E xThinnerBlk p s) as Hnil.
  destruct (decodeXthinner E xThinnerBlk p s) as [[a err] s1|s1|s1|];
    simpl in *; try done.
  - rewrite (Hnil s1 a err eq_refl).
    destruct (processBlock_final E a p false s1) as (s' & Hf & Heff).
    exists s'. split; [done|]. intros q Hq.
    destruct (pe_trace _ _ _ _ _ Heff) as (evs & -> & Hevs).
    rewrite banscore_app, transient_score_app.
    destruct (charges_banscore p q evs Hevs Hq) as [-> ->].
    destruct (Hdec q s1 eq_refl Hq) as [-> ->]. split; lia.
  - exists s1. split; [done|]. intros q Hq. by apply Hdec.
  - exists s1. split; [done|]. intros q Hq. by apply Hdec.
Qed.

Lemma handleIncomingBlock_charges_others_witness :
  ∃ s', final (handleIncomingBlock Decoding.deaf Decoding.announced3 7
                 Scenario.fresh) = Some s'
        ∧ banscore 8 (trace s')
          = banscore 8 (trace Scenario.fresh)
            + 50 * N.of_nat
                     (incomplete_answers Decoding.deaf 1007 [0; 2] 8
                        (helpers_asked Decoding.deaf Decoding.announced3 7))
        ∧ transient_score 8 (trace s')
          = transient_score 8 (trace Scenario.fresh).
Proof.
  destruct (handleIncomingBlock_charges_others Decoding.deaf
              Scenario.fresh Decoding.announced3 7) as (s' & Hf & Hq).
  exists s'. split; [exact Hf|]. apply Hq. discriminate.
Defined.

(** In that run peer 8 answered the request for two transactions with one,
    and is 50 points up; peer 9, which did not answer, is charged
    nothing. *)
Lemma helper_with_incomplete_answer_is_charged :
  (λ tr, (banscore 8 tr, banscore 9 tr))
    <$> (trace <$> final (handleIncomingBlock Decoding.deaf
                            Decoding.announced3 7 Scenario.fresh))
  = Some (50, 0).
Proof. vm_compute. reflexivity. Qed.

(** ** fetchBlock *)

(** With no writer on the inventory lock, [fetchBlock] answers with the
    pointer [activeInventory] holds when the block is there and with a copy
    of what the chain has otherwise, and gives the read lock back. *)
Lemma fetchBlock_lookup_order
    (GetBlockByID : list Block → ID → Block + error) (s : Server)
    (blockID : ID) :
  writer (inventoryLock s) = false →
  fetchBlock GetBlockByID blockID s
  = match activeInventory s !! blockID with
    | Some a => Ret (inl a) s
    | None =>
        match GetBlockByID (chain s) blockID with
        | inl b => Ret (inl (length (heap s))) (set_heap (heap s ++ [b]) s)
        | inr err => Ret (inr err) s
        end
    end.
Proof.
  intros Hw. destruct s as [? ? ? ? [rd wr] ? ? ? ? ? ? ? ?]. simpl in *.
  subst.
  unfold fetchBlock, inventoryLock_RLock, inventoryLock_RUnlock, acquire,
    release, new_Block, bind, get, ret. simpl.
  destruct (activeInventory0 !! blockID); [done|]. simpl.
  by destruct (GetBlockByID chain0 blockID).
Qed.

(** X25: once the waiter has resolved a block and found no orphan to
    re-enter, [fetchBlock] no longer answers for that block from
    [activeInventory]: it hands back what the chain has, the block after a
    finalization that connected it, and the chain's answer as it was before
    after a rejection. *)
Theorem fetchBlock_after_resolution (E : Collaborators)
    (GetBlockByID : list Block → ID → Block + error) (s : Server)
    (a : ptr) (b : Block) (status : Status) :
  rangeOrphans_visits_entries E →
  heap s !! a = Some b →
  orphans_allocated s →
  inventoryLock s = unlocked →
  orphanLock s = unlocked →
  (∀ id o bo, orphanBlocks s !! id = Some o →
              heap s !! blk o = Some bo →
              Height (Header bo) ≠ uint32 (Height (Header b) + 1)) →
  ∃ s', waiter E a status s = Ret tt s'
        ∧ fetchBlock GetBlockByID (Block_ID E b) s'
          = match GetBlockByID
                    match status with
                    | StatusFinalized =>
                        match ConnectBlock E (chain s) b with
                        | None => chain s ++ [b]
                        | Some _ => chain s
                        end
                    | StatusRejected => chain s
                    end (Block_ID E b) with
            | inl b1 =>
                Ret (inl (length (heap s'))) (set_heap (heap s' ++ [b1]) s')
            | inr err => Ret (inr err) s'
            end.
Proof.
  intros Hvisit Ha Halloc Hi Ho Hnone.
  rewrite (waiter_unfold E a b) by done.
  pose proof (resolved_activeInventory E b status s) as Hai.
  destruct (resolved_orphans E b status s) as (Hob & Hl & Hil & Hh).
  set (s2 := resolved E b status s) in *.
  unfold bind.
  destruct (orphans_loop_cases E (Height (Header b))
              (rangeOrphans E (orphanBlocks s)) s2)
    as [[_ Hr] | (id & o & bo & Hin & Hbo & Hhe & _)].
  { by apply rangeOrphans_allocated. }
  2:{ apply Hvisit in Hin. rewrite Hh in Hbo.
      by destruct (Hnone id o bo Hin Hbo). }
  rewrite Hr. unfold orphanLock_Unlock, release. rewrite Hl. simpl.
  eexists. split; [reflexivity|].
  rewrite fetchBlock_lookup_order
    by (destruct s2; simpl in *; by rewrite Hil, Hi).
  assert (activeInventory
            (set_orphanLock {| readers := 0; writer := false |} s2)
            !! Block_ID E b = None) as ->.
  { destruct s2; simpl in *. rewrite Hai. apply lookup_delete_eq. }
  assert (chain (set_orphanLock {| readers := 0; writer := false |} s2)
          = match status with
            | StatusFinalized =>
                match ConnectBlock E (chain s) b with
                | None => chain s ++ [b]
                | Some _ => chain s
                end
            | StatusRejected => chain s
            end) as ->; [|done].
  subst s2. unfold resolved. destruct s, status; simpl; [|done].
  by destruct (ConnectBlock E chain0 b).
Qed.

Lemma fetchBlock_after_resolution_witness :
  ∃ s', waiter Scenario.accepting 0 StatusFinalized
          (accepted Scenario.accepting 0 Scenario.blockA
             (Scenario.holding [Scenario.blockA]))
        = Ret tt s'
        ∧ fetchBlock Arrival.only_block
            (Block_ID Scenario.accepting Scenario.blockA) s'
          = Ret (inl (length (heap s')))
              (set_heap (heap s' ++ [Scenario.blockA]) s').
Proof.
  apply (fetchBlock_after_resolution Scenario.accepting Arrival.only_block
           (accepted Scenario.accepting 0 Scenario.blockA
              (Scenario.holding [Scenario.blockA]))
           0 Scenario.blockA StatusFinalized).
  - intros m id o. apply map_to_list_visits_entries.
  - reflexivity.
  - intros id o. simpl. rewrite delete_empty, lookup_empty. discriminate.
  - reflexivity.
  - reflexivity.
  - intros id o bo. simpl. rewrite delete_empty, lookup_empty. discriminate.
Defined.

(** X26: a block that [processBlock] has accepted can be fetched at once,
    before consensus has decided and before it is part of the chain:
    [fetchBlock] hands back the pointer [activeInventory] holds and leaves
    the server as it is. *)
Theorem fetchBlock_serves_accepted_block (E : Collaborators)
    (GetBlockByID : list Block → ID → Block + error) (s : Server)
    (a : ptr) (b : Block) (p : peerID) (recheck : bool) :
  heap s !! a = Some b →
  CheckConnectBlock E (chain s) b = None →
  inventoryLock s = unlocked →
  orphanLock s = unlocked →
  ∃ s1, processBlock E a p recheck s = Ret None s1
        ∧ fetchBlock GetBlockByID (Block_ID E b) s1 = Ret (inl a) s1
        ∧ heap s1 !! a = Some b.
Proof.
  intros Ha Hc Hi Ho. exists (accepted E a b s).
  split; [by apply processBlock_accepted|].
  split; [|by destruct s].
  rewrite fetchBlock_lookup_order by (destruct s; simpl in *; by subst).
  replace (activeInventory (accepted E a b s) !! Block_ID E b)
    with (Some a); [done|].
  destruct s; simpl. by rewrite lookup_insert_eq.
Qed.

Lemma fetchBlock_serves_accepted_block_witness :
  ∃ s1, processBlock Scenario.accepting 0 7 false
          (Scenario.holding [Scenario.blockA]) = Ret None s1
        ∧ fetchBlock (λ _ _, inr (OtherError "not found"))
            (Block_ID Scenario.accepting Scenario.blockA) s1
          = Ret (inl 0%nat) s1
        ∧ heap s1 !! 0%nat = Some Scenario.blockA.
Proof.
  apply (fetchBlock_serves_accepted_block Scenario.accepting
           (λ _ _, inr (OtherError "not found"))
           (Scenario.holding [Scenario.blockA]) 0
           Scenario.blockA 7 false); reflexivity.
Defined.

(** ** Close *)

(** X27: [Close] cancels the context first and then closes the network, the
    datastore and the blockchain in this order, stopping at the first one
    that fails: what comes after the failure stays open, and the mempool is
    closed exactly when nil is returned. *)
Theorem Close_stops_at_first_error (c : Closing) :
  head (Close c).1 = Some CancelContext
  ∧ CloseNetwork ∈ (Close c).1
  ∧ (CloseDatastore ∈ (Close c).1 ↔ network_Close c = None)
  ∧ (CloseBlockchain ∈ (Close c).1 ↔
     network_Close c = None ∧ ds_Close c = None)
  ∧ (CloseMempool ∈ (Close c).1 ↔ (Close c).2 = None)
  ∧ ((Close c).2 = None ↔
     network_Close c = None ∧ ds_Close c = None ∧ blockchain_Close c = None).
Proof.
  unfold Close.
  destruct (network_Close c), (ds_Close c), (blockchain_Close c); simpl;
    rewrite ?elem_of_cons, ?elem_of_nil; intuition congruence.
Qed.

Lemma Close_stops_at_first_error_witness :
  CloseDatastore ∈ (Close {| network_Close := None;
                             ds_Close := Some (OtherError "busy");
                             blockchain_Close := None |}).1.
Proof.
  apply (Close_stops_at_first_error
           {| network_Close := None; ds_Close := Some (OtherError "busy");
              blockchain_Close := None |}).
  reflexivity.
Defined.

(** ** BuildServer: the server it returns *)

(** X28: a server that [BuildServer] returns came out of a start-up in which
    every step succeeded; its three maps are empty, its locks are free, and
    its policy carries the four limits of the configuration and an empty
    treasury whitelist. *)
Theorem BuildServer_returns_fresh_server (St : Startup) (config : Config)
    (srv : Server) :
  BuildServer St config = Built srv →
  orphanBlocks srv = ∅ ∧ activeInventory srv = ∅ ∧ inflightRequests srv = ∅
  ∧ orphanLock srv = unlocked ∧ inventoryLock srv = unlocked
  ∧ inflightLock srv = unlocked
  ∧ policy srv = Some {| MinFeePerByte := cfg_MinFeePerByte config;
                         MinStake := cfg_MinStake config;
                         BlocksizeSoftLimit := cfg_BlocksizeSoftLimit config;
                         MaxMessageSize := cfg_MaxMessageSize config;
                         TreasuryWhitelist := [] |}
  ∧ NewBlockchain St = inl (chain srv)
  ∧ setupLogging St (LogDir config) (LogLevel config) (Testnet config) = None
  ∧ NewDatastore St (DataDir config) = None
  ∧ (DropTxIndex config = true → indexers_DropTxIndex St = None)
  ∧ NewMempool St = None ∧ NewNetwork St = None
  ∧ NewConsensusEngine St = None.
Proof.
  unfold BuildServer. rewrite whitelist_loop_nil_policy.
  destruct (setupLogging St _ _ _); [done|]. simpl.
  destruct (cfg_TreasuryWhitelist config) as [|id rest]; simpl.
  2:{ by destruct (NewIDFromString St id). }
  destruct (NewDatastore St _); [done|]. simpl.
  destruct (network_key St); [|done..]. simpl.
  destruct (DropTxIndex config).
  - destruct (indexers_DropTxIndex St); [done|]. simpl.
    destruct (NewBlockchain St); [|done]. simpl.
    destruct (NewMempool St); [done|]. simpl.
    destruct (NewNetwork St); [done|]. simpl.
    destruct (NewConsensusEngine St); [done|]. simpl.
    intros [= <-]. simpl. repeat split; done.
  - simpl.
    destruct (NewBlockchain St); [|done]. simpl.
    destruct (NewMempool St); [done|]. simpl.
    destruct (NewNetwork St); [done|]. simpl.
    destruct (NewConsensusEngine St); [done|]. simpl.
    intros [= <-]. simpl. repeat split; done.
Qed.

Lemma BuildServer_returns_fresh_server_witness :
  ∃ srv, BuildServer Scenario.startup (Scenario.config []) = Built srv
         ∧ orphanBlocks srv = ∅
         ∧ policy srv = Some {| MinFeePerByte := 10; MinStake := 1000;
                                BlocksizeSoftLimit := 1000000;
                                MaxMessageSize := 4000000;
                                TreasuryWhitelist := [] |}.
Proof.
  eexists. split; [reflexivity|].
  destruct (BuildServer_returns_fresh_server Scenario.startup
              (Scenario.config []) _ eq_refl)
    as (Ho & _ & _ & _ & _ & _ & Hp & _).
  split; [exact Ho|exact Hp].
Defined.

(** ** The blockchain options *)

Lemma validate_has (c : Blockchain.config) :
  Blockchain.validate (Some c) = None ↔ ∀ r, Blockchain.has r c.
Proof.
  split.
  - unfold Blockchain.validate.
    destruct (Blockchain.params c) eqn:?, (Blockchain.datastore c) eqn:?,
      (Blockchain.sigCache c) eqn:?, (Blockchain.proofCache c) eqn:?;
      try done.
    intros _ []; simpl; eauto.
  - intros Hhas. unfold Blockchain.validate.
    destruct (Hhas Blockchain.RParams) as [? ->].
    destruct (Hhas Blockchain.RDatastore) as [? ->].
    destruct (Hhas Blockchain.RSigCache) as [? ->].
    by destruct (Hhas Blockchain.RProofCache) as [? ->].
Qed.

(** X29: [validate] accepts a configuration exactly when it is not nil and
    its parameters, datastore, signature cache and proof cache are set; the
    index manager, the two limits and pruning are not looked at. *)
Theorem validate_accepts_iff (cfg : option Blockchain.config) :
  Blockchain.validate cfg = None ↔
  ∃ c, cfg = Some c
       ∧ is_Some (Blockchain.params c) ∧ is_Some (Blockchain.datastore c)
       ∧ is_Some (Blockchain.sigCache c) ∧ is_Some (Blockchain.proofCache c).
Proof.
  destruct cfg as [c|].
  - rewrite validate_has. split.
    + intros Hhas. exists c. split; [done|].
      split; [apply (Hhas Blockchain.RParams)|].
      split; [apply (Hhas Blockchain.RDatastore)|].
      split; [apply (Hhas Blockchain.RSigCache)|].
      apply (Hhas Blockchain.RProofCache).
    + intros (c' & [= <-] & ? & ? & ? & ?) []; done.
  - split; [done|]. by intros (c & ? & _).
Qed.

Lemma validate_accepts_iff_witness :
  Blockchain.validate
    (Some (Blockchain.run Blockchain.DefaultOptions Blockchain.zero)) = None.
Proof.
  apply (validate_accepts_iff
           (Some (Blockchain.run Blockchain.DefaultOptions Blockchain.zero))).
  eexists. split; [reflexivity|]. simpl. repeat split; eauto.
Defined.

Lemma has_run (r : Blockchain.required) (opt : Blockchain.Option)
    (cfg : Blockchain.config) :
  Blockchain.passes_no_nil opt →
  Blockchain.has r (Blockchain.run opt cfg) ↔
  Blockchain.has r cfg ∨ Blockchain.assigns r opt.
Proof.
  intros Hnn. destruct r, opt; simpl in *; split; eauto; intros [?|?]; eauto;
    done.
Qed.

Lemma has_apply_all (r : Blockchain.required) (opts : list Blockchain.Option) :
  Forall Blockchain.passes_no_nil opts →
  ∀ cfg, Blockchain.has r (Blockchain.apply_all opts cfg) ↔
         Blockchain.has r cfg ∨ Exists (Blockchain.assigns r) opts.
Proof.
  induction 1 as [|opt opts Hopt _ IH]; intros cfg; simpl.
  { rewrite Exists_nil. tauto. }
  unfold Blockchain.apply_all in *. simpl. rewrite IH, Exists_cons.
  rewrite (has_run r opt cfg Hopt). tauto.
Qed.

Lemma prune_apply_all (opts : list Blockchain.Option) :
  ∀ cfg, Blockchain.prune (Blockchain.apply_all opts cfg) = true ↔
         Blockchain.prune cfg = true ∨ Blockchain.Prune ∈ opts.
Proof.
  induction opts as [|opt opts IH]; intros cfg; simpl.
  { split; [auto|]. intros [?|Hin]; [done|]. by apply elem_of_nil in Hin. }
  unfold Blockchain.apply_all in *. simpl. rewrite IH, elem_of_cons.
  destruct opt; simpl; intuition congruence.
Qed.

(** X30: for options that pass no nil pointer, applied in any number and
    order, the configuration they leave is accepted by [validate] exactly
    when each of the four required fields was set before or is assigned by
    one of the options, [DefaultOptions] assigning all four; and pruning is
    on exactly when it was on before or [Prune] is among the options, no
    option switches it off. *)
Theorem options_outcome (opts : list Blockchain.Option)
    (cfg : Blockchain.config) :
  Forall Blockchain.passes_no_nil opts →
  (Blockchain.validate (Some (Blockchain.apply_all opts cfg)) = None ↔
   ∀ r, Blockchain.has r cfg ∨ Exists (Blockchain.assigns r) opts)
  ∧ (Blockchain.prune (Blockchain.apply_all opts cfg) = true ↔
     Blockchain.prune cfg = true ∨ Blockchain.Prune ∈ opts).
Proof.
  intros Hnn. split; [|apply prune_apply_all].
  rewrite validate_has. split.
  - intros Hhas r. by apply (has_apply_all r opts Hnn).
  - intros Hhas r. by apply (has_apply_all r opts Hnn).
Qed.

Lemma options_outcome_witness :
  Blockchain.validate
    (Some (Blockchain.apply_all
             (Blockchain.server_options Blockchain.RegestParams
                (Blockchain.DiskDatastore "data"))
             Blockchain.zero)) = None.
Proof.
  apply (options_outcome
           (Blockchain.server_options Blockchain.RegestParams
              (Blockchain.DiskDatastore "data")) Blockchain.zero).
  - repeat constructor; simpl; eauto.
  - intros []; right; simpl.
    + apply Exists_cons_hd. exact I.
    + apply Exists_cons_tl, Exists_cons_hd. exact I.
    + do 4 apply Exists_cons_tl. apply Exists_cons_hd. exact I.
    + do 5 apply Exists_cons_tl. apply Exists_cons_hd. exact I.
Defined.
